(** * mqttcmdscript: the cmdscript parser and the step interpreter

    A shallow embedding of [src/mqttcmdscript.py] (with the parts of
    [constants.py], [texts.py] and [filesrw.py] it uses) and the
    properties of the specification checked against it.

    Modelling conventions.
    - Script text is a Rocq [string]: one [ascii] per character.  The
      Python builtins used by the parser ([str.split], [str.upper],
      [int]) are modelled on ASCII text; characters above 127 are
      carried through unchanged and are neither spaces, digits nor
      letters.
    - Python values that the parser stores in a command's argument list
      are [pyval]: the tokenizer stores strings, the step pass rewrites
      some of them in place to integers.
    - The parser works on the module-level [config] object and on the
      logger.  Both are threaded explicitly as a [World].  A Python
      exception that leaves the function is the [Raise] result.
    - A float is given by the rational number ([Q]) that it is.
      [time()] is read from a clock oracle.  Float arithmetic rounds to
      the nearest double, ties to even: the quotient [n / 1000] of
      integers, which raises [OverflowError] beyond the range of the
      floats, and the difference of two times, which becomes an
      infinity there.  Comparisons are exact, as Python's are between
      floats and integers.
    - The broker client is an external collaborator: its calls are
      recorded in the order they are made and always return.
    - The log of a [World] is the log up to the start of the
      interpreter: the records of [file_read_all_text], of the parser
      and of [main].  What is logged from then on (the [logger.info]
      calls of the interpreter and of the callbacks, the records of the
      broker client, which logs to the same logger, and those of
      [filesrw]) depends on the network and on the file system and is
      left out; every statement about the log is about the log up to
      that point. *)

From Stdlib Require Import String Ascii ZArith QArith Qround Qabs Qpower.
From Stdlib Require Import List Bool Lia Lqa.
From stdpp Require Import base list.
Import ListNotations.

Local Open Scope string_scope.
Local Open Scope nat_scope.

(** ** Python results *)

Inductive exn : Type :=
| IndexError
| TypeError
| ValueError
| AttributeError
| OverflowError.

Inductive result (A : Type) : Type :=
| Ok (a : A)
| Raise (e : exn).

Arguments Ok {A} a.
Arguments Raise {A} e.

#[global] Instance result_ret : MRet result := fun A a => Ok a.

#[global] Instance result_bind : MBind result := fun A B k m =>
  match m with
  | Ok a => k a
  | Raise e => Raise e
  end.

(** ** Python strings *)

Module Py.

Definition LF : ascii := "010"%char.
Definition CR : ascii := "013"%char.
Definition SP : ascii := " "%char.
Definition QUOTE : ascii := "034"%char.
Definition HASH : ascii := "#"%char.

(** [s.replace("\r\n", "\n")] *)
Fixpoint replace_crlf (s : string) : string :=
  match s with
  | EmptyString => EmptyString
  | String c s' =>
      match s' with
      | String c2 s'' =>
          if (Ascii.eqb c CR && Ascii.eqb c2 LF)%bool
          then String LF (replace_crlf s'')
          else String c (replace_crlf s')
      | EmptyString => String c EmptyString
      end
  end.

(** [s.split(sep)] for a one-character separator: cuts at every
    occurrence, so adjacent separators give empty strings and the result
    has at least one element. *)
Fixpoint split (sep : ascii) (s : string) : list string :=
  match s with
  | EmptyString => [EmptyString]
  | String c s' =>
      if Ascii.eqb c sep then EmptyString :: split sep s'
      else match split sep s' with
           | w :: ws => String c w :: ws
           | [] => [String c EmptyString]
           end
  end.

(** The characters [str.split()] treats as whitespace in ASCII text:
    TAB, LF, VT, FF, CR, FS, GS, RS, US and space. *)
Definition isspace (c : ascii) : bool :=
  let n := nat_of_ascii c in
  ((9 <=? n) && (n <=? 13) || (28 <=? n) && (n <=? 32))%bool.

(** [s.split()]: the maximal runs of non-whitespace characters. *)
Fixpoint split_ws (s : string) : list string :=
  match s with
  | EmptyString => []
  | String c s' =>
      if isspace c then split_ws s'
      else match s' with
           | EmptyString => [String c EmptyString]
           | String c2 _ =>
               if isspace c2 then String c EmptyString :: split_ws s'
               else match split_ws s' with
                    | w :: ws => String c w :: ws
                    | [] => [String c EmptyString]
                    end
           end
  end.

(** [s.upper()] *)
Definition upper_char (c : ascii) : ascii :=
  let n := nat_of_ascii c in
  if ((97 <=? n) && (n <=? 122))%bool then ascii_of_nat (n - 32) else c.

Fixpoint upper (s : string) : string :=
  match s with
  | EmptyString => EmptyString
  | String c s' => String (upper_char c) (upper s')
  end.

(** [sep.join(ws)] *)
Definition join (sep : string) (ws : list string) : string :=
  String.concat sep ws.

(** [s[-1]] of a non-empty string *)
Fixpoint last_char (s : string) : option ascii :=
  match s with
  | EmptyString => None
  | String c EmptyString => Some c
  | String _ s' => last_char s'
  end.

(** [s[1:-1]] *)
Definition strip_ends (s : string) : string :=
  substring 1 (String.length s - 2) s.

(** *** [int(s, 10)] on ASCII text

    Optional whitespace, an optional sign, decimal digits that may be
    separated by single underscores, optional whitespace.  The C-locale
    whitespace of the integer parser is TAB..CR and space.  A literal of
    more than [int_max_str_digits] digits is refused with [ValueError]
    like a malformed one. *)

Definition isspace_c (c : ascii) : bool :=
  let n := nat_of_ascii c in
  ((9 <=? n) && (n <=? 13) || (n =? 32))%bool.

Definition digit_val (c : ascii) : option Z :=
  let n := nat_of_ascii c in
  if ((48 <=? n) && (n <=? 57))%bool then Some (Z.of_nat (n - 48)) else None.

Definition int_max_str_digits : nat := 4300.

Fixpoint lstrip (s : string) : string :=
  match s with
  | EmptyString => EmptyString
  | String c s' => if isspace_c c then lstrip s' else s
  end.

Fixpoint all_space (s : string) : bool :=
  match s with
  | EmptyString => true
  | String c s' => (isspace_c c && all_space s')%bool
  end.

(** Scans the digits; gives the value, the number of digits and what
    follows them.  An underscore must stand between two digits. *)
Fixpoint digits (acc : Z) (nd : nat) (s : string) : option (Z * nat * string) :=
  match s with
  | EmptyString => Some (acc, nd, s)
  | String c s' =>
      match digit_val c with
      | Some d => digits (acc * 10 + d)%Z (S nd) s'
      | None =>
          if Ascii.eqb c "_"%char then
            match s' with
            | String c2 _ =>
                match digit_val c2 with
                | Some _ => digits acc nd s'
                | None => None
                end
            | EmptyString => None
            end
          else Some (acc, nd, s)
      end
  end.

Definition unsigned (s : string) : option Z :=
  match s with
  | EmptyString => None
  | String c _ =>
      match digit_val c with
      | None => None
      | Some _ =>
          match digits 0%Z 0 s with
          | Some (v, nd, rest) =>
              if (all_space rest && (nd <=? int_max_str_digits))%bool
              then Some v else None
          | None => None
          end
      end
  end.

Definition int_of_str (s : string) : option Z :=
  match lstrip s with
  | String "+" s' => unsigned s'
  | String "-" s' => option_map Z.opp (unsigned s')
  | s' => unsigned s'
  end.

(** *** Floats

    A double is [m * 2 ^ e] with [|m| < 2 ^ 53] and [-1074 <= e], below
    [2 ^ 1024] in absolute value.  An operation delivers the double
    nearest to the exact result, the one with the even [m] when two are
    equally near. *)

(** The nearest integer, the even one of two. *)
Definition round_half_even (x : Q) : Z :=
  let f := Qfloor x in
  match Qcompare (x - inject_Z f)%Q (1 # 2)%Q with
  | Lt => f
  | Gt => (f + 1)%Z
  | Eq => if Z.even f then f else (f + 1)%Z
  end.

(** For a positive [x], the [l] with [2 ^ l <= x < 2 ^ (l + 1)]. *)
Definition ilog2 (x : Q) : Z :=
  let k := (Z.log2 (Qnum x) - Z.log2 (Zpos (Qden x)))%Z in
  if Qle_bool (2 ^ k)%Q x then k else (k - 1)%Z.

(** The double nearest to [x]; none when that is beyond the range. *)
Definition round_double (x : Q) : option Q :=
  if Qeq_bool x 0 then Some 0%Q
  else
    let e := Z.max (ilog2 (Qabs x) - 52) (-1074) in
    let y := (inject_Z (round_half_even (x / 2 ^ e)) * 2 ^ e)%Q in
    if Qle_bool (2 ^ 1024)%Q (Qabs y) then None else Some y.

(** A float that is a number: a double, or an infinity. *)
Inductive float : Type :=
| Finite (q : Q)
| Infinity (negative : bool).

(** [a - b] on floats; beyond the range the result is an infinity. *)
Definition float_sub (a b : Q) : float :=
  match round_double (a - b)%Q with
  | Some d => Finite d
  | None => Infinity (Qle_bool (a - b)%Q 0%Q)
  end.

(** [a / b] on integers, [b] not zero; beyond the range the division
    raises [OverflowError], which is the answer [None]. *)
Definition true_divide (a b : Z) : option Q :=
  round_double (inject_Z a / inject_Z b)%Q.

End Py.

(** ** Python values and sequences *)

(** What a slot of [Command.args] can hold. *)
Inductive pyval : Type :=
| PStr (s : string)
| PInt (z : Z).

(** [l[i]] *)
Definition index {A : Type} (l : list A) (i : nat) : result A :=
  match l !! i with
  | Some x => Ok x
  | None => Raise IndexError
  end.

(** [x in l] for a list of strings *)
Definition str_in (x : string) (l : list string) : bool :=
  existsb (String.eqb x) l.

Definition py_in (v : pyval) (l : list string) : bool :=
  match v with
  | PStr s => str_in s l
  | PInt _ => false
  end.

(** [v.upper()] *)
Definition py_upper (v : pyval) : result string :=
  match v with
  | PStr s => Ok (Py.upper s)
  | PInt _ => Raise AttributeError
  end.

(** [int(v)] *)
Definition py_int (v : pyval) : result Z :=
  match v with
  | PStr s =>
      match Py.int_of_str s with
      | Some z => Ok z
      | None => Raise ValueError
      end
  | PInt z => Ok z
  end.

(** [" ".join(l)] *)
Fixpoint all_str (l : list pyval) : result (list string) :=
  match l with
  | [] => Ok []
  | PStr s :: l' => ws ← all_str l'; Ok (s :: ws)
  | PInt _ :: _ => Raise TypeError
  end.

Definition py_join (sep : string) (l : list pyval) : result string :=
  ws ← all_str l; Ok (Py.join sep ws).

(** [is_int(s, base=10)]: [int(s, base)] raises [ValueError] on a
    malformed literal, which is caught, and [TypeError] on a value that
    is not a string, which is not. *)
Definition is_int (s : pyval) : result bool :=
  match s with
  | PStr t =>
      match Py.int_of_str t with
      | Some _ => Ok true
      | None => Ok false
      end
  | PInt _ => Raise TypeError
  end.

(** The test of lines 457 and 510: [len(msg) < 3], or [msg[0]] is not
    the double quote, or [msg[-1]] is not. *)
Definition not_quoted (msg : string) : bool :=
  ((String.length msg <? 3)
   || negb (match String.get 0 msg with
            | Some c => Ascii.eqb c Py.QUOTE
            | None => false
            end)
   || negb (match Py.last_char msg with
            | Some c => Ascii.eqb c Py.QUOTE
            | None => false
            end))%bool.

(** ** Constants ([constants.py], [texts.py]) *)

Module RC.
Definition OK : Z := 0.
Definition FAIL : Z := -1.
Definition NO_ARGS : Z := -2.
End RC.

Module CONST.
Definition CMDSCRIPT_COMMANDS : list string :=
  [ "CFG_CLIENT_ID"; "CFG_CLEAN_SESSION"; "CFG_KEEPALIVE"; "CFG_USER";
    "CFG_USE_TLS"; "CFG_TLS_CERT"; "CFG_PUB_EACH"; "CONNECT";
    "DISCONNECT"; "DELAY"; "DELAY_MS"; "DELAY_H"; "PUB"; "SUB" ].

Definition CMDSCRIPT_ARGS_YES_NO : list string := [ "YES"; "NO" ].
End CONST.

Module TEXT.
Definition INVALID_CMDSCRIPT : string := String Py.LF "Invalid cmdscript.".
Definition CMDSCRIPT_MISSING_ARG : string := "Missing argument on arg %s".
Definition CMDSCRIPT_INVALID_ARG : string := "Invalid argument on arg %s: %s".
Definition UNEXPECTED_CMDSCRIPT_CMD : string :=
  "Ignoring unknown command found in cmdscript: %s".
End TEXT.

(** ** The logger *)

Inductive levelname : Type := INFO | WARNING | ERROR.

Inductive logarg : Type :=
| ArgStr (s : string)
| ArgList (l : list pyval).

Record LogRecord : Type := mkLog {
  level : levelname;
  text : string;
  logargs : list logarg
}.

(** ** Auxiliary elements (the classes at the top of the module) *)

Record Command : Type := mkCommand {
  cmd : string;
  args : list pyval
}.

Module ConfigSubscription.
Record t : Type := mk {
  qos : Z;
  topic : pyval;
  logfile : pyval
}.
End ConfigSubscription.

(** [time_last_pub] holds [None] or a time; the class attribute is the
    number [0]. *)
Module ConfigPublishEach.
Record t : Type := mk {
  each : Z;
  qos : Z;
  topic : pyval;
  msg : string;
  time_last_pub : option Q
}.

Definition class_time_last_pub : option Q := Some 0%Q.
End ConfigPublishEach.

(** [steps_to_execute] receives the very objects of [commands], after
    the step pass has rewritten their arguments; no object is written
    again once it is in the list (a rewritten argument list starts with
    an integer, on which [is_int] raises before any further write), so
    the list is modelled by the values appended. *)
Record Configuration : Type := mkConfiguration {
  invalid : bool;
  commands : list Command;
  mqtt_host : pyval;
  mqtt_port : Z;
  clean_session : bool;
  keepalive_s : Z;
  client_id : pyval;
  username : pyval;
  password : pyval;
  use_tls : bool;
  tls_cert : pyval;
  tls_key : pyval;
  subscriptions : list ConfigSubscription.t;
  pub_each : list ConfigPublishEach.t;
  steps_to_execute : list Command
}.

(** [config = Configuration()] at import time. *)
Definition config0 : Configuration :=
  {| invalid := false; commands := []; mqtt_host := PStr ""; mqtt_port := 1883;
     clean_session := true; keepalive_s := 60; client_id := PStr "";
     username := PStr ""; password := PStr ""; use_tls := false;
     tls_cert := PStr ""; tls_key := PStr ""; subscriptions := [];
     pub_each := []; steps_to_execute := [] |}.

(** The module state the parser touches: [config] and the log. *)
Record World : Type := mkWorld {
  config : Configuration;
  records : list LogRecord
}.

Definition world0 : World := {| config := config0; records := [] |}.

(** Field assignments on [config]. *)
Definition set_invalid (b : bool) (c : Configuration) : Configuration :=
  mkConfiguration b (commands c) (mqtt_host c) (mqtt_port c) (clean_session c)
    (keepalive_s c) (client_id c) (username c) (password c) (use_tls c)
    (tls_cert c) (tls_key c) (subscriptions c) (pub_each c) (steps_to_execute c).

Definition set_commands (l : list Command) (c : Configuration) : Configuration :=
  mkConfiguration (invalid c) l (mqtt_host c) (mqtt_port c) (clean_session c)
    (keepalive_s c) (client_id c) (username c) (password c) (use_tls c)
    (tls_cert c) (tls_key c) (subscriptions c) (pub_each c) (steps_to_execute c).

Definition set_mqtt (host : pyval) (port : Z) (c : Configuration) : Configuration :=
  mkConfiguration (invalid c) (commands c) host port (clean_session c)
    (keepalive_s c) (client_id c) (username c) (password c) (use_tls c)
    (tls_cert c) (tls_key c) (subscriptions c) (pub_each c) (steps_to_execute c).

Definition set_clean_session (b : bool) (c : Configuration) : Configuration :=
  mkConfiguration (invalid c) (commands c) (mqtt_host c) (mqtt_port c) b
    (keepalive_s c) (client_id c) (username c) (password c) (use_tls c)
    (tls_cert c) (tls_key c) (subscriptions c) (pub_each c) (steps_to_execute c).

Definition set_keepalive_s (k : Z) (c : Configuration) : Configuration :=
  mkConfiguration (invalid c) (commands c) (mqtt_host c) (mqtt_port c)
    (clean_session c) k (client_id c) (username c) (password c) (use_tls c)
    (tls_cert c) (tls_key c) (subscriptions c) (pub_each c) (steps_to_execute c).

Definition set_client_id (v : pyval) (c : Configuration) : Configuration :=
  mkConfiguration (invalid c) (commands c) (mqtt_host c) (mqtt_port c)
    (clean_session c) (keepalive_s c) v (username c) (password c) (use_tls c)
    (tls_cert c) (tls_key c) (subscriptions c) (pub_each c) (steps_to_execute c).

Definition set_user (u p : pyval) (c : Configuration) : Configuration :=
  mkConfiguration (invalid c) (commands c) (mqtt_host c) (mqtt_port c)
    (clean_session c) (keepalive_s c) (client_id c) u p (use_tls c)
    (tls_cert c) (tls_key c) (subscriptions c) (pub_each c) (steps_to_execute c).

Definition set_use_tls (b : bool) (c : Configuration) : Configuration :=
  mkConfiguration (invalid c) (commands c) (mqtt_host c) (mqtt_port c)
    (clean_session c) (keepalive_s c) (client_id c) (username c) (password c) b
    (tls_cert c) (tls_key c) (subscriptions c) (pub_each c) (steps_to_execute c).

Definition set_tls (cert key : pyval) (c : Configuration) : Configuration :=
  mkConfiguration (invalid c) (commands c) (mqtt_host c) (mqtt_port c)
    (clean_session c) (keepalive_s c) (client_id c) (username c) (password c)
    (use_tls c) cert key (subscriptions c) (pub_each c) (steps_to_execute c).

Definition set_subscriptions (l : list ConfigSubscription.t) (c : Configuration)
  : Configuration :=
  mkConfiguration (invalid c) (commands c) (mqtt_host c) (mqtt_port c)
    (clean_session c) (keepalive_s c) (client_id c) (username c) (password c)
    (use_tls c) (tls_cert c) (tls_key c) l (pub_each c) (steps_to_execute c).

Definition set_pub_each (l : list ConfigPublishEach.t) (c : Configuration)
  : Configuration :=
  mkConfiguration (invalid c) (commands c) (mqtt_host c) (mqtt_port c)
    (clean_session c) (keepalive_s c) (client_id c) (username c) (password c)
    (use_tls c) (tls_cert c) (tls_key c) (subscriptions c) l (steps_to_execute c).

Definition set_steps_to_execute (l : list Command) (c : Configuration)
  : Configuration :=
  mkConfiguration (invalid c) (commands c) (mqtt_host c) (mqtt_port c)
    (clean_session c) (keepalive_s c) (client_id c) (username c) (password c)
    (use_tls c) (tls_cert c) (tls_key c) (subscriptions c) (pub_each c) l.

Definition on_config (f : Configuration -> Configuration) (w : World) : World :=
  {| config := f (config w); records := records w |}.

Definition emit (r : LogRecord) (w : World) : World :=
  {| config := config w; records := records w ++ [r] |}.

(** [logger.warning(TEXT.UNEXPECTED_CMDSCRIPT_CMD, line)] *)
Definition warn_unexpected (line : string) : LogRecord :=
  mkLog WARNING TEXT.UNEXPECTED_CMDSCRIPT_CMD [ArgStr line].

(** [logger.error(TEXT.CMDSCRIPT_MISSING_ARG, cmd_arg.cmd)] *)
Definition err_missing (cmd_arg : Command) : LogRecord :=
  mkLog ERROR TEXT.CMDSCRIPT_MISSING_ARG [ArgStr (cmd cmd_arg)].

(** [logger.error(TEXT.CMDSCRIPT_INVALID_ARG, cmd_arg.cmd, cmd_arg.args)] *)
Definition err_invalid (cmd_arg : Command) : LogRecord :=
  mkLog ERROR TEXT.CMDSCRIPT_INVALID_ARG
    [ArgStr (cmd cmd_arg); ArgList (args cmd_arg)].

(** The two error exits of the passes: log, then [config.invalid = True]. *)
Definition missing_arg (cmd_arg : Command) (w : World) : World :=
  on_config (set_invalid true) (emit (err_missing cmd_arg) w).

Definition invalid_arg (cmd_arg : Command) (w : World) : World :=
  on_config (set_invalid true) (emit (err_invalid cmd_arg) w).

(** ** The tokenizer (first part of [cmdscript_parse]) *)

(** The first loop, over [range(len(cmdscript)-1)]: collects the indices
    of the lines to remove. *)
Fixpoint scan_lines (cmdscript : list string) (range : list nat)
    (lines_to_rm_index : list nat) (w : World) : result (list nat * World) :=
  match range with
  | [] => Ok (lines_to_rm_index, w)
  | i :: range' =>
      line ← index cmdscript i;
      if ((String.length line =? 0)
          || match String.get 0 line with
             | Some c => Ascii.eqb c Py.HASH
             | None => false
             end)%bool
      then scan_lines cmdscript range' (lines_to_rm_index ++ [i]) w
      else
        first ← index (Py.split_ws line) 0;
        if negb (str_in first CONST.CMDSCRIPT_COMMANDS)
        then scan_lines cmdscript range' (lines_to_rm_index ++ [i])
               (emit (warn_unexpected line) w)
        else scan_lines cmdscript range' lines_to_rm_index w
  end.

(** The second loop: [del cmdscript[i-removed]] for each collected index. *)
Fixpoint remove_lines (lines_to_rm_index : list nat) (removed : nat)
    (cmdscript : list string) : list string :=
  match lines_to_rm_index with
  | [] => cmdscript
  | i :: rest => remove_lines rest (removed + 1) (delete (i - removed) cmdscript)
  end.

(** The body of the third loop: one [Command] per remaining line. *)
Definition command_of_line (cmd_line : string) : result Command :=
  let words := Py.split Py.SP cmd_line in
  w0 ← index words 0;
  Ok {| cmd := Py.upper w0; args := PStr <$> drop 1 words |}.

Fixpoint populate (cmdscript : list string) (w : World) : result World :=
  match cmdscript with
  | [] => Ok w
  | cmd_line :: rest =>
      cmd_arg ← command_of_line cmd_line;
      populate rest
        (on_config (fun c => set_commands (commands c ++ [cmd_arg]) c) w)
  end.

(** Lines 355-383: the text becomes lines, the lines to ignore are
    removed, the rest is appended to [config.commands]. *)
Definition retained_lines (cmdscript : string) (w : World)
  : result (list string * World) :=
  let cmdscript := Py.replace_crlf cmdscript in
  let cmdscript := Py.split Py.LF cmdscript in
  '(lines_to_rm_index, w) ←
     scan_lines cmdscript (seq 0 (length cmdscript - 1)) [] w;
  Ok (remove_lines lines_to_rm_index 0 cmdscript, w).

Definition tokenize (cmdscript : string) (w : World) : result World :=
  '(lines, w) ← retained_lines cmdscript w;
  populate lines w.

(** ** The configuration pass (second part of [cmdscript_parse]) *)

(** The shared shape of [CFG_CLEAN_SESSION] and [CFG_USE_TLS]: the
    argument must be one of [CMDSCRIPT_ARGS_YES_NO]; then its upper-case
    form selects the value. *)
Definition cfg_yes_no (assign : bool -> Configuration -> Configuration)
    (cmd_arg : Command) (w : World) : result World :=
  if length (args cmd_arg) =? 0 then Ok (missing_arg cmd_arg w)
  else
    a0 ← index (args cmd_arg) 0;
    if negb (py_in a0 CONST.CMDSCRIPT_ARGS_YES_NO) then Ok (invalid_arg cmd_arg w)
    else
      u ← py_upper a0;
      if (u =? "YES")%string then Ok (on_config (assign true) w)
      else
        u' ← py_upper a0;
        if (u' =? "NO")%string then Ok (on_config (assign false) w)
        else Ok w.

(** The body of the loop of lines 385-494, for one command.  Every error
    exit is a [continue]: the loop goes on with the next command. *)
Definition cfg_one (cmd_arg : Command) (w : World) : result World :=
  let a := args cmd_arg in
  if (cmd cmd_arg =? "CFG_CLIENT_ID")%string then
    if length a =? 0 then Ok (missing_arg cmd_arg w)
    else
      a0 ← index a 0;
      Ok (on_config (set_client_id a0) w)
  else if (cmd cmd_arg =? "CFG_CLEAN_SESSION")%string then
    cfg_yes_no set_clean_session cmd_arg w
  else if (cmd cmd_arg =? "CFG_KEEPALIVE")%string then
    if length a =? 0 then Ok (missing_arg cmd_arg w)
    else
      a0 ← index a 0;
      b ← is_int a0;
      if negb b then Ok (invalid_arg cmd_arg w)
      else
        k ← py_int a0;
        Ok (on_config (set_keepalive_s k) w)
  else if (cmd cmd_arg =? "CFG_USER")%string then
    if length a <? 2 then Ok (missing_arg cmd_arg w)
    else
      a0 ← index a 0;
      a1 ← index a 1;
      Ok (on_config (set_user a0 a1) w)
  else if (cmd cmd_arg =? "CFG_TLS_CERT")%string then
    if length a <? 2 then Ok (missing_arg cmd_arg w)
    else
      a0 ← index a 0;
      a1 ← index a 1;
      Ok (on_config (set_tls a0 a1) w)
  else if (cmd cmd_arg =? "CFG_USE_TLS")%string then
    cfg_yes_no set_use_tls cmd_arg w
  else if (cmd cmd_arg =? "CFG_PUB_EACH")%string then
    if length a <? 4 then Ok (missing_arg cmd_arg w)
    else
      a0 ← index a 0;
      b0 ← is_int a0;
      if negb b0 then Ok (invalid_arg cmd_arg w)
      else
        a1 ← index a 1;
        b1 ← is_int a1;
        if negb b1 then Ok (invalid_arg cmd_arg w)
        else
          msg ← py_join " " (drop 3 a);
          if not_quoted msg then Ok (invalid_arg cmd_arg w)
          else
            each ← py_int a0;
            qos ← py_int a1;
            topic ← index a 2;
            let cfg_pub_each :=
              ConfigPublishEach.mk each qos topic (Py.strip_ends msg)
                ConfigPublishEach.class_time_last_pub in
            Ok (on_config
                  (fun c => set_pub_each (pub_each c ++ [cfg_pub_each]) c) w)
  else if (cmd cmd_arg =? "SUB")%string then
    if length a <? 3 then Ok (missing_arg cmd_arg w)
    else
      a0 ← index a 0;
      b ← is_int a0;
      if negb b then Ok (invalid_arg cmd_arg w)
      else
        qos ← py_int a0;
        topic ← index a 1;
        logfile ← index a 2;
        let cfg_sub := ConfigSubscription.mk qos topic logfile in
        Ok (on_config
              (fun c => set_subscriptions (subscriptions c ++ [cfg_sub]) c) w)
  else if (cmd cmd_arg =? "CONNECT")%string then
    if length a <? 2 then Ok (missing_arg cmd_arg w)
    else
      a1 ← index a 1;
      b ← is_int a1;
      if negb b then Ok (invalid_arg cmd_arg w)
      else
        host ← index a 0;
        port ← py_int a1;
        Ok (on_config (set_mqtt host port) w)
  else Ok w.

(** [for cmd_arg in config.commands]: the pass does not touch the list
    it walks. *)
Fixpoint cfg_loop (todo : list Command) (w : World) : result World :=
  match todo with
  | [] => Ok w
  | cmd_arg :: rest => w' ← cfg_one cmd_arg w; cfg_loop rest w'
  end.

Definition build_config (w : World) : result World :=
  cfg_loop (commands (config w)) w.

(** ** The step pass (third part of [cmdscript_parse]) *)

Inductive flow : Type := Next | Break.

Definition is_delay (kw : string) : bool :=
  ((kw =? "DELAY")%string || (kw =? "DELAY_MS")%string
   || (kw =? "DELAY_H")%string)%bool.

(** [config.steps_to_execute.append(cmd_arg)] *)
Definition append_step (cmd_arg : Command) (w : World) : World :=
  on_config (fun c => set_steps_to_execute (steps_to_execute c ++ [cmd_arg]) c) w.

(** An assignment to [cmd_arg.args]: the object is element [i] of
    [config.commands], which changes with it. *)
Definition store (i : nat) (cmd_arg : Command) (w : World) : World :=
  on_config (fun c => set_commands (<[i := cmd_arg]> (commands c)) c) w.

(** The body of the loop of lines 496-531 for the command at index [i].
    Every error exit is a [break]. *)
Definition step_one (i : nat) (cmd_arg : Command) (w : World)
  : result (flow * World) :=
  let a := args cmd_arg in
  let w := if (cmd cmd_arg =? "DISCONNECT")%string
           then append_step cmd_arg w else w in
  if (cmd cmd_arg =? "PUB")%string then
    if length a <? 3 then Ok (Break, missing_arg cmd_arg w)
    else
      a0 ← index a 0;
      b ← is_int a0;
      if negb b then Ok (Break, invalid_arg cmd_arg w)
      else
        msg ← py_join " " (drop 2 a);
        if not_quoted msg then Ok (Break, invalid_arg cmd_arg w)
        else
          let a := take 2 a in
          a0 ← index a 0;
          qos ← py_int a0;
          let a := <[0 := PInt qos]> a in
          let a := (a ++ [PStr (Py.strip_ends msg)])%list in
          let cmd_arg := {| cmd := cmd cmd_arg; args := a |} in
          Ok (Next, append_step cmd_arg (store i cmd_arg w))
  else if is_delay (cmd cmd_arg) then
    if length a =? 0 then Ok (Break, missing_arg cmd_arg w)
    else
      a0 ← index a 0;
      b ← is_int a0;
      if negb b then Ok (Break, invalid_arg cmd_arg w)
      else
        n ← py_int a0;
        let cmd_arg := {| cmd := cmd cmd_arg; args := <[0 := PInt n]> a |} in
        Ok (Next, append_step cmd_arg (store i cmd_arg w))
  else Ok (Next, w).

(** [for cmd_arg in config.commands]: the iterator reads element [i] of
    the list as it is when the iteration gets there; [n] bounds the
    number of iterations by the length of the list. *)
Fixpoint steps_loop (n i : nat) (w : World) : result World :=
  match n with
  | 0 => Ok w
  | S n' =>
      match commands (config w) !! i with
      | None => Ok w
      | Some cmd_arg =>
          r ← step_one i cmd_arg w;
          match r with
          | (Next, w') => steps_loop n' (S i) w'
          | (Break, w') => Ok w'
          end
      end
  end.

Definition compile_steps (w : World) : result World :=
  steps_loop (length (commands (config w))) 0 w.

(** ** [cmdscript_parse] *)

Definition cmdscript_parse (cmdscript : string) (w : World) : result World :=
  w ← tokenize cmdscript w;
  w ← build_config w;
  compile_steps w.

(** ** The interpreter *)

(** Calls made on the broker client, in order. *)
Inductive MqttCall : Type :=
| Connect (host : pyval) (port keepalive : Z)
| LoopForever
| Subscribe (topic : pyval) (qos : Z)
| Publish (topic payload qos : pyval)
| Disconnect
| LoopStop.

(** The module globals and the locals of [cmdscript_interpreter] that
    live across iterations.  [reads] counts the calls of [time()]. *)
Record Runtime : Type := mkRuntime {
  world : World;
  app_exit : bool;
  mqtt_connection_lost : bool;
  time_mqtt_connected : option Q;
  t_wait_start : option Q;
  step : nat;
  calls : list MqttCall;
  reads : nat
}.

Definition runtime0 (w : World) : Runtime :=
  {| world := w; app_exit := false; mqtt_connection_lost := false;
     time_mqtt_connected := None; t_wait_start := None; step := 0;
     calls := []; reads := 0 |}.

Definition set_world (w : World) (rt : Runtime) : Runtime :=
  mkRuntime w (app_exit rt) (mqtt_connection_lost rt) (time_mqtt_connected rt)
    (t_wait_start rt) (step rt) (calls rt) (reads rt).

Definition set_app_exit (b : bool) (rt : Runtime) : Runtime :=
  mkRuntime (world rt) b (mqtt_connection_lost rt) (time_mqtt_connected rt)
    (t_wait_start rt) (step rt) (calls rt) (reads rt).

Definition set_connected (t : option Q) (rt : Runtime) : Runtime :=
  mkRuntime (world rt) (app_exit rt) false t
    (t_wait_start rt) (step rt) (calls rt) (reads rt).

Definition set_connection_lost (rt : Runtime) : Runtime :=
  mkRuntime (world rt) (app_exit rt) true (time_mqtt_connected rt)
    (t_wait_start rt) (step rt) (calls rt) (reads rt).

Definition set_t_wait_start (t : option Q) (rt : Runtime) : Runtime :=
  mkRuntime (world rt) (app_exit rt) (mqtt_connection_lost rt)
    (time_mqtt_connected rt) t (step rt) (calls rt) (reads rt).

Definition set_step (n : nat) (rt : Runtime) : Runtime :=
  mkRuntime (world rt) (app_exit rt) (mqtt_connection_lost rt)
    (time_mqtt_connected rt) (t_wait_start rt) n (calls rt) (reads rt).

Definition call (c : MqttCall) (rt : Runtime) : Runtime :=
  mkRuntime (world rt) (app_exit rt) (mqtt_connection_lost rt)
    (time_mqtt_connected rt) (t_wait_start rt) (step rt) (calls rt ++ [c])
    (reads rt).

Definition set_time_last_pub (t : option Q) (p : ConfigPublishEach.t)
  : ConfigPublishEach.t :=
  ConfigPublishEach.mk (ConfigPublishEach.each p) (ConfigPublishEach.qos p)
    (ConfigPublishEach.topic p) (ConfigPublishEach.msg p) t.

(** What happens between two iterations of the loop, on the client's
    thread or in a signal handler. *)
Inductive Async : Type :=
| OnConnect
| OnDisconnect
| Signal.

(** One iteration as the environment presents it: the events that
    arrived before its test of [app_exit], and the answer of
    [mqtt_client.is_connected()].  Events are taken to arrive between
    iterations, not in the middle of one. *)
Record Tick : Type := mkTick {
  events : list Async;
  is_connected : bool
}.

(** [a - b] on times: [None] is not a number. *)
Definition time_sub (a : Q) (b : option Q) : result Py.float :=
  match b with
  | Some t => Ok (Py.float_sub a t)
  | None => Raise TypeError
  end.

(** [x >= y] *)
Definition Qge_bool (x y : Q) : bool := Qle_bool y x.

(** [x >= y] for a float [x] and an integer or a double [y] *)
Definition float_ge (x : Py.float) (y : Q) : bool :=
  match x with
  | Py.Finite q => Qge_bool q y
  | Py.Infinity negative => negb negative
  end.

Section Interpreter.

(** The readings of [time()], in the order of the calls. *)
Variable clock : nat -> Q.

Definition time (rt : Runtime) : Q * Runtime :=
  (clock (reads rt),
   mkRuntime (world rt) (app_exit rt) (mqtt_connection_lost rt)
     (time_mqtt_connected rt) (t_wait_start rt) (step rt) (calls rt)
     (S (reads rt))).

(** [cb_mqtt_on_connect], [cb_mqtt_on_disconnect] (the lines written to
    the subscriptions' log files are left out) and
    [system_termination_signal_handler]. *)
Definition handle (e : Async) (rt : Runtime) : Runtime :=
  match e with
  | OnConnect =>
      let '(now, rt) := time rt in
      let rt := set_connected (Some now) rt in
      fold_left
        (fun rt sub =>
           call (Subscribe (ConfigSubscription.topic sub)
                   (ConfigSubscription.qos sub)) rt)
        (subscriptions (config (world rt))) rt
  | OnDisconnect =>
      if mqtt_connection_lost rt then rt else set_connection_lost rt
  | Signal => set_app_exit true rt
  end.

(** The body of the loop of [manage_publish_each_time] for one entry;
    the [logger.info] call of line 260 is left out. *)
Definition publish_each_one (pub_each : ConfigPublishEach.t) (rt : Runtime)
  : result (ConfigPublishEach.t * Runtime) :=
  let pub_each :=
    match ConfigPublishEach.time_last_pub pub_each with
    | None => set_time_last_pub (time_mqtt_connected rt) pub_each
    | Some _ => pub_each
    end in
  let '(now, rt) := time rt in
  elapsed ← time_sub now (ConfigPublishEach.time_last_pub pub_each);
  if float_ge elapsed (inject_Z (ConfigPublishEach.each pub_each)) then
    let rt :=
      call (Publish (ConfigPublishEach.topic pub_each)
              (PStr (ConfigPublishEach.msg pub_each))
              (PInt (ConfigPublishEach.qos pub_each))) rt in
    let '(now, rt) := time rt in
    Ok (set_time_last_pub (Some now) pub_each, rt)
  else Ok (pub_each, rt).

Fixpoint publish_each_loop (todo : list ConfigPublishEach.t) (rt : Runtime)
  : result (list ConfigPublishEach.t * Runtime) :=
  match todo with
  | [] => Ok ([], rt)
  | pub_each :: rest =>
      '(pub_each, rt) ← publish_each_one pub_each rt;
      '(rest, rt) ← publish_each_loop rest rt;
      Ok (pub_each :: rest, rt)
  end.

(** [manage_publish_each_time]: the entries are objects of
    [config.pub_each] and change in place. *)
Definition manage_publish_each_time (rt : Runtime) : result Runtime :=
  '(l, rt) ← publish_each_loop (pub_each (config (world rt))) rt;
  Ok (set_world (on_config (set_pub_each l) (world rt)) rt).

(** The waiting time of a delay step, lines 292-296: the integer of
    the step, its product with 3600, or its float quotient by 1000. *)
Definition wait_t (cmd_arg : Command) : result Q :=
  a0 ← index (args cmd_arg) 0;
  match a0 with
  | PInt n =>
      if (cmd cmd_arg =? "DELAY_MS")%string then
        match Py.true_divide n 1000 with
        | Some d => Ok d
        | None => Raise OverflowError
        end
      else if (cmd cmd_arg =? "DELAY_H")%string then Ok (inject_Z (n * 3600))
      else Ok (inject_Z n)
  | PStr _ => Raise TypeError
  end.

(** [run_step_cmd]: [true] when the step is completed.  The
    [logger.info] calls of lines 278, 286, 299 and 301 are left out. *)
Definition run_step_cmd (cmd_arg : Command) (rt : Runtime)
  : result (bool * Runtime) :=
  if (cmd cmd_arg =? "DISCONNECT")%string then
    Ok (true, set_app_exit true (call Disconnect rt))
  else if (cmd cmd_arg =? "PUB")%string then
    qos ← index (args cmd_arg) 0;
    topic ← index (args cmd_arg) 1;
    msg ← index (args cmd_arg) 2;
    Ok (true, call (Publish topic msg qos) rt)
  else if is_delay (cmd cmd_arg) then
    wait ← wait_t cmd_arg;
    let rt :=
      match t_wait_start rt with
      | None => let '(now, rt) := time rt in set_t_wait_start (Some now) rt
      | Some _ => rt
      end in
    let '(now, rt) := time rt in
    elapsed ← time_sub now (t_wait_start rt);
    if float_ge elapsed wait then Ok (true, set_t_wait_start None rt)
    else Ok (false, rt)
  else Ok (false, rt).

(** The body of [while not app_exit] in [cmdscript_interpreter]. *)
Definition loop_body (t : Tick) (rt : Runtime) : result Runtime :=
  if is_connected t then
    rt ← manage_publish_each_time rt;
    let steps := steps_to_execute (config (world rt)) in
    if step rt <? length steps then
      cmd_arg ← index steps (step rt);
      '(completed, rt) ← run_step_cmd cmd_arg rt;
      if (completed : bool) then Ok (set_step (step rt + 1) rt) else Ok rt
    else Ok rt
  else Ok rt.

(** The events that arrived since the last iteration. *)
Definition arrive (t : Tick) (rt : Runtime) : Runtime :=
  fold_left (fun rt e => handle e rt) (events t) rt.

(** The loop, for as many iterations as [ticks] describes: the state
    with which it is left, or [None] when it is still running after the
    last of them. *)
Fixpoint interpreter_loop (ticks : list Tick) (rt : Runtime)
  : result (option Runtime) :=
  match ticks with
  | [] => Ok None
  | t :: rest =>
      let rt := arrive t rt in
      if app_exit rt then Ok (Some rt)
      else
        rt ← loop_body t rt;
        interpreter_loop rest rt
  end.

(** The states in which the loop condition is evaluated, in order. *)
Fixpoint interpreter_trace (ticks : list Tick) (rt : Runtime) : list Runtime :=
  match ticks with
  | [] => []
  | t :: rest =>
      let rt := arrive t rt in
      rt ::
      (if app_exit rt then []
       else
         match loop_body t rt with
         | Ok rt => interpreter_trace rest rt
         | Raise _ => []
         end)
  end.

(** The state in which [cmdscript_interpreter] enters its loop: [uuid]
    is the identifier drawn when the script names no client. *)
Definition interpreter_entry (uuid : string) (w : World) : Runtime :=
  let w :=
    match client_id (config w) with
    | PStr "" => on_config (set_client_id (PStr ("mqttcmdscript_" ++ uuid))) w
    | _ => w
    end in
  let rt := runtime0 w in
  let rt :=
    call (Connect (mqtt_host (config w)) (mqtt_port (config w))
            (keepalive_s (config w))) rt in
  call LoopForever rt.

(** [cmdscript_interpreter]; the [logger.info] calls of lines 310, 336
    and 341 are left out. *)
Definition cmdscript_interpreter (uuid : string) (ticks : list Tick) (w : World)
  : result (option (Z * Runtime)) :=
  r ← interpreter_loop ticks (interpreter_entry uuid w);
  match r with
  | None => Ok None
  | Some rt => Ok (Some (RC.OK, call LoopStop (call Disconnect rt)))
  end.

End Interpreter.

(** ** [filesrw.file_read_all_text] and [main] *)

(** What the file system answers for a path: no such file, a file
    that cannot be opened or decoded (with the traceback text), or the
    text read. *)
Inductive File : Type :=
| NotFound
| CannotRead (traceback : string)
| Reads (content : string).

(** [file_read_all_text]: the text, or the empty string when there is
    none to deliver; the failures are logged. *)
Definition file_read_all_text (fs : string -> File) (file_path : string)
    (w : World) : string * World :=
  let read := "" in
  match fs file_path with
  | NotFound =>
      (read, emit (mkLog ERROR "File %s not found." [ArgStr file_path]) w)
  | CannotRead traceback =>
      (read,
       emit (mkLog ERROR "Can't open and read file %s." [ArgStr file_path])
         (emit (mkLog ERROR traceback []) w))
  | Reads content => (content, w)
  end.

(** How [main] ends: with a return code, or still inside the interpreter
    when the described iterations are over.  [parsed] tells whether
    [cmdscript_parse] was called; [final] holds the configuration as
    the run leaves it and the log up to the start of the interpreter. *)
Record MainResult : Type := mkMain {
  return_code : option Z;
  parsed : bool;
  final : World
}.

(** [main]: [options_file] is [options.file[0]] as [parse_options]
    delivers it; a run in which the argument parser ends the process is
    not a run of the rest of [main]. *)
Definition main (clock : nat -> Q) (uuid : string) (ticks : list Tick)
    (fs : string -> File) (argc : nat) (options_file : string) (w : World)
  : result MainResult :=
  if argc =? 0 then Ok (mkMain (Some RC.NO_ARGS) false w)
  else
    let path_cmdscript := options_file in
    let '(cmdscript, w) := file_read_all_text fs path_cmdscript w in
    if (cmdscript =? "")%string then Ok (mkMain (Some RC.FAIL) false w)
    else
      w ← cmdscript_parse cmdscript w;
      if invalid (config w) then
        Ok (mkMain (Some RC.FAIL) true
              (emit (mkLog INFO TEXT.INVALID_CMDSCRIPT []) w))
      else
        r ← cmdscript_interpreter clock uuid ticks w;
        match r with
        | None => Ok (mkMain None true w)
        | Some (rc, rt) => Ok (mkMain (Some rc) true (world rt))
        end.

(** ** Script texts and environments of the examples *)

Definition nl : string := String Py.LF EmptyString.

Definition quoted (s : string) : string :=
  String Py.QUOTE (s ++ String Py.QUOTE EmptyString).

Definition pub_upper_line : string := "PUB 0 a/b " ++ quoted "x".
Definition pub_lower_line : string := "pub 0 a/b " ++ quoted "x".

Definition pub_step : Command :=
  {| cmd := "PUB"; args := [PInt 0; PStr "a/b"; PStr "x"] |}.

Definition pub_each_script (interval : string) : string :=
  "CFG_PUB_EACH " ++ interval ++ " 0 a/b " ++ quoted "x" ++ nl.

Definition pub_each_entry (interval : Z) (last : option Q) : ConfigPublishEach.t :=
  ConfigPublishEach.mk interval 0 (PStr "a/b") "x" last.

(** A clock that advances one second per reading, from the time of the
    first. *)
Definition clock_1s (n : nat) : Q := inject_Z (1700000000 + Z.of_nat n).

Definition connect_tick : Tick := mkTick [OnConnect] true.
Definition quiet_tick : Tick := mkTick [] true.

(** ** The grammar of the specification

    The specification's data model and its two grammar tables (sections
    3, 4.2 and 4.3), written from its words, to be compared with what
    the passes do. *)

(** A command as the tokenizer emits it: all arguments are strings. *)
Record RawCommand : Type := mkRaw {
  keyword : string;
  arguments : list string
}.

Definition as_command (r : RawCommand) : Command :=
  {| cmd := keyword r; args := PStr <$> arguments r |}.

Inductive verdict : Type :=
| WellFormed
| MissingArgument
| InvalidArgument.

Definition is_integer (s : string) : bool :=
  match Py.int_of_str s with
  | Some _ => true
  | None => false
  end.

Definition yes_no (s : string) : bool :=
  ((s =? "YES")%string || (s =? "NO")%string)%bool.

(** Starts and ends with a double quote, length at least 3. *)
Definition is_quoted (m : string) : bool :=
  ((3 <=? String.length m)
   && match String.get 0 m with
      | Some c => Ascii.eqb c Py.QUOTE
      | None => false
      end
   && match Py.last_char m with
      | Some c => Ascii.eqb c Py.QUOTE
      | None => false
      end)%bool.

(** The table of section 4.2.  A keyword that is not in the table is
    none of this pass's business. *)
Definition cfg_grammar (r : RawCommand) : verdict :=
  let kw := keyword r in
  let ws := arguments r in
  if (kw =? "CFG_CLIENT_ID")%string then
    match ws with
    | _ :: _ => WellFormed
    | _ => MissingArgument
    end
  else if ((kw =? "CFG_CLEAN_SESSION")%string || (kw =? "CFG_USE_TLS")%string)%bool
  then
    match ws with
    | a :: _ => if yes_no a then WellFormed else InvalidArgument
    | _ => MissingArgument
    end
  else if (kw =? "CFG_KEEPALIVE")%string then
    match ws with
    | a :: _ => if is_integer a then WellFormed else InvalidArgument
    | _ => MissingArgument
    end
  else if ((kw =? "CFG_USER")%string || (kw =? "CFG_TLS_CERT")%string)%bool then
    match ws with
    | _ :: _ :: _ => WellFormed
    | _ => MissingArgument
    end
  else if (kw =? "CFG_PUB_EACH")%string then
    match ws with
    | interval :: qos :: _ :: m :: ms =>
        if (is_integer interval && is_integer qos
            && is_quoted (Py.join " " (m :: ms)))%bool
        then WellFormed else InvalidArgument
    | _ => MissingArgument
    end
  else if (kw =? "SUB")%string then
    match ws with
    | qos :: _ :: _ :: _ => if is_integer qos then WellFormed else InvalidArgument
    | _ => MissingArgument
    end
  else if (kw =? "CONNECT")%string then
    match ws with
    | _ :: port :: _ => if is_integer port then WellFormed else InvalidArgument
    | _ => MissingArgument
    end
  else WellFormed.

(** The list of section 4.3. *)
Definition step_grammar (r : RawCommand) : verdict :=
  let kw := keyword r in
  let ws := arguments r in
  if (kw =? "PUB")%string then
    match ws with
    | qos :: _ :: m :: ms =>
        if (is_integer qos && is_quoted (Py.join " " (m :: ms)))%bool
        then WellFormed else InvalidArgument
    | _ => MissingArgument
    end
  else if is_delay kw then
    match ws with
    | n :: _ => if is_integer n then WellFormed else InvalidArgument
    | _ => MissingArgument
    end
  else WellFormed.

Definition violates (g : RawCommand -> verdict) (r : RawCommand) : bool :=
  match g r with
  | WellFormed => false
  | _ => true
  end.

(** The error record of a violation. *)
Definition error_of (g : RawCommand -> verdict) (r : RawCommand) : LogRecord :=
  match g r with
  | InvalidArgument => err_invalid (as_command r)
  | _ => err_missing (as_command r)
  end.

(** The step a command compiles to, none for a configuration keyword or
    a violation. *)
Definition int_or_zero (s : string) : Z :=
  match Py.int_of_str s with
  | Some z => z
  | None => 0%Z
  end.

Definition compiled (r : RawCommand) : option Command :=
  let kw := keyword r in
  let ws := arguments r in
  match step_grammar r with
  | WellFormed =>
      if (kw =? "DISCONNECT")%string then Some (as_command r)
      else if (kw =? "PUB")%string then
        match ws with
        | qos :: topic :: ms =>
            Some {| cmd := kw;
                    args := [PInt (int_or_zero qos); PStr topic;
                             PStr (Py.strip_ends (Py.join " " ms))] |}
        | _ => None
        end
      else if is_delay kw then
        match ws with
        | n :: rest =>
            Some {| cmd := kw; args := PInt (int_or_zero n) :: (PStr <$> rest) |}
        | _ => None
        end
      else None
  | _ => None
  end.

(** The command object after the step pass: rewritten when it compiles
    to a publish or delay step, as it was otherwise. *)
Definition rewritten (r : RawCommand) : Command :=
  match compiled r with
  | Some c => c
  | None => as_command r
  end.

(** The commands before the first violation of a grammar, and that
    violation. *)
Fixpoint sound_prefix (g : RawCommand -> verdict) (rs : list RawCommand)
  : list RawCommand :=
  match rs with
  | [] => []
  | r :: rs' => if violates g r then [] else r :: sound_prefix g rs'
  end.

Definition first_violation (g : RawCommand -> verdict) (rs : list RawCommand)
  : option RawCommand :=
  List.find (violates g) rs.

(** The world after the step pass has gone through the well-formed
    commands [rs], which follow [done] in [config.commands]. *)
Definition after_steps (done : list Command) (rs : list RawCommand)
    (rest : list Command) (w : World) : World :=
  on_config
    (fun c =>
       set_steps_to_execute (steps_to_execute c ++ omap compiled rs)
         (set_commands (done ++ (rewritten <$> rs) ++ rest) c)) w.

(** The error exit for the first violation, if there is one. *)
Definition flagged (g : RawCommand -> verdict) (v : option RawCommand)
    (w : World) : World :=
  match v with
  | Some r => on_config (set_invalid true) (emit (error_of g r) w)
  | None => w
  end.

(** Worlds whose command list is a given list of raw commands. *)
Definition world_of (rs : list RawCommand) : World :=
  on_config (set_commands (as_command <$> rs)) world0.

Definition raw_delay (kw n : string) : RawCommand := mkRaw kw [n].

(** The periodic-publish entry of a well-formed [CFG_PUB_EACH] command,
    none for any other command. *)
Definition periodic (r : RawCommand) : option ConfigPublishEach.t :=
  if (keyword r =? "CFG_PUB_EACH")%string then
    match cfg_grammar r, arguments r with
    | WellFormed, interval :: qos :: topic :: ms =>
        Some (ConfigPublishEach.mk (int_or_zero interval) (int_or_zero qos)
                (PStr topic) (Py.strip_ends (Py.join " " ms))
                ConfigPublishEach.class_time_last_pub)
    | _, _ => None
    end
  else None.

Definition raw_pub_each (interval : string) : RawCommand :=
  mkRaw "CFG_PUB_EACH" [interval; "0"; "a/b"; quoted "x"].

Definition pub_upper_script : string := pub_upper_line ++ nl.
Definition pub_lower_script : string := pub_lower_line ++ nl.
Definition connect_script : string := "CONNECT h 1883" ++ nl.

(** The compiled step list of a running interpreter. *)
Definition steps_of (rt : Runtime) : list Command :=
  steps_to_execute (config (world rt)).

(** The script of section 8 of the specification and a run of it. *)
Definition scenario_script : string :=
  "CONNECT test.broker 1883" ++ nl ++ "SUB 0 a/b log.txt" ++ nl
  ++ "PUB 0 a/b " ++ quoted "hello" ++ nl ++ "DELAY 1" ++ nl ++ "DISCONNECT".

Definition scenario_steps : list Command :=
  [ {| cmd := "PUB"; args := [PInt 0; PStr "a/b"; PStr "hello"] |};
    {| cmd := "DELAY"; args := [PInt 1] |};
    {| cmd := "DISCONNECT"; args := [] |} ].

Definition scenario_world : World :=
  on_config (set_steps_to_execute scenario_steps) world0.

Definition scenario_calls : list MqttCall :=
  [ Connect (PStr "test.broker") 1883 60; LoopForever; Subscribe (PStr "a/b") 0;
    Publish (PStr "a/b") (PStr "hello") (PInt 0); Disconnect; Disconnect;
    LoopStop ].

Definition scenario_ticks : list Tick :=
  [connect_tick; quiet_tick; quiet_tick; quiet_tick; quiet_tick; quiet_tick].

(** ** The tokenizer, line by line *)

(** The test of line 364. *)
Definition blank_or_comment (line : string) : bool :=
  ((String.length line =? 0)
   || match String.get 0 line with
      | Some c => Ascii.eqb c Py.HASH
      | None => false
      end)%bool.

(** What the first loop decides for the lines it examines, the first of
    them at index [k]: the indices to remove, the lines that stay and
    the warnings. *)
Fixpoint examine (k : nat) (lines : list string)
  : result (list nat * list string * list LogRecord) :=
  match lines with
  | [] => Ok ([], [], [])
  | line :: rest =>
      if blank_or_comment line then
        '(idx, ks, ws) ← examine (S k) rest;
        Ok (k :: idx, ks, ws)
      else
        first ← index (Py.split_ws line) 0;
        '(idx, ks, ws) ← examine (S k) rest;
        if negb (str_in first CONST.CMDSCRIPT_COMMANDS)
        then Ok (k :: idx, ks, warn_unexpected line :: ws)
        else Ok (idx, line :: ks, ws)
  end.

(** A line whose first token, as written, is no supported keyword. *)
Definition unknown_keyword (line : string) : bool :=
  (negb (blank_or_comment line)
   && match Py.split_ws line with
      | first :: _ => negb (str_in first CONST.CMDSCRIPT_COMMANDS)
      | [] => false
      end)%bool.

(** A line that the first loop lets stand. *)
Definition stays (line : string) : bool :=
  (negb (blank_or_comment line) && negb (unknown_keyword line))%bool.

Definition emit_all (rs : list LogRecord) (w : World) : World :=
  {| config := config w; records := records w ++ rs |}.

(** The command of a line: the first token cut at single spaces, in
    upper case, and the other tokens. *)
Definition raw_of_line (line : string) : RawCommand :=
  match Py.split Py.SP line with
  | first :: rest => mkRaw (Py.upper first) rest
  | [] => mkRaw "" []
  end.

Definition append_commands (l : list Command) (w : World) : World :=
  on_config (fun c => set_commands (commands c ++ l) c) w.

(** A line of non-empty tokens separated by single spaces, with no
    other whitespace in it.  [after_space] tells that a token must
    start here. *)
Fixpoint spaced (after_space : bool) (s : string) : bool :=
  match s with
  | EmptyString => negb after_space
  | String c s' =>
      if Ascii.eqb c Py.SP then (negb after_space && spaced true s')%bool
      else (negb (Py.isspace c) && spaced false s')%bool
  end.

Definition well_spaced (line : string) : bool := spaced true line.

Definition has_space (s : string) : bool :=
  existsb (Ascii.eqb Py.SP) (list_ascii_of_string s).

Definition two_spaces_line : string := "PUB  0 a/b " ++ quoted "x".
Definition tab_line : string := "PUB" ++ String "009" "0 a/b " ++ quoted "x".

Definition tab_keyword : string := "PUB" ++ String "009" "0".

(** ** The scalar settings *)

(** The fields of [config] that hold one value each. *)
Record Scalars : Type := mkScalars {
  the_host : pyval;
  the_port : Z;
  the_clean_session : bool;
  the_keepalive : Z;
  the_client_id : pyval;
  the_username : pyval;
  the_password : pyval;
  the_use_tls : bool;
  the_tls_cert : pyval;
  the_tls_key : pyval
}.

Definition scalars (c : Configuration) : Scalars :=
  mkScalars (mqtt_host c) (mqtt_port c) (clean_session c) (keepalive_s c)
    (client_id c) (username c) (password c) (use_tls c) (tls_cert c) (tls_key c).

(** The values a command assigns: none where it leaves a field alone. *)
Record Updates : Type := mkUpdates {
  new_host : option pyval;
  new_port : option Z;
  new_clean_session : option bool;
  new_keepalive : option Z;
  new_client_id : option pyval;
  new_username : option pyval;
  new_password : option pyval;
  new_use_tls : option bool;
  new_tls_cert : option pyval;
  new_tls_key : option pyval
}.

Definition no_update : Updates :=
  mkUpdates None None None None None None None None None None.

Definition override (u : Updates) (s : Scalars) : Scalars :=
  mkScalars (default (the_host s) (new_host u))
    (default (the_port s) (new_port u))
    (default (the_clean_session s) (new_clean_session u))
    (default (the_keepalive s) (new_keepalive u))
    (default (the_client_id s) (new_client_id u))
    (default (the_username s) (new_username u))
    (default (the_password s) (new_password u))
    (default (the_use_tls s) (new_use_tls u))
    (default (the_tls_cert s) (new_tls_cert u))
    (default (the_tls_key s) (new_tls_key u)).

(** The later assignment wins. *)
Definition or_else {A : Type} (later earlier : option A) : option A :=
  match later with
  | Some x => Some x
  | None => earlier
  end.

Definition merge (later earlier : Updates) : Updates :=
  mkUpdates (or_else (new_host later) (new_host earlier))
    (or_else (new_port later) (new_port earlier))
    (or_else (new_clean_session later) (new_clean_session earlier))
    (or_else (new_keepalive later) (new_keepalive earlier))
    (or_else (new_client_id later) (new_client_id earlier))
    (or_else (new_username later) (new_username earlier))
    (or_else (new_password later) (new_password earlier))
    (or_else (new_use_tls later) (new_use_tls earlier))
    (or_else (new_tls_cert later) (new_tls_cert earlier))
    (or_else (new_tls_key later) (new_tls_key earlier)).

(** What a command of the table of section 4.2 sets. *)
Definition updates (r : RawCommand) : Updates :=
  let kw := keyword r in
  match cfg_grammar r, arguments r with
  | WellFormed, a :: rest =>
      if (kw =? "CFG_CLIENT_ID")%string then
        mkUpdates None None None None (Some (PStr a)) None None None None None
      else if (kw =? "CFG_CLEAN_SESSION")%string then
        mkUpdates None None (Some (a =? "YES")%string) None None None None None
          None None
      else if (kw =? "CFG_KEEPALIVE")%string then
        mkUpdates None None None (Some (int_or_zero a)) None None None None
          None None
      else if (kw =? "CFG_USE_TLS")%string then
        mkUpdates None None None None None None None (Some (a =? "YES")%string)
          None None
      else
        match rest with
        | b :: _ =>
            if (kw =? "CFG_USER")%string then
              mkUpdates None None None None None (Some (PStr a)) (Some (PStr b))
                None None None
            else if (kw =? "CFG_TLS_CERT")%string then
              mkUpdates None None None None None None None None (Some (PStr a))
                (Some (PStr b))
            else if (kw =? "CONNECT")%string then
              mkUpdates (Some (PStr a)) (Some (int_or_zero b)) None None None
                None None None None None
            else no_update
        | [] => no_update
        end
  | _, _ => no_update
  end.

Definition settle (rs : list RawCommand) (s : Scalars) : Scalars :=
  fold_left (fun s r => override (updates r) s) rs s.

(** The subscription of a well-formed [SUB] command. *)
Definition subscription (r : RawCommand) : option ConfigSubscription.t :=
  if (keyword r =? "SUB")%string then
    match cfg_grammar r, arguments r with
    | WellFormed, qos :: topic :: logfile :: _ =>
        Some (ConfigSubscription.mk (int_or_zero qos) (PStr topic) (PStr logfile))
    | _, _ => None
    end
  else None.

Definition sub_script : string := "SUB 0 a b" ++ nl.
Definition delay_script : string := "DELAY 1" ++ nl.

(** The raw commands of a script text: those of the examined lines that
    stay, then that of the last line. *)
Definition script_commands (text : string) : result (list RawCommand) :=
  let lines := Py.split Py.LF (Py.replace_crlf text) in
  '(_, ks, _) ← examine 0 (removelast lines);
  Ok (raw_of_line <$> (ks ++ [List.last lines EmptyString])%list).

(** ** What one iteration of a pass does to the world *)

(** The step pass on a well-formed command at index [i]: the compiled
    step is appended, and stored back when it was rewritten. *)
Definition step_effect (i : nat) (r : RawCommand) (w : World) : World :=
  match compiled r with
  | Some c =>
      if (keyword r =? "DISCONNECT")%string then append_step c w
      else append_step c (store i c w)
  | None => w
  end.

(** What the configuration pass leaves alone on a well-formed command. *)
Definition keeps (w w' : World) : Prop :=
  records w' = records w
  /\ invalid (config w') = invalid (config w)
  /\ commands (config w') = commands (config w)
  /\ steps_to_execute (config w') = steps_to_execute (config w).

(** ** Timestamps ([get_timestamp]) *)

(** The fields of a [datetime] object. *)
Module Datetime.
Record t : Type := mk {
  year : nat;
  month : nat;
  day : nat;
  hour : nat;
  minute : nat;
  second : nat;
  microsecond : nat
}.

(** The ranges of the fields of a time that the clock delivers: years
    of four digits, less than a thousand milliseconds. *)
Definition valid (d : t) : bool :=
  ((1000 <=? year d) && (year d / 100 <? 100) && (1 <=? month d) && (month d <=? 12)
   && (1 <=? day d) && (day d <=? 31) && (hour d <? 24) && (minute d <? 60)
   && (second d <? 60) && (microsecond d / 1000 <? 1000))%bool.

(** The fields that name a millisecond. *)
Definition to_millisecond (d : t) : list nat :=
  [year d; month d; day d; hour d; minute d; second d; microsecond d / 1000].
End Datetime.

Definition digit_char (n : nat) : ascii := ascii_of_nat (48 + n mod 10).

(** A number below [10 ^ width] in [width] decimal digits, as [%Y] (four
    digits), [%m], [%d], [%H], [%M], [%S] (two) and [%f] (six) print the
    fields of a [datetime]. *)
Fixpoint zero_padded (width n : nat) : string :=
  match width with
  | 0 => EmptyString
  | S width' => zero_padded width' (n / 10) ++ String (digit_char n) EmptyString
  end.

(** [tobj.strftime(fmt)] for the two formats of [get_timestamp]; the
    first is the format with its leading bracket. *)
Definition strftime_to_seconds (tobj : Datetime.t) : string :=
  "[" ++ zero_padded 4 (Datetime.year tobj)
  ++ "-" ++ zero_padded 2 (Datetime.month tobj)
  ++ "-" ++ zero_padded 2 (Datetime.day tobj)
  ++ "_" ++ zero_padded 2 (Datetime.hour tobj)
  ++ ":" ++ zero_padded 2 (Datetime.minute tobj)
  ++ ":" ++ zero_padded 2 (Datetime.second tobj).

Definition strftime_f (tobj : Datetime.t) : string :=
  zero_padded 6 (Datetime.microsecond tobj).

(** [get_timestamp], for the time [tobj] that [datetime.utcnow()]
    delivers. *)
Definition get_timestamp (tobj : Datetime.t) : string :=
  "[" ++ strftime_to_seconds tobj ++ "." ++ substring 0 3 (strftime_f tobj)
  ++ "]".

(** ** The broker callbacks and the subscriptions' log files *)

(** A call [file_write_text_line(file_path, text)] of [filesrw.py], by
    what it hands to the file opened for appending: [text] and a line
    feed.  The function catches what the file system raises, so a call
    always returns; the calls are recorded in order. *)
Record LineWrite : Type := mkWrite {
  file_path : pyval;
  appended : string
}.

(** A received message: its topic and [msg.payload.decode("utf-8")],
    none when the bytes are no UTF-8 text. *)
Record Message : Type := mkMessage {
  msg_topic : string;
  payload : option string
}.

(** The state the callbacks work on: the module globals, the lines
    written so far and the number of calls of [datetime.utcnow()]. *)
Record Session : Type := mkSession {
  runtime : Runtime;
  line_writes : list LineWrite;
  stamps : nat
}.

(** [sub.topic == msg.topic] *)
Definition py_eq_str (v : pyval) (s : string) : bool :=
  match v with
  | PStr t => (t =? s)%string
  | PInt _ => false
  end.

Definition file_write_text_line (file_path : pyval) (text : string)
    (s : Session) : Session :=
  mkSession (runtime s)
    (line_writes s ++ [mkWrite file_path (text ++ String Py.LF EmptyString)])
    (stamps s).

Section Callbacks.

Variable clock : nat -> Q.

(** The readings of [datetime.utcnow()], in the order of the calls. *)
Variable utcnow : nat -> Datetime.t.

Definition timestamp_now (s : Session) : string * Session :=
  (get_timestamp (utcnow (stamps s)),
   mkSession (runtime s) (line_writes s) (S (stamps s))).

(** [for sub in config.subscriptions: file_write_text_line(sub.logfile,
    to_write)] *)
Definition write_to_logfiles (to_write : string) (s : Session) : Session :=
  fold_left
    (fun s sub => file_write_text_line (ConfigSubscription.logfile sub) to_write s)
    (subscriptions (config (world (runtime s)))) s.

Definition cb_mqtt_on_connect (s : Session) : Session :=
  let '(timestamp, s) := timestamp_now s in
  let to_write := timestamp ++ " -- MQTT Connected --" in
  let to_write :=
    if mqtt_connection_lost (runtime s)
    then timestamp ++ " -- MQTT Connected (Communication Restored) --"
    else to_write in
  let s := write_to_logfiles to_write s in
  let '(now, rt) := time clock (runtime s) in
  let rt := set_connected (Some now) rt in
  let rt :=
    fold_left
      (fun rt sub =>
         call (Subscribe (ConfigSubscription.topic sub)
                 (ConfigSubscription.qos sub)) rt)
      (subscriptions (config (world rt))) rt in
  mkSession rt (line_writes s) (stamps s).

Definition cb_mqtt_on_disconnect (reason_code : Z) (s : Session) : Session :=
  if negb (mqtt_connection_lost (runtime s)) then
    let s :=
      mkSession (set_connection_lost (runtime s)) (line_writes s) (stamps s) in
    if negb (reason_code =? 0)%Z then
      let '(timestamp, s) := timestamp_now s in
      let to_write := timestamp ++ " -- MQTT Communication Lost --" in
      write_to_logfiles to_write s
    else s
  else s.

(** [cb_mqtt_on_msg_rx]: decoding raises [UnicodeDecodeError], a
    [ValueError], on bytes that are no UTF-8 text. *)
Definition cb_mqtt_on_msg_rx (msg : Message) (s : Session) : result Session :=
  match payload msg with
  | None => Raise ValueError
  | Some payload_str =>
      Ok (fold_left
            (fun s sub =>
               if py_eq_str (ConfigSubscription.topic sub) (msg_topic msg) then
                 let '(timestamp, s) := timestamp_now s in
                 let to_write :=
                   timestamp ++ " [" ++ msg_topic msg ++ "] " ++ payload_str in
                 file_write_text_line (ConfigSubscription.logfile sub) to_write s
               else s)
            (subscriptions (config (world (runtime s)))) s)
  end.

End Callbacks.

(** ** Further notions used in the properties *)

(** A line of whitespace only that is neither empty nor a comment. *)
Definition whitespace_only (line : string) : bool :=
  (negb (blank_or_comment line)
   && match Py.split_ws line with
      | [] => true
      | _ :: _ => false
      end)%bool.

(** The text with every line feed written as carriage return and line
    feed. *)
Fixpoint to_dos (s : string) : string :=
  match s with
  | EmptyString => EmptyString
  | String c s' =>
      if Ascii.eqb c Py.LF then String Py.CR (String Py.LF (to_dos s'))
      else String c (to_dos s')
  end.

Definition is_error (r : LogRecord) : bool :=
  match level r with
  | ERROR => true
  | _ => false
  end.

(** The argument lists that [run_step_cmd] can work on. *)
Definition runnable (c : Command) : bool :=
  if (cmd c =? "DISCONNECT")%string then true
  else if (cmd c =? "PUB")%string then 3 <=? length (args c)
  else if is_delay (cmd c) then
    match args c with
    | PInt _ :: _ => true
    | _ => false
    end
  else true.

(** The steps that the step pass appends: a [DISCONNECT] with the
    arguments as written, a [PUB] with an integer, a topic and a
    message, a delay with an integer and then what was written. *)
Definition is_str (v : pyval) : bool :=
  match v with
  | PStr _ => true
  | PInt _ => false
  end.

Definition step_shape (c : Command) : bool :=
  if (cmd c =? "DISCONNECT")%string then forallb is_str (args c)
  else if (cmd c =? "PUB")%string then
    match args c with
    | [PInt _; PStr _; PStr _] => true
    | _ => false
    end
  else if is_delay (cmd c) then
    match args c with
    | PInt _ :: rest => forallb is_str rest
    | _ => false
    end
  else false.

(** A [DELAY_MS] step whose quotient by 1000 is beyond the range of
    the floats. *)
Definition beyond_float_range (c : Command) : bool :=
  ((cmd c =? "DELAY_MS")%string
   && match args c with
      | PInt n :: _ =>
          match Py.true_divide n 1000 with
          | Some _ => false
          | None => true
          end
      | _ => false
      end)%bool.

(** An entry of [config.pub_each] without its time of last publish. *)
Definition what_to_publish (p : ConfigPublishEach.t) : Z * Z * pyval * string :=
  (ConfigPublishEach.each p, ConfigPublishEach.qos p, ConfigPublishEach.topic p,
   ConfigPublishEach.msg p).

(** The broker calls of an entry and of a subscription. *)
Definition publish_of (p : ConfigPublishEach.t) : MqttCall :=
  Publish (ConfigPublishEach.topic p) (PStr (ConfigPublishEach.msg p))
    (PInt (ConfigPublishEach.qos p)).

Definition subscribe_of (sub : ConfigSubscription.t) : MqttCall :=
  Subscribe (ConfigSubscription.topic sub) (ConfigSubscription.qos sub).

(** The subscriptions whose log file receives a message of a topic. *)
Definition logged_for (topic : string) (subs : list ConfigSubscription.t)
  : list ConfigSubscription.t :=
  List.filter (fun sub => py_eq_str (ConfigSubscription.topic sub) topic) subs.

(** The line of a received message in a log file, and the line of a
    change of the connection. *)
Definition message_line (tobj : Datetime.t) (topic payload_str : string)
  : string :=
  (get_timestamp tobj ++ " [" ++ topic ++ "] " ++ payload_str)
  ++ String Py.LF EmptyString.

Definition status_line (tobj : Datetime.t) (status : string) : string :=
  (get_timestamp tobj ++ status) ++ String Py.LF EmptyString.

(** The same line in the log file of each subscription, in their
    order. *)
Definition in_each_logfile (subs : list ConfigSubscription.t) (line : string)
  : list LineWrite :=
  (fun sub => mkWrite (ConfigSubscription.logfile sub) line) <$> subs.

Definition has_signal (t : Tick) : bool :=
  existsb (fun e => match e with Signal => true | _ => false end) (events t).

(** The text of a publish line. *)
Definition pub_line (q topic m : string) : string :=
  "PUB " ++ q ++ " " ++ topic ++ " " ++ quoted m.

(** The start of a wait is held only while the current step is a delay
    step. *)
Definition waits_on_a_delay (rt : Runtime) : Prop :=
  t_wait_start rt = None
  \/ exists c, steps_of rt !! step rt = Some c /\ is_delay (cmd c) = true.

(** A run of three steps with a delay in the middle, on a clock that
    advances one second per reading. *)
Definition delay_world : World :=
  on_config
    (set_steps_to_execute
       [pub_step; {| cmd := "DELAY"; args := [PInt 3] |};
        {| cmd := "DISCONNECT"; args := [] |}]) world0.

(** Two periodic entries of ten seconds, the second published at the
    first reading of the clock. *)
Definition sweep_world : World :=
  on_config
    (set_pub_each
       [pub_each_entry 10 (Some 0%Q); pub_each_entry 10 (Some (clock_1s 0))])
    world0.

(** A session with two subscriptions, one of them to a wildcard. *)
Definition session_subscriptions : list ConfigSubscription.t :=
  [ConfigSubscription.mk 0 (PStr "a/#") (PStr "all.log");
   ConfigSubscription.mk 1 (PStr "a/b") (PStr "b.log")].

Definition session0 : Session :=
  mkSession
    (runtime0 (on_config (set_subscriptions session_subscriptions) world0)) [] 0.

Definition utc_example (n : nat) : Datetime.t :=
  Datetime.mk 2024 2 18 9 5 (n mod 60) 1999.

(** A script with a comment, an unknown keyword and an empty line
    before its two steps. *)
Definition filter_script : string :=
  "# publish once" ++ nl ++ "foo 1" ++ nl ++ nl ++ pub_upper_line ++ nl
  ++ "DELAY 1".

(** A publish step as the step pass leaves it, and the call that runs
    it. *)
Definition publish_step (p : pyval * pyval * pyval) : Command :=
  let '(qos, topic, msg) := p in {| cmd := "PUB"; args := [qos; topic; msg] |}.

Definition published (p : pyval * pyval * pyval) : MqttCall :=
  let '(qos, topic, msg) := p in Publish topic msg qos.

(** A delay of [10 ^ 312] milliseconds. *)
Fixpoint zeros (n : nat) : string :=
  match n with
  | 0 => EmptyString
  | S n' => String "0" (zeros n')
  end.

Definition huge_delay_script : string := "DELAY_MS 1" ++ zeros 312.


(** A clock that reads [0.0] and from then on the float [0.3]. *)
Definition clock_0_3 (n : nat) : Q :=
  match n with
  | O => 0%Q
  | S _ => default 0%Q (Py.true_divide 3 10)
  end.
(** * Properties *)

Local Open Scope list_scope.

(** ** Proof steps *)

(** A case on whether a keyword is a given one. *)
Ltac keyword_case kw K :=
  destruct (String.eqb_spec kw K) as [-> | ?].

(** Closes the goals that remain once a branch of a pass is chosen. *)
Ltac settled :=
  first [ reflexivity
        | eexists; split; [reflexivity | repeat split; cbn; rewrite ?app_nil_r; reflexivity] ].

(** Takes a pass apart along its tests, down to what it returns. *)
Ltac branches :=
  unfold mbind, result_bind;
  repeat case_match;
  let Hres := fresh "Hres" in
  intros Hres; inversion Hres; subst; clear Hres.

(** ** Raw commands in the two passes *)

Lemma all_str_raw (ws : list string) : all_str (PStr <$> ws) = Ok ws.
Proof.
  induction ws as [| s ws IH]; [reflexivity |].
  cbn. rewrite IH. reflexivity.
Qed.

Lemma py_join_raw (sep : string) (ws : list string) :
  py_join sep (PStr <$> ws) = Ok (Py.join sep ws).
Proof. unfold py_join. rewrite all_str_raw. reflexivity. Qed.

Lemma not_quoted_is_quoted (m : string) : not_quoted m = negb (is_quoted m).
Proof.
  unfold not_quoted, is_quoted.
  rewrite !negb_andb. rewrite Nat.ltb_antisym. reflexivity.
Qed.

Lemma is_int_raw (s : string) : is_int (PStr s) = Ok (is_integer s).
Proof. unfold is_int, is_integer. destruct (Py.int_of_str s); reflexivity. Qed.

Lemma py_int_raw (s : string) :
  is_integer s = true -> py_int (PStr s) = Ok (int_or_zero s).
Proof.
  unfold is_integer, py_int, int_or_zero.
  destruct (Py.int_of_str s); [reflexivity | discriminate].
Qed.
(** The body of the step loop against the list of section 4.3. *)
Lemma step_one_raw (i : nat) (r : RawCommand) (w : World) :
  step_one i (as_command r) w =
  match step_grammar r with
  | WellFormed => Ok (Next, step_effect i r w)
  | _ => Ok (Break, flagged step_grammar (Some r) w)
  end.
Proof.
  destruct r as [kw ws].
  unfold step_effect, compiled, flagged, error_of, step_grammar, step_one,
    as_command.
  cbn [cmd args keyword arguments].
  keyword_case kw "DISCONNECT"; [reflexivity |].
  keyword_case kw "PUB".
  { destruct ws as [| a [| t [| m ms]]]; try reflexivity.
    cbn -[is_int py_int py_join not_quoted is_quoted Py.join Py.strip_ends].
    rewrite is_int_raw.
    destruct (is_integer a) eqn:Ha;
      cbn -[is_int py_int py_join not_quoted is_quoted Py.join Py.strip_ends];
      [| reflexivity].
    change (PStr m :: (PStr <$> ms)) with (PStr <$> (m :: ms)).
    rewrite py_join_raw.
    cbn -[is_int py_int py_join not_quoted is_quoted Py.join Py.strip_ends].
    rewrite not_quoted_is_quoted.
    destruct (is_quoted (Py.join " " (m :: ms)));
      cbn -[is_int py_int py_join not_quoted is_quoted Py.join Py.strip_ends];
      [| reflexivity].
    rewrite (py_int_raw _ Ha). reflexivity. }
  destruct (is_delay kw) eqn:Hd; [| reflexivity].
  destruct ws as [| a ws]; [reflexivity |].
  cbn -[is_int py_int]. rewrite is_int_raw.
  destruct (is_integer a) eqn:Ha; cbn -[py_int]; [| reflexivity].
  rewrite (py_int_raw _ Ha). reflexivity.
Qed.

Lemma insert_middle {A : Type} (l1 l2 : list A) (x y : A) :
  <[length l1 := y]> (l1 ++ x :: l2) = l1 ++ y :: l2.
Proof.
  replace (length l1) with (length l1 + 0) by lia.
  rewrite insert_app_r. reflexivity.
Qed.

Lemma rewritten_disconnect (r : RawCommand) :
  keyword r = "DISCONNECT" -> compiled r = Some (as_command r).
Proof.
  destruct r as [kw ws]. cbn. intros ->. reflexivity.
Qed.

Lemma step_effect_commands (done rest : list Command) (r : RawCommand) (w : World) :
  commands (config w) = done ++ as_command r :: rest ->
  commands (config (step_effect (length done) r w)) = done ++ rewritten r :: rest.
Proof.
  intros Hc. unfold step_effect, rewritten.
  destruct (compiled r) as [c |] eqn:Hcomp; [| exact Hc].
  destruct (String.eqb_spec (keyword r) "DISCONNECT") as [E | _].
  - rewrite (rewritten_disconnect r E) in Hcomp. injection Hcomp as <-. exact Hc.
  - cbn. rewrite Hc. apply insert_middle.
Qed.

Lemma step_effect_steps (i : nat) (r : RawCommand) (w : World) :
  steps_to_execute (config (step_effect i r w))
  = steps_to_execute (config w) ++ omap compiled [r].
Proof.
  unfold step_effect. cbn.
  destruct (compiled r) as [c |]; cbn.
  - destruct (keyword r =? "DISCONNECT")%string; reflexivity.
  - rewrite app_nil_r. reflexivity.
Qed.

Lemma step_effect_rest (i : nat) (r : RawCommand) (w : World) :
  records (step_effect i r w) = records w
  /\ invalid (config (step_effect i r w)) = invalid (config w)
  /\ pub_each (config (step_effect i r w)) = pub_each (config w)
  /\ subscriptions (config (step_effect i r w)) = subscriptions (config w).
Proof.
  unfold step_effect.
  destruct (compiled r) as [c |]; [| repeat split].
  destruct (keyword r =? "DISCONNECT")%string; repeat split.
Qed.

Lemma after_steps_nil (done rest : list Command) (w : World) :
  commands (config w) = done ++ rest ->
  after_steps done [] rest w = w.
Proof.
  destruct w as [c recs]. destruct c. cbn. intros ->.
  unfold after_steps, on_config, set_steps_to_execute, set_commands. cbn.
  rewrite app_nil_r. reflexivity.
Qed.

Lemma after_steps_cons (done rest : list Command) (r : RawCommand)
    (rs : list RawCommand) (w : World) :
  commands (config w) = done ++ as_command r :: (as_command <$> rs) ++ rest ->
  after_steps (done ++ [rewritten r]) rs rest (step_effect (length done) r w)
  = after_steps done (r :: rs) rest w.
Proof.
  intros Hc.
  unfold after_steps, on_config. f_equal.
  - unfold set_steps_to_execute, set_commands.
    cbn [invalid commands mqtt_host mqtt_port clean_session keepalive_s
         client_id username password use_tls tls_cert tls_key subscriptions
         pub_each steps_to_execute].
    rewrite step_effect_steps.
    unfold step_effect.
    destruct (compiled r) as [c |] eqn:Hcomp; cbn -[compiled rewritten];
      [ destruct (keyword r =? "DISCONNECT")%string; cbn -[compiled rewritten] |];
      rewrite ?Hcomp, ?app_nil_r, <- ?app_assoc; reflexivity.
  - apply step_effect_rest.
Qed.

(** The step loop goes through well-formed commands one by one. *)
Lemma steps_loop_sound (rs : list RawCommand) :
  forall (done rest : list Command) (w : World) (n : nat),
    commands (config w) = done ++ (as_command <$> rs) ++ rest ->
    Forall (fun r => violates step_grammar r = false) rs ->
    steps_loop (length rs + n) (length done) w
    = steps_loop n (length done + length rs) (after_steps done rs rest w).
Proof.
  induction rs as [| r rs IH]; intros done rest w n Hc Hok.
  - cbn [length]. rewrite Nat.add_0_r. rewrite after_steps_nil; [reflexivity | exact Hc].
  - inversion Hok as [| ? ? Hr Hrs]; subst.
    cbn [length Nat.add steps_loop].
    rewrite Hc. cbn [fmap list_fmap app].
    rewrite list_lookup_middle by reflexivity.
    change (PStr <$> arguments r) with (args (as_command r)).
    rewrite step_one_raw.
    unfold violates in Hr. destruct (step_grammar r); try discriminate.
    cbn [mbind result_bind].
    specialize (IH (done ++ [rewritten r]) rest (step_effect (length done) r w) n).
    rewrite length_app in IH. cbn [length] in IH.
    replace (length done + S (length rs)) with (length done + 1 + length rs) by lia.
    replace (S (length done)) with (length done + 1) by lia.
    rewrite IH; [| | exact Hrs].
    + rewrite after_steps_cons; [reflexivity | exact Hc].
    + rewrite (step_effect_commands done ((as_command <$> rs) ++ rest)) by exact Hc.
      rewrite <- app_assoc. reflexivity.
Qed.

(** Splitting a list at the first violation. *)
Lemma sound_prefix_split (g : RawCommand -> verdict) (rs : list RawCommand) :
  Forall (fun r => violates g r = false) (sound_prefix g rs)
  /\ ((first_violation g rs = None /\ rs = sound_prefix g rs)
      \/ exists v post,
           first_violation g rs = Some v
           /\ violates g v = true
           /\ rs = sound_prefix g rs ++ v :: post).
Proof.
  unfold first_violation.
  induction rs as [| r rs [IHa IHb]]; cbn.
  - split; [constructor | left; split; reflexivity].
  - destruct (violates g r) eqn:Hr.
    + split; [constructor |]. right. exists r, rs. repeat split. exact Hr.
    + split; [constructor; assumption |].
      destruct IHb as [[Hn Heq] | (v & post & Hv & Hviol & Heq)].
      * left. split; [exact Hn | f_equal; exact Heq].
      * right. exists v, post.
        split; [exact Hv | split; [exact Hviol | cbn; f_equal; exact Heq]].
Qed.

Lemma sound_prefix_app (g : RawCommand -> verdict) (pre : list RawCommand)
    (v : RawCommand) (post : list RawCommand) :
  Forall (fun r => violates g r = false) pre ->
  violates g v = true ->
  sound_prefix g (pre ++ v :: post) = pre
  /\ first_violation g (pre ++ v :: post) = Some v.
Proof.
  unfold first_violation.
  induction pre as [| r pre IH]; intros Hpre Hv; cbn.
  - rewrite Hv. split; reflexivity.
  - inversion Hpre as [| ? ? Hr Hrest]; subst. rewrite Hr.
    destruct (IH Hrest Hv) as [-> ->]. split; reflexivity.
Qed.

Lemma sound_prefix_all (g : RawCommand -> verdict) (rs : list RawCommand) :
  Forall (fun r => violates g r = false) rs ->
  sound_prefix g rs = rs /\ first_violation g rs = None.
Proof.
  unfold first_violation.
  induction rs as [| r rs IH]; intros Hrs; cbn; [split; reflexivity |].
  inversion Hrs as [| ? ? Hr Hrest]; subst. rewrite Hr.
  destruct (IH Hrest) as [-> ->]. split; reflexivity.
Qed.

Lemma steps_loop_end (n i : nat) (w : World) :
  length (commands (config w)) <= i -> steps_loop n i w = Ok w.
Proof.
  intros Hi. destruct n; [reflexivity |].
  cbn. rewrite lookup_ge_None_2 by exact Hi. reflexivity.
Qed.

Lemma sound_prefix_length (g : RawCommand -> verdict) (rs : list RawCommand) :
  length (sound_prefix g rs) <= length rs.
Proof.
  induction rs as [| r rs IH]; cbn; [lia |].
  destruct (violates g r); cbn; lia.
Qed.

(** The step pass on commands as the tokenizer leaves them: it returns,
    with the steps of the commands before the first violation. *)
Lemma steps_loop_raw (rs : list RawCommand) (done : list Command) (w : World)
    (n : nat) :
  commands (config w) = done ++ (as_command <$> rs) ->
  length rs <= n ->
  steps_loop n (length done) w
  = Ok (flagged step_grammar (first_violation step_grammar rs)
          (after_steps done (sound_prefix step_grammar rs)
             (as_command <$> drop (length (sound_prefix step_grammar rs)) rs) w)).
Proof.
  intros Hc Hn.
  destruct (sound_prefix_split step_grammar rs) as [Hok Hsplit].
  set (pre := sound_prefix step_grammar rs) in *.
  destruct Hsplit as [[Hnone Heq] | (v & post & Hv & Hviol & Heq)].
  - rewrite Hnone. cbn [flagged].
    replace (drop (length pre) rs) with (@nil RawCommand)
      by (rewrite Heq; rewrite drop_all; reflexivity).
    replace n with (length pre + (n - length pre)) by (rewrite Heq in Hn; lia).
    rewrite (steps_loop_sound pre done [] w).
    + apply steps_loop_end. cbn.
      rewrite !length_app, length_fmap. cbn. lia.
    + rewrite app_nil_r. rewrite <- Heq. exact Hc.
    + exact Hok.
  - rewrite Hv. cbn [flagged].
    replace (drop (length pre) rs) with (v :: post)
      by (rewrite Heq; rewrite drop_app_length; reflexivity).
    assert (Hlen : length rs = length pre + S (length post)).
    { rewrite Heq at 1. rewrite length_app. reflexivity. }
    replace n with (length pre + S (n - length pre - 1)) by lia.
    rewrite (steps_loop_sound pre done (as_command <$> v :: post) w).
    + cbn [steps_loop].
      cbn [after_steps on_config config commands set_steps_to_execute
           set_commands].
      rewrite app_assoc. cbn [fmap list_fmap].
      rewrite list_lookup_middle
        by (rewrite length_app, length_fmap; reflexivity).
      change (PStr <$> arguments v) with (args (as_command v)).
      rewrite step_one_raw.
      unfold violates in Hviol.
      destruct (step_grammar v) eqn:Hg; [discriminate | |];
        cbn [mbind result_bind]; unfold flagged; reflexivity.
    + rewrite Hc. rewrite Heq at 1. rewrite fmap_app. reflexivity.
    + exact Hok.
Qed.

(** The body of the configuration loop against the table. *)
Lemma cfg_one_raw (r : RawCommand) (w : World) :
  match cfg_grammar r with
  | MissingArgument =>
      cfg_one (as_command r) w = Ok (missing_arg (as_command r) w)
  | InvalidArgument =>
      cfg_one (as_command r) w = Ok (invalid_arg (as_command r) w)
  | WellFormed =>
      exists w',
        cfg_one (as_command r) w = Ok w'
        /\ keeps w w'
        /\ pub_each (config w')
           = pub_each (config w) ++ omap periodic [r]
        /\ subscriptions (config w')
           = subscriptions (config w) ++ omap subscription [r]
        /\ scalars (config w') = override (updates r) (scalars (config w))
  end.
Proof.
  destruct r as [kw ws].
  unfold periodic, subscription, updates, cfg_grammar, cfg_one, cfg_yes_no,
    as_command.
  cbn [cmd args keyword arguments omap list_omap].
  keyword_case kw "CFG_CLIENT_ID".
  { destruct ws as [| a ws]; cbn; settled. }
  keyword_case kw "CFG_CLEAN_SESSION".
  { destruct ws as [| a ws]; cbn -[Py.upper]; [reflexivity |].
    unfold yes_no.
    keyword_case a "YES"; [cbn; settled |].
    keyword_case a "NO"; [cbn; settled |].
    reflexivity. }
  keyword_case kw "CFG_KEEPALIVE".
  { destruct ws as [| a ws]; cbn -[is_int py_int]; [reflexivity |].
    rewrite is_int_raw; cbn -[py_int].
    destruct (is_integer a) eqn:Ha; cbn -[py_int]; [| reflexivity].
    rewrite (py_int_raw _ Ha). cbn. settled. }
  keyword_case kw "CFG_USER".
  { destruct ws as [| a [| b ws]]; cbn; settled. }
  keyword_case kw "CFG_TLS_CERT".
  { destruct ws as [| a [| b ws]]; cbn; settled. }
  keyword_case kw "CFG_USE_TLS".
  { destruct ws as [| a ws]; cbn -[Py.upper]; [reflexivity |].
    unfold yes_no.
    keyword_case a "YES"; [cbn; settled |].
    keyword_case a "NO"; [cbn; settled |].
    reflexivity. }
  cbn [orb].
  keyword_case kw "CFG_PUB_EACH".
  { destruct ws as [| a [| b [| t [| m ms]]]]; try reflexivity.
    cbn -[is_int py_int py_join not_quoted is_quoted Py.join Py.strip_ends].
    rewrite !is_int_raw.
    cbn -[is_int py_int py_join not_quoted is_quoted Py.join Py.strip_ends].
    destruct (is_integer a) eqn:Ha;
      cbn -[is_int py_int py_join not_quoted is_quoted Py.join Py.strip_ends];
      [| reflexivity].
    destruct (is_integer b) eqn:Hb;
      cbn -[is_int py_int py_join not_quoted is_quoted Py.join Py.strip_ends];
      [| reflexivity].
    change (PStr m :: (PStr <$> ms)) with (PStr <$> (m :: ms)).
    rewrite py_join_raw.
    cbn -[is_int py_int py_join not_quoted is_quoted Py.join Py.strip_ends].
    rewrite not_quoted_is_quoted.
    destruct (is_quoted (Py.join " " (m :: ms)));
      cbn -[is_int py_int py_join not_quoted is_quoted Py.join Py.strip_ends];
      [| reflexivity].
    rewrite (py_int_raw _ Ha), (py_int_raw _ Hb).
    eexists.
    split;
      [reflexivity
      | repeat split; cbn -[Py.join Py.strip_ends int_or_zero];
        rewrite ?app_nil_r; reflexivity]. }
  destruct (kw =? "CFG_PUB_EACH")%string eqn:Hpe;
    [apply String.eqb_eq in Hpe; contradiction |].
  keyword_case kw "SUB".
  { destruct ws as [| a [| b [| t ws]]]; try reflexivity.
    cbn -[is_int py_int]. rewrite is_int_raw. cbn -[py_int].
    destruct (is_integer a) eqn:Ha; cbn -[py_int]; [| reflexivity].
    rewrite (py_int_raw _ Ha). cbn. settled. }
  keyword_case kw "CONNECT".
  { destruct ws as [| a [| b ws]]; try reflexivity.
    cbn -[is_int py_int]. rewrite is_int_raw. cbn -[py_int].
    destruct (is_integer b) eqn:Hb; cbn -[py_int]; [| reflexivity].
    rewrite (py_int_raw _ Hb). cbn. settled. }
  destruct ws as [| a [| b ws]]; settled.
Qed.

Lemma cfg_loop_app (l1 l2 : list Command) (w : World) :
  cfg_loop (l1 ++ l2) w = cfg_loop l1 w ≫= cfg_loop l2.
Proof.
  revert w. induction l1 as [| c l1 IH]; intros w; [reflexivity |].
  cbn. destruct (cfg_one c w) as [w' | e]; cbn; [apply IH | reflexivity].
Qed.

Lemma cfg_one_violation (r : RawCommand) (w : World) :
  violates cfg_grammar r = true ->
  cfg_one (as_command r) w = Ok (flagged cfg_grammar (Some r) w).
Proof.
  intros Hv. pose proof (cfg_one_raw r w) as H.
  unfold violates in Hv. unfold flagged, error_of.
  destruct (cfg_grammar r); [discriminate | exact H | exact H].
Qed.

Lemma cfg_one_sound (r : RawCommand) (w : World) :
  violates cfg_grammar r = false ->
  exists w',
    cfg_one (as_command r) w = Ok w'
    /\ keeps w w'
    /\ pub_each (config w') = pub_each (config w) ++ omap periodic [r]
    /\ subscriptions (config w')
       = subscriptions (config w) ++ omap subscription [r]
    /\ scalars (config w') = override (updates r) (scalars (config w)).
Proof.
  intros Hv. pose proof (cfg_one_raw r w) as H.
  unfold violates in Hv.
  destruct (cfg_grammar r); [exact H | discriminate | discriminate].
Qed.

Lemma periodic_violation (r : RawCommand) :
  violates cfg_grammar r = true ->
  periodic r = None /\ subscription r = None /\ updates r = no_update.
Proof.
  unfold violates, periodic, subscription, updates. intros Hv.
  destruct (cfg_grammar r); [discriminate | |];
    destruct (keyword r =? "CFG_PUB_EACH")%string;
    destruct (keyword r =? "SUB")%string;
    destruct (arguments r); repeat split.
Qed.

Lemma override_no_update (s : Scalars) : override no_update s = s.
Proof. destruct s. reflexivity. Qed.

(** The configuration pass on commands as the tokenizer leaves them: it
    returns, having logged one error per violation, appended one entry
    per well-formed [CFG_PUB_EACH] and [SUB], and made the assignments
    of the well-formed commands in order. *)
Lemma cfg_loop_raw (rs : list RawCommand) :
  forall w : World,
  exists w',
    cfg_loop (as_command <$> rs) w = Ok w'
    /\ records w'
       = records w ++ (error_of cfg_grammar <$> List.filter (violates cfg_grammar) rs)
    /\ invalid (config w')
       = (invalid (config w) || existsb (violates cfg_grammar) rs)%bool
    /\ commands (config w') = commands (config w)
    /\ steps_to_execute (config w') = steps_to_execute (config w)
    /\ pub_each (config w') = pub_each (config w) ++ omap periodic rs
    /\ subscriptions (config w') = subscriptions (config w) ++ omap subscription rs
    /\ scalars (config w') = settle rs (scalars (config w)).
Proof.
  induction rs as [| r rs IH]; intros w.
  - exists w. cbn. rewrite !app_nil_r, orb_false_r. repeat split.
  - cbn [fmap list_fmap cfg_loop List.filter existsb settle fold_left].
    replace (omap periodic (r :: rs)) with (omap periodic [r] ++ omap periodic rs)
      by (rewrite <- omap_app; reflexivity).
    replace (omap subscription (r :: rs))
      with (omap subscription [r] ++ omap subscription rs)
      by (rewrite <- omap_app; reflexivity).
    fold (settle rs (override (updates r) (scalars (config w)))).
    destruct (violates cfg_grammar r) eqn:Hv.
    + rewrite (cfg_one_violation r w Hv). cbn [mbind result_bind].
      destruct (IH (flagged cfg_grammar (Some r) w))
        as (w' & Hrun & Hrec & Hinv & Hcmd & Hst & Hpe & Hsub & Hsc).
      exists w'. split; [exact Hrun |].
      rewrite Hrec, Hinv, Hcmd, Hst, Hpe, Hsub, Hsc. cbn.
      destruct (periodic_violation r Hv) as (-> & -> & ->).
      rewrite override_no_update.
      rewrite <- app_assoc, orb_true_r. repeat split.
    + destruct (cfg_one_sound r w Hv)
        as (w1 & Hone & (Hr1 & Hi1 & Hc1 & Hs1) & Hp1 & Hsub1 & Hsc1).
      rewrite Hone. cbn [mbind result_bind].
      destruct (IH w1) as (w' & Hrun & Hrec & Hinv & Hcmd & Hst & Hpe & Hsub & Hsc).
      exists w'. split; [exact Hrun |].
      rewrite Hrec, Hinv, Hcmd, Hst, Hpe, Hsub, Hsc, Hr1, Hi1, Hc1, Hs1, Hp1,
        Hsub1, Hsc1.
      rewrite <- !app_assoc. repeat split.
Qed.

Lemma build_config_raw (rs : list RawCommand) (w : World) :
  commands (config w) = as_command <$> rs ->
  exists w',
    build_config w = Ok w'
    /\ records w'
       = records w ++ (error_of cfg_grammar <$> List.filter (violates cfg_grammar) rs)
    /\ invalid (config w')
       = (invalid (config w) || existsb (violates cfg_grammar) rs)%bool
    /\ commands (config w') = commands (config w)
    /\ steps_to_execute (config w') = steps_to_execute (config w)
    /\ pub_each (config w') = pub_each (config w) ++ omap periodic rs
    /\ subscriptions (config w') = subscriptions (config w) ++ omap subscription rs
    /\ scalars (config w') = settle rs (scalars (config w)).
Proof.
  intros Hc. unfold build_config.
  destruct (cfg_loop_raw rs w) as (w' & Hrun & Hrest).
  exists w'. split; [rewrite Hc; exact Hrun | exact Hrest].
Qed.

Lemma compile_steps_raw (rs : list RawCommand) (w : World) :
  commands (config w) = as_command <$> rs ->
  exists w',
    compile_steps w = Ok w'
    /\ steps_to_execute (config w')
       = steps_to_execute (config w) ++ omap compiled (sound_prefix step_grammar rs)
    /\ invalid (config w')
       = (invalid (config w)
          || match first_violation step_grammar rs with
             | Some _ => true
             | None => false
             end)%bool
    /\ records w'
       = records w
         ++ match first_violation step_grammar rs with
            | Some v => [error_of step_grammar v]
            | None => []
            end
    /\ length (commands (config w')) = length (commands (config w)).
Proof.
  intros Hc. unfold compile_steps.
  pose proof (steps_loop_raw rs [] w (length (commands (config w)))) as Hrun.
  cbn [length] in Hrun. rewrite Hrun.
  - eexists. split; [reflexivity |].
    pose proof (sound_prefix_length step_grammar rs) as Hle.
    assert (Hlen : length (commands (config w)) = length rs)
      by (rewrite Hc, length_fmap; reflexivity).
    destruct (first_violation step_grammar rs) as [v |] eqn:Hv; cbn;
      rewrite ?orb_true_r, ?orb_false_r, ?app_nil_r;
      (split; [reflexivity | split; [reflexivity | split; [reflexivity |]]]);
      rewrite length_app, !length_fmap, length_drop; lia.
  - exact Hc.
  - rewrite Hc, length_fmap. lia.
Qed.

(** ** The two error policies (C4) *)

(** C4.  Let the command list hold a command [v] that violates a
    grammar.  In the configuration pass the error of [v] is logged and
    the flag is set, and the pass goes on with the commands after [v]:
    it returns with one error record per violating command of the whole
    list.  In the step pass, if [v] is the first violation, the pass
    ends there: the flag is set, the one error is logged, and the steps
    are those of the commands before [v], whatever follows it. *)
Theorem C4_error_policies_of_the_two_passes :
  (forall (w : World) (pre post : list RawCommand) (v : RawCommand),
      commands (config w) = as_command <$> (pre ++ v :: post) ->
      violates cfg_grammar v = true ->
      exists w1 w',
        cfg_loop (as_command <$> pre) w = Ok w1
        /\ cfg_loop (as_command <$> post)
             (on_config (set_invalid true) (emit (error_of cfg_grammar v) w1))
           = Ok w'
        /\ build_config w = Ok w'
        /\ invalid (config w') = true
        /\ records w'
           = records w
             ++ (error_of cfg_grammar
                   <$> List.filter (violates cfg_grammar) (pre ++ v :: post)))
  /\ (forall (w : World) (pre post : list RawCommand) (v : RawCommand),
         commands (config w) = as_command <$> (pre ++ v :: post) ->
         Forall (fun r => violates step_grammar r = false) pre ->
         violates step_grammar v = true ->
         exists w',
           compile_steps w = Ok w'
           /\ invalid (config w') = true
           /\ records w' = records w ++ [error_of step_grammar v]
           /\ steps_to_execute (config w')
              = steps_to_execute (config w) ++ omap compiled pre).
Proof.
  split.
  - intros w pre post v Hc Hv.
    destruct (cfg_loop_raw pre w) as (w1 & Hpre & _).
    destruct (build_config_raw _ w Hc) as (w' & Hrun & Hrec & Hinv & _).
    exists w1, w'.
    split; [exact Hpre |].
    split.
    + unfold build_config in Hrun. rewrite Hc, fmap_app, cfg_loop_app in Hrun.
      rewrite Hpre in Hrun. cbn [mbind result_bind fmap list_fmap cfg_loop] in Hrun.
      change (PStr <$> arguments v) with (args (as_command v)) in Hrun.
      rewrite (cfg_one_violation v w1 Hv) in Hrun. exact Hrun.
    + split; [exact Hrun |]. split; [| exact Hrec].
      rewrite Hinv, existsb_app. cbn. rewrite Hv. cbn.
      rewrite !orb_true_r. reflexivity.
  - intros w pre post v Hc Hpre Hv.
    destruct (compile_steps_raw _ w Hc) as (w' & Hrun & Hst & Hinv & Hrec & _).
    destruct (sound_prefix_app step_grammar pre v post Hpre Hv) as [Hsp Hfv].
    rewrite Hsp in Hst. rewrite Hfv in Hinv, Hrec.
    exists w'. rewrite orb_true_r in Hinv.
    split; [exact Hrun |]. split; [exact Hinv |]. split; [exact Hrec | exact Hst].
Qed.

Lemma C4_error_policies_of_the_two_passes_witness :
  (exists w1 w',
     cfg_loop (as_command <$> [mkRaw "SUB" ["0"; "a/b"; "log.txt"]])
       (world_of ([mkRaw "SUB" ["0"; "a/b"; "log.txt"]]
                  ++ mkRaw "CFG_KEEPALIVE" ["x"] :: [mkRaw "CFG_USER" ["u"]]))
     = Ok w1
     /\ cfg_loop (as_command <$> [mkRaw "CFG_USER" ["u"]])
          (on_config (set_invalid true)
             (emit (error_of cfg_grammar (mkRaw "CFG_KEEPALIVE" ["x"])) w1))
        = Ok w'
     /\ build_config
          (world_of ([mkRaw "SUB" ["0"; "a/b"; "log.txt"]]
                     ++ mkRaw "CFG_KEEPALIVE" ["x"] :: [mkRaw "CFG_USER" ["u"]]))
        = Ok w'
     /\ invalid (config w') = true
     /\ records w'
        = [] ++ (error_of cfg_grammar
                   <$> List.filter (violates cfg_grammar)
                         ([mkRaw "SUB" ["0"; "a/b"; "log.txt"]]
                          ++ mkRaw "CFG_KEEPALIVE" ["x"] :: [mkRaw "CFG_USER" ["u"]])))
  /\ (exists w',
        compile_steps
          (world_of ([raw_delay "DELAY" "1"]
                     ++ raw_delay "DELAY" "abc" :: [raw_delay "DELAY" "2"]))
        = Ok w'
        /\ invalid (config w') = true
        /\ records w' = [] ++ [error_of step_grammar (raw_delay "DELAY" "abc")]
        /\ steps_to_execute (config w')
           = [] ++ omap compiled [raw_delay "DELAY" "1"]).
Proof.
  split.
  - apply (proj1 C4_error_policies_of_the_two_passes
             (world_of ([mkRaw "SUB" ["0"; "a/b"; "log.txt"]]
                        ++ mkRaw "CFG_KEEPALIVE" ["x"] :: [mkRaw "CFG_USER" ["u"]]))
             [mkRaw "SUB" ["0"; "a/b"; "log.txt"]] [mkRaw "CFG_USER" ["u"]]
             (mkRaw "CFG_KEEPALIVE" ["x"])).
    + reflexivity.
    + vm_compute. reflexivity.
  - apply (proj2 C4_error_policies_of_the_two_passes
             (world_of ([raw_delay "DELAY" "1"]
                        ++ raw_delay "DELAY" "abc" :: [raw_delay "DELAY" "2"]))
             [raw_delay "DELAY" "1"] [raw_delay "DELAY" "2"]
             (raw_delay "DELAY" "abc")).
    + reflexivity.
    + repeat constructor.
    + vm_compute. reflexivity.
Defined.

(** ** Delay steps (C6) *)

Lemma is_delay_cases (kw : string) :
  is_delay kw = true -> kw = "DELAY" \/ kw = "DELAY_MS" \/ kw = "DELAY_H".
Proof.
  unfold is_delay. intros H.
  destruct (String.eqb_spec kw "DELAY"); [auto |].
  destruct (String.eqb_spec kw "DELAY_MS"); [auto |].
  destruct (String.eqb_spec kw "DELAY_H"); [auto | discriminate].
Qed.



(** *** Floats *)

Section FloatFacts.

Local Open Scope Q_scope.

(** The nearest integer is the floor or the next integer, within a
    half of the number. *)
Lemma rhe_bounds (x : Q) :
  (Qfloor x <= Py.round_half_even x <= Qfloor x + 1)%Z.
Proof.
  unfold Py.round_half_even.
  destruct (Qcompare _ _); [destruct (Z.even _) | |]; lia.
Qed.

Lemma rhe_ge (z : Z) (x : Q) : inject_Z z <= x -> (z <= Py.round_half_even x)%Z.
Proof.
  intros H. apply Qfloor_resp_le in H. rewrite Qfloor_Z in H.
  pose proof (rhe_bounds x). lia.
Qed.

Lemma rhe_le (z : Z) (x : Q) : x <= inject_Z z -> (Py.round_half_even x <= z)%Z.
Proof.
  intros H. pose proof (rhe_bounds x) as [_ Hb].
  pose proof (Qfloor_le x) as Hf.
  destruct (Z.eq_dec (Qfloor x) z) as [E | NE].
  - unfold Py.round_half_even. rewrite E.
    destruct (Qcompare (x - inject_Z z) (1 # 2)) eqn:Hc; [| lia |].
    + apply Qeq_alt in Hc. lra.
    + apply Qgt_alt in Hc. lra.
  - assert (Hz : (Qfloor x <= z)%Z).
    { apply Qfloor_resp_le in H. rewrite Qfloor_Z in H. exact H. }
    lia.
Qed.

Lemma rhe_close (x : Q) :
  Qabs (inject_Z (Py.round_half_even x) - x) <= 1 # 2.
Proof.
  pose proof (Qfloor_le x) as Hf. pose proof (Qlt_floor x) as Hc.
  rewrite inject_Z_plus in Hc. change (inject_Z 1) with 1 in Hc.
  apply Qabs_Qle_condition. unfold Py.round_half_even.
  destruct (Qcompare (x - inject_Z (Qfloor x)) (1 # 2)) eqn:E.
  - apply Qeq_alt in E.
    destruct (Z.even (Qfloor x)); rewrite ?inject_Z_plus;
      change (inject_Z 1) with 1; split; lra.
  - apply Qlt_alt in E. split; lra.
  - apply Qgt_alt in E. rewrite inject_Z_plus. change (inject_Z 1) with 1.
    split; lra.
Qed.

(** Powers of two. *)
Lemma pow2_pos (e : Z) : 0 < 2 ^ e.
Proof. apply Qpower_0_lt. reflexivity. Qed.

Lemma pow2_inject (n : Z) : (0 <= n)%Z -> inject_Z (2 ^ n) == 2 ^ n.
Proof. intros H. rewrite Zpower_Qpower by exact H. reflexivity. Qed.

Lemma pow2_succ (e : Z) : 2 ^ (e + 1) == 2 * 2 ^ e.
Proof. rewrite Qpower_plus by discriminate. rewrite Qpower_1_r. ring. Qed.

(** The binary exponent of a positive number. *)
Lemma ilog2_spec (x : Q) :
  0 < x -> 2 ^ Py.ilog2 x <= x /\ x < 2 ^ (Py.ilog2 x + 1).
Proof.
  intros Hx. destruct x as [p q].
  assert (Hp : (0 < p)%Z) by (unfold Qlt in Hx; cbn in Hx; lia).
  unfold Py.ilog2. cbn [Qnum Qden].
  set (lp := Z.log2 p). set (lq := Z.log2 (Z.pos q)).
  destruct (Z.log2_spec p Hp) as [Hp1 Hp2]. fold lp in Hp1, Hp2.
  destruct (Z.log2_spec (Z.pos q) eq_refl) as [Hq1 Hq2]. fold lq in Hq1, Hq2.
  assert (Hlp : (0 <= lp)%Z) by apply Z.log2_nonneg.
  assert (Hlq : (0 <= lq)%Z) by apply Z.log2_nonneg.
  assert (HA := pow2_pos lp). assert (HB := pow2_pos lq).
  assert (Ep : inject_Z p == (p # q) * inject_Z (Z.pos q)).
  { unfold Qeq, Qmult, inject_Z. cbn. lia. }
  assert (Hq : 0 < inject_Z (Z.pos q)) by reflexivity.
  rewrite Zle_Qle, (pow2_inject lp Hlp) in Hp1.
  rewrite Zlt_Qlt, Z.pow_succ_r, inject_Z_mult, (pow2_inject lp Hlp) in Hp2
    by exact Hlp.
  rewrite Zle_Qle, (pow2_inject lq Hlq) in Hq1.
  rewrite Zlt_Qlt, Z.pow_succ_r, inject_Z_mult, (pow2_inject lq Hlq) in Hq2
    by exact Hlq.
  change (inject_Z 2) with 2 in *.
  set (x := p # q) in *. set (P := inject_Z p) in *.
  set (Qq := inject_Z (Z.pos q)) in *.
  set (A := 2 ^ lp) in *. set (B := 2 ^ lq) in *.
  assert (Ek : 2 ^ (lp - lq) * B == A).
  { unfold A, B. rewrite Qpower_minus by discriminate. field.
    apply Qpower_not_0. discriminate. }
  assert (Ek1 : 2 ^ (lp - lq - 1) * (2 * B) == A).
  { rewrite Qpower_minus by discriminate. rewrite Qpower_1_r.
    rewrite <- Ek. field. }
  assert (Hup : x < 2 * 2 ^ (lp - lq)).
  { apply Qmult_lt_r with (z := B); [exact HB |].
    setoid_replace (2 * 2 ^ (lp - lq) * B) with (2 * A) using relation Qeq
      by (rewrite <- Ek; ring).
    apply Qle_lt_trans with (y := x * Qq); [| lra].
    apply Qmult_le_l; [exact Hx | exact Hq1]. }
  assert (Hlow : 2 ^ (lp - lq - 1) <= x).
  { apply Qmult_le_r with (z := 2 * B); [lra |].
    rewrite Ek1.
    apply Qle_trans with (y := x * Qq); [lra |].
    apply Qmult_le_l; [exact Hx | lra]. }
  destruct (Qle_bool (2 ^ (lp - lq)) x) eqn:Hc.
  - apply Qle_bool_iff in Hc. split; [exact Hc |].
    rewrite pow2_succ. exact Hup.
  - split; [exact Hlow |].
    replace (lp - lq - 1 + 1)%Z with (lp - lq)%Z by lia.
    apply Qnot_le_lt. intros Hle. apply Qle_bool_iff in Hle. congruence.
Qed.

Lemma round_double_nonzero (x : Q) :
  ~ x == 0 ->
  Py.round_double x
  = let e := Z.max (Py.ilog2 (Qabs x) - 52) (-1074) in
    let y := inject_Z (Py.round_half_even (x / 2 ^ e)) * 2 ^ e in
    if Qle_bool (2 ^ 1024) (Qabs y) then None else Some y.
Proof.
  intros Hx. unfold Py.round_double.
  destruct (Qeq_bool x 0) eqn:E; [| reflexivity].
  apply Qeq_bool_iff in E. contradiction.
Qed.

Lemma Qabs_pos_lt (x : Q) : ~ x == 0 -> 0 < Qabs x.
Proof.
  intros Hx. destruct (Qlt_le_dec 0 (Qabs x)) as [H | H]; [exact H |].
  exfalso. apply Hx. pose proof (Qabs_nonneg x).
  apply Qabs_Qle_condition in H. lra.
Qed.

(** The scaled number and the bounds of the mantissa. *)
Lemma scaled_bounds (x E C : Q) (c : Z) :
  0 < E -> inject_Z c == C ->
  (C * E <= x -> (c <= Py.round_half_even (x / E))%Z)
  /\ (x <= C * E -> (Py.round_half_even (x / E) <= c)%Z).
Proof.
  intros HE Hc. split; intros H.
  - apply rhe_ge. rewrite Hc. apply Qle_shift_div_l; assumption.
  - apply rhe_le. rewrite Hc. apply Qle_shift_div_r; assumption.
Qed.

(** No overflow below [2 ^ 1023]. *)
Lemma round_double_returns (x : Q) :
  Qabs x < 2 ^ 1023 -> exists y, Py.round_double x = Some y.
Proof.
  intros Hx.
  destruct (Qeq_dec x 0) as [E0 | N0].
  { unfold Py.round_double. apply Qeq_bool_iff in E0. rewrite E0. eauto. }
  rewrite (round_double_nonzero x N0). cbv zeta.
  pose proof (Qabs_pos_lt x N0) as Hpos.
  destruct (ilog2_spec (Qabs x) Hpos) as [Hl1 Hl2].
  set (l := Py.ilog2 (Qabs x)) in *.
  assert (Hl : (l < 1023)%Z).
  { apply Qpower_lt_compat_l_inv with (q := 2); [lra | reflexivity]. }
  set (e := Z.max (l - 52) (-1074)).
  assert (He1 : (l + 1 <= 53 + e)%Z) by lia.
  assert (He2 : (e <= 970)%Z) by lia.
  pose proof (pow2_pos e) as HE. set (E := 2 ^ e) in *.
  assert (Hx53 : Qabs x <= 2 ^ 53 * E).
  { apply Qle_trans with (y := 2 ^ (l + 1)); [lra |].
    apply Qle_trans with (y := 2 ^ (53 + e)).
    - apply Qpower_le_compat_l; [exact He1 | lra].
    - unfold E. rewrite Qpower_plus by discriminate. lra. }
  apply Qabs_Qle_condition in Hx53 as [Hlo Hhi].
  destruct (scaled_bounds x E (2 ^ 53) (2 ^ 53) HE) as [_ Hup];
    [apply pow2_inject; lia |].
  destruct (scaled_bounds x E (- 2 ^ 53) (- 2 ^ 53) HE) as [Hdown _].
  { rewrite inject_Z_opp. rewrite pow2_inject by lia. reflexivity. }
  specialize (Hup Hhi).
  assert (Hlo' : - 2 ^ 53 * E <= x) by lra.
  specialize (Hdown Hlo').
  set (m := Py.round_half_even (x / E)) in *.
  assert (Hm1 : inject_Z m <= 2 ^ 53).
  { rewrite <- (pow2_inject 53) by lia. rewrite <- Zle_Qle. exact Hup. }
  assert (Hm2 : - 2 ^ 53 <= inject_Z m).
  { rewrite <- (pow2_inject 53) by lia. rewrite <- inject_Z_opp.
    rewrite <- Zle_Qle. exact Hdown. }
  assert (HE970 : E <= 2 ^ 970).
  { unfold E. apply Qpower_le_compat_l; [exact He2 | lra]. }
  assert (Hy : Qabs (inject_Z m * E) <= 2 ^ 53 * 2 ^ 970).
  { rewrite Qabs_Qmult, (Qabs_pos E) by lra.
    apply Qle_trans with (y := 2 ^ 53 * E).
    - apply Qmult_le_compat_r; [| lra].
      apply Qabs_Qle_condition. split; lra.
    - apply Qmult_le_l; [reflexivity | exact HE970]. }
  destruct (Qle_bool (2 ^ 1024) (Qabs (inject_Z m * E))) eqn:Hov; [| eauto].
  exfalso. apply Qle_bool_iff in Hov.
  assert (Hlt : 2 ^ 53 * 2 ^ 970 < 2 ^ 1024) by reflexivity.
  lra.
Qed.

(** Overflow from [2 ^ 1024] on. *)
Lemma round_double_overflows (x : Q) :
  2 ^ 1024 <= Qabs x -> Py.round_double x = None.
Proof.
  intros Hx.
  assert (N0 : ~ x == 0).
  { intros E0. rewrite E0 in Hx. revert Hx. apply Qlt_not_le. reflexivity. }
  rewrite (round_double_nonzero x N0). cbv zeta.
  pose proof (Qabs_pos_lt x N0) as Hpos.
  destruct (ilog2_spec (Qabs x) Hpos) as [Hl1 Hl2].
  set (l := Py.ilog2 (Qabs x)) in *.
  assert (Hl : (1024 < l + 1)%Z).
  { apply Qpower_lt_compat_l_inv with (q := 2); [lra | reflexivity]. }
  replace (Z.max (l - 52) (-1074)) with (l - 52)%Z by lia.
  pose proof (pow2_pos (l - 52)) as HE. set (E := 2 ^ (l - 52)) in *.
  assert (El : 2 ^ l == 2 ^ 52 * E).
  { unfold E. rewrite <- Qpower_plus by discriminate.
    replace (52 + (l - 52))%Z with l by lia. reflexivity. }
  assert (H1024 : 2 ^ 1024 <= 2 ^ l).
  { apply Qpower_le_compat_l; [lia | lra]. }
  destruct (scaled_bounds x E (2 ^ 52) (2 ^ 52) HE) as [Hup _];
    [apply pow2_inject; lia |].
  destruct (scaled_bounds x E (- 2 ^ 52) (- 2 ^ 52) HE) as [_ Hdown].
  { rewrite inject_Z_opp. rewrite pow2_inject by lia. reflexivity. }
  set (m := Py.round_half_even (x / E)) in *.
  assert (Hy : 2 ^ 1024 <= Qabs (inject_Z m * E)).
  { rewrite Qabs_Qmult, (Qabs_pos E) by lra.
    apply Qle_trans with (y := 2 ^ 52 * E); [lra |].
    apply Qmult_le_compat_r; [| lra].
    destruct (Qlt_le_dec x 0) as [Hneg | Hnn].
    - rewrite (Qabs_neg x) in Hl1 by lra.
      assert (Hm : (m <= - 2 ^ 52)%Z) by (apply Hdown; lra).
      rewrite Zle_Qle, inject_Z_opp, pow2_inject in Hm by lia.
      rewrite Qabs_neg by lra. lra.
    - rewrite (Qabs_pos x) in Hl1 by lra.
      assert (Hm : (2 ^ 52 <= m)%Z) by (apply Hup; lra).
      rewrite Zle_Qle, pow2_inject in Hm by lia.
      rewrite Qabs_pos by lra. lra. }
  apply Qle_bool_iff in Hy. rewrite Hy. reflexivity.
Qed.

(** The rounded number is within half a unit of the last of its 53
    binary digits. *)
Lemma round_double_close (x y : Q) :
  Py.round_double x = Some y ->
  2 ^ (-1022) <= Qabs x ->
  Qabs (y - x) <= Qabs x * 2 ^ (-53).
Proof.
  intros Hr Hx.
  assert (N0 : ~ x == 0).
  { intros E0. rewrite E0 in Hx. revert Hx. apply Qlt_not_le. reflexivity. }
  rewrite (round_double_nonzero x N0) in Hr. cbv zeta in Hr.
  pose proof (Qabs_pos_lt x N0) as Hpos.
  destruct (ilog2_spec (Qabs x) Hpos) as [Hl1 Hl2].
  set (l := Py.ilog2 (Qabs x)) in *.
  assert (Hl : (-1022 < l + 1)%Z).
  { apply Qpower_lt_compat_l_inv with (q := 2); [lra | reflexivity]. }
  replace (Z.max (l - 52) (-1074)) with (l - 52)%Z in Hr by lia.
  pose proof (pow2_pos (l - 52)) as HE. set (E := 2 ^ (l - 52)) in *.
  assert (El : 2 ^ l == 2 ^ 52 * E).
  { unfold E. rewrite <- Qpower_plus by discriminate.
    replace (52 + (l - 52))%Z with l by lia. reflexivity. }
  set (m := Py.round_half_even (x / E)) in *.
  destruct (Qle_bool _ _); [discriminate |]. injection Hr as <-.
  pose proof (rhe_close (x / E)) as Hd. fold m in Hd.
  assert (Ey : inject_Z m * E - x == (inject_Z m - x / E) * E)
    by (field; lra).
  rewrite Ey, Qabs_Qmult, (Qabs_pos E) by lra.
  apply Qle_trans with (y := (1 # 2) * E).
  - apply Qmult_le_compat_r; [exact Hd | lra].
  - apply Qle_trans with (y := 2 ^ 52 * E * 2 ^ (-53)).
    + setoid_replace (2 ^ 52 * E * 2 ^ (-53)) with ((1 # 2) * E)
        using relation Qeq; [lra |].
      setoid_replace (2 ^ 52 * E * 2 ^ (-53)) with (2 ^ 52 * 2 ^ (-53) * E)
        using relation Qeq by ring.
      apply Qmult_comp; reflexivity.
    + apply Qmult_le_compat_r; [lra | apply Qlt_le_weak; apply pow2_pos].
Qed.

(** A number that is zero or not below the least normal double is
    rounded within relative distance [2 ^ (-53)]. *)
Lemma round_double_accurate (x y : Q) :
  Py.round_double x = Some y ->
  x == 0 \/ 2 ^ (-1022) <= Qabs x ->
  Qabs (y - x) <= Qabs x * 2 ^ (-53).
Proof.
  intros Hr [E0 | Hx]; [| exact (round_double_close x y Hr Hx)].
  unfold Py.round_double in Hr.
  assert (Hb : Qeq_bool x 0 = true) by (apply Qeq_bool_iff; exact E0).
  rewrite Hb in Hr. injection Hr as <-.
  setoid_replace (0 - x) with 0 using relation Qeq by (rewrite E0; reflexivity).
  rewrite E0. apply Qle_bool_iff. reflexivity.
Qed.

(** A rounded number has the sign of the number. *)
Lemma round_double_nonneg (x y : Q) :
  0 <= x -> Py.round_double x = Some y -> 0 <= y.
Proof.
  intros Hx Hr.
  destruct (Qeq_dec x 0) as [E0 | N0].
  - unfold Py.round_double in Hr.
    assert (Hb : Qeq_bool x 0 = true) by (apply Qeq_bool_iff; exact E0).
    rewrite Hb in Hr. injection Hr as <-. lra.
  - rewrite (round_double_nonzero x N0) in Hr. cbv zeta in Hr.
    destruct (Qle_bool _ _); [discriminate |]. injection Hr as <-.
    set (E := 2 ^ _).
    pose proof (pow2_pos (Z.max (Py.ilog2 (Qabs x) - 52) (-1074))) as HE.
    fold E in HE.
    assert (Hm : (0 <= Py.round_half_even (x / E))%Z).
    { apply rhe_ge. change (inject_Z 0) with 0.
      apply Qle_shift_div_l; [exact HE | lra]. }
    rewrite Zle_Qle in Hm. change (inject_Z 0) with 0 in Hm.
    apply Qmult_le_0_compat; lra.
Qed.

(** The quotient of an integer by 1000. *)
Lemma abs_milli (n : Z) :
  Qabs (inject_Z n / 1000) == inject_Z (Z.abs n) / 1000.
Proof.
  unfold Qeq, Qabs, Qdiv, Qmult, Qinv, inject_Z. cbn.
  rewrite !Z.mul_1_r. reflexivity.
Qed.

(** The range of the floats, on the integer. *)
Lemma milli_range (n : Z) :
  ((Z.abs n < 1000 * 2 ^ 1023)%Z <-> Qabs (inject_Z n / 1000) < 2 ^ 1023)
  /\ ((1000 * 2 ^ 1024 <= Z.abs n)%Z <-> 2 ^ 1024 <= Qabs (inject_Z n / 1000)).
Proof.
  rewrite abs_milli. split.
  - rewrite Zlt_Qlt, inject_Z_mult, pow2_inject by lia.
    change (inject_Z 1000) with 1000. split; intros H.
    + apply Qlt_shift_div_r; [reflexivity | lra].
    + apply Qmult_lt_r with (z := 1000) in H; [| reflexivity].
      revert H. unfold Qdiv.
      setoid_replace (inject_Z (Z.abs n) * / 1000 * 1000)
        with (inject_Z (Z.abs n)) using relation Qeq
        by (field; discriminate).
      lra.
  - rewrite Zle_Qle, inject_Z_mult, pow2_inject by lia.
    change (inject_Z 1000) with 1000. split; intros H.
    + apply Qle_shift_div_l; [reflexivity | lra].
    + apply Qmult_le_r with (z := 1000) in H; [| reflexivity].
      revert H. unfold Qdiv.
      setoid_replace (inject_Z (Z.abs n) * / 1000 * 1000)
        with (inject_Z (Z.abs n)) using relation Qeq
        by (field; discriminate).
      lra.
Qed.

(** The quotient of an integer is zero or at least a thousandth. *)
Lemma milli_normal (n : Z) :
  inject_Z n / 1000 == 0 \/ 2 ^ (-1022) <= Qabs (inject_Z n / 1000).
Proof.
  destruct (Z.eq_dec n 0%Z) as [-> | Hn]; [left; reflexivity | right].
  rewrite abs_milli.
  apply Qle_trans with (y := 1 / 1000);
    [apply Qle_bool_iff; reflexivity |].
  apply Qle_shift_div_l; [reflexivity |].
  assert (H1 : (1 <= Z.abs n)%Z) by lia.
  rewrite Zle_Qle in H1. change (inject_Z 1) with 1 in H1.
  setoid_replace (1 / 1000 * 1000) with 1 using relation Qeq by reflexivity.
  exact H1.
Qed.

End FloatFacts.

(** The float quotient of an integer by 1000: what [DELAY_MS] waits. *)
Lemma true_divide_milli (n : Z) :
  ((exists d, Py.true_divide n 1000 = Some d) \/ Py.true_divide n 1000 = None)
  /\ (forall d,
         Py.true_divide n 1000 = Some d ->
         (Qabs (d - inject_Z n / 1000)
          <= Qabs (inject_Z n / 1000) * 2 ^ (-53))%Q)
  /\ ((Z.abs n < 1000 * 2 ^ 1023)%Z -> exists d, Py.true_divide n 1000 = Some d)
  /\ ((1000 * 2 ^ 1024 <= Z.abs n)%Z -> Py.true_divide n 1000 = None).
Proof.
  unfold Py.true_divide. change (inject_Z 1000) with 1000%Q.
  destruct (milli_range n) as [Hlow Hhigh].
  split; [| split; [| split]].
  - destruct (Py.round_double (inject_Z n / 1000)); eauto.
  - intros d Hd. apply (round_double_accurate _ _ Hd). apply milli_normal.
  - intros H. apply round_double_returns. apply Hlow. exact H.
  - intros H. apply round_double_overflows. apply Hhigh. exact H.
Qed.




(** The two delays the specification names: half a second is a double,
    so the quotient is exact. *)
Example delay_ms_500_is_half_a_second :
  exists w d,
    cmdscript_parse "DELAY_MS 500" world0 = Ok w
    /\ steps_to_execute (config w) = [ {| cmd := "DELAY_MS"; args := [PInt 500] |} ]
    /\ wait_t {| cmd := "DELAY_MS"; args := [PInt 500] |} = Ok d
    /\ (d == 1 # 2)%Q.
Proof.
  eexists. eexists. split; [vm_compute; reflexivity |].
  split; [reflexivity |]. split; [vm_compute; reflexivity |].
  vm_compute. reflexivity.
Qed.

Example delay_h_1_is_3600_seconds :
  exists w,
    cmdscript_parse "DELAY_H 1" world0 = Ok w
    /\ steps_to_execute (config w) = [ {| cmd := "DELAY_H"; args := [PInt 1] |} ]
    /\ wait_t {| cmd := "DELAY_H"; args := [PInt 1] |} = Ok (inject_Z 3600).
Proof.
  eexists. split; [vm_compute; reflexivity |].
  split; reflexivity.
Qed.

(** ** The interval of a periodic publish (C7) *)

(** C7 as stated fails: intervals of zero and of minus five seconds are
    accepted, the script is valid and the entries are there. *)
Lemma C7_nonpositive_interval_is_accepted :
  (exists w,
     cmdscript_parse (pub_each_script "0") world0 = Ok w
     /\ invalid (config w) = false
     /\ pub_each (config w) = [pub_each_entry 0 (Some 0%Q)]
     /\ ~ (0 < ConfigPublishEach.each (pub_each_entry 0 (Some 0%Q)))%Z)
  /\ (exists w,
        cmdscript_parse (pub_each_script "-5") world0 = Ok w
        /\ invalid (config w) = false
        /\ pub_each (config w) = [pub_each_entry (-5) (Some 0%Q)]
        /\ ~ (0 < ConfigPublishEach.each (pub_each_entry (-5) (Some 0%Q)))%Z).
Proof.
  split; eexists; (split; [vm_compute; reflexivity |]);
    (split; [reflexivity |]); (split; [reflexivity |]); cbn; lia.
Qed.

Lemma periodic_interval (r : RawCommand) (e : ConfigPublishEach.t) :
  periodic r = Some e ->
  exists interval rest n,
    keyword r = "CFG_PUB_EACH"
    /\ arguments r = interval :: rest
    /\ Py.int_of_str interval = Some n
    /\ ConfigPublishEach.each e = n.
Proof.
  destruct r as [kw ws]. unfold periodic, cfg_grammar. cbn [keyword arguments].
  keyword_case kw "CFG_PUB_EACH"; [| discriminate].
  cbn -[is_integer is_quoted Py.join Py.strip_ends int_or_zero].
  destruct ws as [| a [| b [| t [| m ms]]]]; try discriminate.
  unfold is_integer at 1, int_or_zero at 1.
  destruct (Py.int_of_str a) as [n |] eqn:Hn;
    cbn -[is_integer is_quoted Py.join Py.strip_ends int_or_zero];
    [| discriminate].
  destruct (is_integer b && is_quoted (Py.join " " (m :: ms)))%bool;
    [| discriminate].
  intros [= <-]. exists a, (b :: t :: m :: ms), n. repeat split. exact Hn.
Qed.

(** C7, as the code has it.  The configuration pass appends one entry
    per well-formed [CFG_PUB_EACH] command and no other; the interval of
    an entry is the integer its command's first argument denotes; and
    every integer so written, positive or not, becomes the interval of
    the entry of its command: the sign is not looked at. *)
Theorem C7_interval_is_the_integer_written :
  (forall (rs : list RawCommand) (w : World),
      commands (config w) = as_command <$> rs ->
      exists w',
        build_config w = Ok w'
        /\ pub_each (config w') = pub_each (config w) ++ omap periodic rs)
  /\ (forall (r : RawCommand) (e : ConfigPublishEach.t),
         periodic r = Some e ->
         exists interval rest n,
           keyword r = "CFG_PUB_EACH"
           /\ arguments r = interval :: rest
           /\ Py.int_of_str interval = Some n
           /\ ConfigPublishEach.each e = n)
  /\ (forall (interval qos topic m : string) (ms : list string) (n : Z),
         Py.int_of_str interval = Some n ->
         cfg_grammar (mkRaw "CFG_PUB_EACH" (interval :: qos :: topic :: m :: ms))
         = WellFormed ->
         exists e,
           periodic (mkRaw "CFG_PUB_EACH" (interval :: qos :: topic :: m :: ms))
           = Some e
           /\ ConfigPublishEach.each e = n).
Proof.
  split; [| split].
  - intros rs w Hc.
    destruct (build_config_raw rs w Hc) as (w' & Hrun & _ & _ & _ & _ & Hpe & _).
    exists w'. split; assumption.
  - exact periodic_interval.
  - intros interval qos topic m ms n Hn Hg.
    unfold periodic. rewrite Hg. cbn [keyword arguments String.eqb Ascii.eqb].
    cbn -[Py.join Py.strip_ends int_or_zero].
    eexists. split; [reflexivity |].
    cbn [ConfigPublishEach.each]. unfold int_or_zero. rewrite Hn. reflexivity.
Qed.

Lemma C7_interval_is_the_integer_written_witness :
  (exists w',
     build_config (world_of [raw_pub_each "-5"]) = Ok w'
     /\ pub_each (config w')
        = pub_each (config (world_of [raw_pub_each "-5"]))
          ++ omap periodic [raw_pub_each "-5"])
  /\ (exists interval rest n,
         keyword (raw_pub_each "-5") = "CFG_PUB_EACH"
         /\ arguments (raw_pub_each "-5") = interval :: rest
         /\ Py.int_of_str interval = Some n
         /\ ConfigPublishEach.each (pub_each_entry (-5) (Some 0%Q)) = n)
  /\ (exists e,
         periodic (mkRaw "CFG_PUB_EACH" ("-5" :: "0" :: "a/b" :: quoted "x" :: []))
         = Some e
         /\ ConfigPublishEach.each e = (-5)%Z).
Proof.
  split; [| split].
  - apply (proj1 C7_interval_is_the_integer_written [raw_pub_each "-5"]).
    reflexivity.
  - apply (proj1 (proj2 C7_interval_is_the_integer_written) (raw_pub_each "-5")).
    vm_compute. reflexivity.
  - apply (proj2 (proj2 C7_interval_is_the_integer_written)
             "-5" "0" "a/b" (quoted "x") [] (-5)%Z).
    + vm_compute. reflexivity.
    + vm_compute. reflexivity.
Defined.

(** ** The interpreter loop *)

Section InterpreterFacts.

Variable clock : nat -> Q.

Lemma time_keeps (rt : Runtime) :
  world (time clock rt).2 = world rt
  /\ step (time clock rt).2 = step rt
  /\ app_exit (time clock rt).2 = app_exit rt.
Proof. repeat split. Qed.

Lemma handle_keeps (e : Async) (rt : Runtime) :
  world (handle clock e rt) = world rt
  /\ step (handle clock e rt) = step rt
  /\ (app_exit rt = true -> app_exit (handle clock e rt) = true).
Proof.
  destruct e; cbn.
  - set (subs := subscriptions _). clearbody subs.
    set (rt0 := set_connected _ _).
    assert (H : world rt0 = world rt /\ step rt0 = step rt
                /\ app_exit rt0 = app_exit rt) by (repeat split).
    clearbody rt0. revert rt0 H.
    induction subs as [| sub subs IH]; intros rt0 (Hw & Hs & Ha); cbn.
    + rewrite Hw, Hs, Ha. auto.
    + apply IH. repeat split; assumption.
  - destruct (mqtt_connection_lost rt); auto.
  - auto.
Qed.

Lemma arrive_keeps (t : Tick) (rt : Runtime) :
  world (arrive clock t rt) = world rt
  /\ step (arrive clock t rt) = step rt
  /\ (app_exit rt = true -> app_exit (arrive clock t rt) = true).
Proof.
  unfold arrive. generalize (events t) as es. intros es. revert rt.
  induction es as [| e es IH]; intros rt; cbn; [auto |].
  destruct (IH (handle clock e rt)) as (Hw & Hs & Ha).
  destruct (handle_keeps e rt) as (Hw' & Hs' & Ha').
  rewrite Hw, Hs, Hw', Hs'. auto.
Qed.

Lemma publish_each_one_keeps (p p' : ConfigPublishEach.t) (rt rt' : Runtime) :
  publish_each_one clock p rt = Ok (p', rt') ->
  world rt' = world rt /\ step rt' = step rt /\ app_exit rt' = app_exit rt.
Proof.
  unfold publish_each_one.
  cbn [time].
  destruct (time_sub _ _) as [elapsed | e]; cbn; [| intros; discriminate].
  destruct (float_ge _ _); cbn; intros H; inversion H; subst; repeat split.
Qed.

Lemma publish_each_loop_keeps (todo l : list ConfigPublishEach.t) :
  forall rt rt' : Runtime,
    publish_each_loop clock todo rt = Ok (l, rt') ->
    world rt' = world rt /\ step rt' = step rt /\ app_exit rt' = app_exit rt.
Proof.
  revert l. induction todo as [| p todo IH]; intros l rt rt';
    cbn [publish_each_loop].
  - intros H; inversion H; subst. repeat split.
  - destruct (publish_each_one clock p rt) as [[p1 rt1] | e] eqn:H1;
      cbn [mbind result_bind]; [| intros; discriminate].
    destruct (publish_each_loop clock todo rt1) as [[l2 rt2] | e] eqn:H2;
      cbn [mbind result_bind]; [| intros; discriminate].
    intros H; inversion H; subst.
    destruct (publish_each_one_keeps _ _ _ _ H1) as (Hw & Hs & Ha).
    destruct (IH _ _ _ H2) as (Hw' & Hs' & Ha').
    rewrite Hw', Hs', Ha'. auto.
Qed.

Lemma manage_publish_each_time_keeps (rt rt' : Runtime) :
  manage_publish_each_time clock rt = Ok rt' ->
  steps_of rt' = steps_of rt /\ step rt' = step rt /\ app_exit rt' = app_exit rt.
Proof.
  unfold manage_publish_each_time.
  destruct (publish_each_loop clock _ rt) as [[l rt1] | e] eqn:H;
    cbn [mbind result_bind]; [| intros; discriminate].
  intros [= <-].
  destruct (publish_each_loop_keeps _ _ _ _ H) as (Hw & Hs & Ha).
  unfold steps_of. cbn. rewrite Hw. auto.
Qed.

Lemma run_step_cmd_keeps (c : Command) (rt rt' : Runtime) (b : bool) :
  run_step_cmd clock c rt = Ok (b, rt') ->
  world rt' = world rt
  /\ step rt' = step rt
  /\ (cmd c = "DISCONNECT" -> b = true /\ app_exit rt' = true).
Proof.
  unfold run_step_cmd.
  destruct (String.eqb_spec (cmd c) "DISCONNECT") as [E | NE].
  - intros H; inversion H; subst. repeat split.
  - destruct (cmd c =? "PUB")%string.
    + destruct (index (args c) 0) as [? | ?]; cbn; [| intros; discriminate].
      destruct (index (args c) 1) as [? | ?]; cbn; [| intros; discriminate].
      destruct (index (args c) 2) as [? | ?]; cbn; [| intros; discriminate].
      intros H; inversion H; subst. repeat split; contradiction.
    + destruct (is_delay (cmd c)).
      * destruct (wait_t c) as [wait | ?]; cbn; [| intros; discriminate].
        destruct (t_wait_start rt) as [t0 |] eqn:Ht;
          cbn -[float_ge Py.float_sub]; rewrite ?Ht;
          cbn -[float_ge Py.float_sub];
          match goal with
          | |- context [float_ge ?x ?y] => destruct (float_ge x y)
          end;
          intros H; inversion H; subst; repeat split; contradiction.
      * intros H; inversion H; subst. repeat split; contradiction.
Qed.


(** One iteration: the step list is left alone and the index stays or
    goes up by one, the latter only from inside the list. *)
Lemma loop_body_step (t : Tick) (rt rt' : Runtime) :
  loop_body clock t rt = Ok rt' ->
  steps_of rt' = steps_of rt
  /\ (step rt' = step rt
      \/ (step rt' = S (step rt) /\ step rt < length (steps_of rt)))
  /\ (forall c,
         is_connected t = true ->
         steps_of rt !! step rt = Some c ->
         cmd c = "DISCONNECT" ->
         step rt' = S (step rt) /\ app_exit rt' = true).
Proof.
  unfold loop_body.
  destruct (is_connected t).
  2: { intros H; inversion H; subst. split; [reflexivity |].
       split; [left; reflexivity | intros; discriminate]. }
  destruct (manage_publish_each_time clock rt) as [rt1 | e] eqn:Hm;
    cbn [mbind result_bind]; [| intros; discriminate].
  destruct (manage_publish_each_time_keeps _ _ Hm) as (Hst & Hs & Ha).
  fold (steps_of rt1). rewrite Hs, Hst.
  destruct (Nat.ltb_spec (step rt) (length (steps_of rt))) as [Hlt | Hge].
  2: { intros H; inversion H; subst. split; [exact Hst |].
       split; [left; exact Hs |].
       intros c _ Hc _. apply lookup_lt_Some in Hc. lia. }
  unfold index.
  destruct (steps_of rt !! step rt) as [c |] eqn:Hc;
    cbn [mbind result_bind]; [| intros; discriminate].
  destruct (run_step_cmd clock c rt1) as [[b rt2] | e] eqn:Hr;
    cbn [mbind result_bind]; [| intros; discriminate].
  destruct (run_step_cmd_keeps _ _ _ _ Hr) as (Hw2 & Hs2 & Hd).
  assert (Hst2 : steps_of rt2 = steps_of rt)
    by (unfold steps_of in *; rewrite Hw2; exact Hst).
  destruct b; intros H; inversion H; subst; cbn [step set_step].
  - split; [exact Hst2 |]. split; [right; split; [lia | exact Hlt] |].
    intros c' _ Hc' Hk. injection Hc' as <-.
    destruct (Hd Hk) as [_ Hx]. split; [lia | exact Hx].
  - split; [exact Hst2 |]. split; [left; lia |].
    intros c' _ Hc' Hk. injection Hc' as <-.
    destruct (Hd Hk) as [Hb _]. discriminate Hb.
Qed.

(** Two neighbours in the trace are one iteration apart. *)
Lemma trace_neighbours (ticks : list Tick) :
  forall (rt : Runtime) (k : nat) (s s' : Runtime),
    interpreter_trace clock ticks rt !! k = Some s ->
    interpreter_trace clock ticks rt !! S k = Some s' ->
    exists t t' rt',
      ticks !! k = Some t
      /\ ticks !! S k = Some t'
      /\ app_exit s = false
      /\ loop_body clock t s = Ok rt'
      /\ s' = arrive clock t' rt'.
Proof.
  induction ticks as [| t ticks IH]; intros rt k s s' Hk HSk; [discriminate |].
  cbn [interpreter_trace] in Hk, HSk.
  destruct k as [| k].
  - cbn in Hk. injection Hk as <-. cbn [lookup list_lookup] in HSk.
    cbn in HSk.
    destruct (app_exit (arrive clock t rt)) eqn:Ha; [discriminate |].
    destruct (loop_body clock t (arrive clock t rt)) as [rt' | e] eqn:Hb;
      [| discriminate].
    destruct ticks as [| t' ticks]; [discriminate |].
    cbn in HSk. injection HSk as <-.
    exists t, t', rt'. repeat split; assumption.
  - cbn in Hk, HSk.
    destruct (app_exit (arrive clock t rt)); [discriminate |].
    destruct (loop_body clock t (arrive clock t rt)) as [rt' | e];
      [| discriminate].
    apply (IH rt' k s s' Hk HSk).
Qed.

(** Every state of the trace has the step list of the start and an
    index within it. *)
Lemma trace_states (ticks : list Tick) :
  forall (rt : Runtime) (k : nat) (s : Runtime),
    step rt <= length (steps_of rt) ->
    interpreter_trace clock ticks rt !! k = Some s ->
    steps_of s = steps_of rt /\ step s <= length (steps_of rt).
Proof.
  induction ticks as [| t ticks IH]; intros rt k s Hle Hk; [discriminate |].
  cbn [interpreter_trace] in Hk.
  destruct (arrive_keeps t rt) as (Hw & Hs & _).
  assert (Hst : steps_of (arrive clock t rt) = steps_of rt)
    by (unfold steps_of; rewrite Hw; reflexivity).
  destruct k as [| k].
  - cbn in Hk. injection Hk as <-. rewrite Hst, Hs. auto.
  - cbn in Hk.
    destruct (app_exit (arrive clock t rt)); [discriminate |].
    destruct (loop_body clock t (arrive clock t rt)) as [rt' | e] eqn:Hb;
      [| discriminate].
    destruct (loop_body_step _ _ _ Hb) as (Hst' & Hstep & _).
    rewrite Hst, Hs in *.
    destruct (IH rt' k s) as [H1 H2]; [rewrite Hst'; lia | exact Hk |].
    rewrite H1, Hst' in *. auto.
Qed.

(** The trace is the trace of the loop: when the loop is left, it is
    left in the last state of the trace, where [app_exit] is set. *)
Lemma interpreter_loop_trace (ticks : list Tick) :
  forall rt rt' : Runtime,
    interpreter_loop clock ticks rt = Ok (Some rt') ->
    last (interpreter_trace clock ticks rt) = Some rt' /\ app_exit rt' = true.
Proof.
  induction ticks as [| t ticks IH]; intros rt rt'; [discriminate |].
  cbn [interpreter_loop interpreter_trace].
  destruct (app_exit (arrive clock t rt)) eqn:Ha.
  - intros H; inversion H; subst. split; [reflexivity | exact Ha].
  - destruct (loop_body clock t (arrive clock t rt)) as [rt1 | e];
      cbn [mbind result_bind]; [| intros; discriminate].
    intros H. destruct (IH rt1 rt' H) as [Hl Hx]. split; [| exact Hx].
    destruct (interpreter_trace clock ticks rt1) as [| s tr] eqn:Htr;
      [discriminate Hl |].
    rewrite last_cons, Hl. reflexivity.
Qed.

End InterpreterFacts.

(** ** The step index (C9) *)

Lemma interpreter_entry_steps (uuid : string) (w : World) :
  steps_of (interpreter_entry uuid w) = steps_to_execute (config w)
  /\ step (interpreter_entry uuid w) = 0.
Proof.
  unfold interpreter_entry, steps_of.
  destruct (client_id (config w)) as [[| a s] | z]; split; reflexivity.
Qed.

(** C9.  Along the states in which the loop of [cmdscript_interpreter]
    tests [app_exit], whatever the clock, the events and the answers of
    the client: the step index starts at 0 and never exceeds the length
    of the step list; from one state to the next it stays or goes up by
    one; once it equals the length it stays; no state follows one in
    which [app_exit] is set; and an iteration that finds a [DISCONNECT]
    step while connected moves past it and sets [app_exit], so that the
    state after it is the last. *)
Theorem C9_step_index_advances_by_one_within_the_list :
  forall (clock : nat -> Q) (uuid : string) (ticks : list Tick) (w : World),
    let steps := steps_to_execute (config w) in
    let tr := interpreter_trace clock ticks (interpreter_entry uuid w) in
    (forall s, tr !! 0 = Some s -> step s = 0)
    /\ (forall k s, tr !! k = Some s -> step s <= length steps)
    /\ (forall k s s',
           tr !! k = Some s -> tr !! S k = Some s' ->
           step s' = step s \/ step s' = S (step s))
    /\ (forall k s s',
           tr !! k = Some s -> tr !! S k = Some s' ->
           step s = length steps -> step s' = step s)
    /\ (forall k s, tr !! k = Some s -> app_exit s = true -> tr !! S k = None)
    /\ (forall k s s' t c,
           tr !! k = Some s -> tr !! S k = Some s' ->
           ticks !! k = Some t -> is_connected t = true ->
           steps !! step s = Some c -> cmd c = "DISCONNECT" ->
           step s' = S (step s) /\ app_exit s' = true /\ tr !! S (S k) = None).
Proof.
  intros clock uuid ticks w steps tr.
  destruct (interpreter_entry_steps uuid w) as [Hsteps Hzero].
  fold steps in Hsteps.
  assert (Hstate : forall k s, tr !! k = Some s ->
                     steps_of s = steps /\ step s <= length steps).
  { intros k s Hk. rewrite <- Hsteps.
    apply (trace_states clock ticks _ k s); [rewrite Hzero; lia | exact Hk]. }
  assert (Hnext : forall k s s', tr !! k = Some s -> tr !! S k = Some s' ->
                    exists t rt',
                      ticks !! k = Some t /\ app_exit s = false
                      /\ loop_body clock t s = Ok rt' /\ step s' = step rt'
                      /\ (app_exit rt' = true -> app_exit s' = true)).
  { intros k s s' Hk HSk.
    destruct (trace_neighbours clock ticks _ k s s' Hk HSk)
      as (t & t' & rt' & Ht & _ & Ha & Hb & ->).
    destruct (arrive_keeps clock t' rt') as (_ & Hs & Hx).
    exists t, rt'. repeat split; assumption. }
  split; [| split; [| split; [| split; [| split]]]].
  - intros s H0. subst tr.
    destruct ticks as [| t ticks]; [discriminate |].
    cbn in H0. injection H0 as <-.
    destruct (arrive_keeps clock t (interpreter_entry uuid w)) as (_ & Hs & _).
    rewrite Hs. exact Hzero.
  - intros k s Hk. apply (Hstate k s Hk).
  - intros k s s' Hk HSk.
    destruct (Hnext k s s' Hk HSk) as (t & rt' & _ & _ & Hb & -> & _).
    destruct (loop_body_step clock _ _ _ Hb) as (_ & [H | [H _]] & _); auto.
  - intros k s s' Hk HSk Hend.
    destruct (Hnext k s s' Hk HSk) as (t & rt' & _ & _ & Hb & -> & _).
    destruct (Hstate k s Hk) as [Hst _].
    destruct (loop_body_step clock _ _ _ Hb) as (_ & [H | [_ H]] & _);
      [exact H | rewrite Hst in H; lia].
  - intros k s Hk Hexit.
    destruct (tr !! S k) as [s' |] eqn:HSk; [| reflexivity].
    destruct (Hnext k s s' Hk HSk) as (_ & _ & _ & Ha & _). congruence.
  - intros k s s' t c Hk HSk Ht Hconn Hc Hd.
    destruct (Hnext k s s' Hk HSk) as (t0 & rt' & Ht0 & _ & Hb & Hs' & Hx).
    assert (t0 = t) as -> by congruence.
    destruct (Hstate k s Hk) as [Hst _].
    destruct (loop_body_step clock _ _ _ Hb) as (_ & _ & Hdisc).
    rewrite Hst in Hdisc.
    destruct (Hdisc c Hconn Hc Hd) as [Hstep Hexit].
    split; [congruence |]. split; [auto |].
    destruct (tr !! S (S k)) as [s'' |] eqn:HSSk; [| reflexivity].
    destruct (Hnext (S k) s' s'' HSk HSSk) as (_ & _ & _ & Ha & _).
    rewrite (Hx Hexit) in Ha. discriminate.
Qed.

Lemma C9_step_index_advances_by_one_within_the_list_witness :
  let tr :=
    interpreter_trace clock_1s scenario_ticks (interpreter_entry "u" scenario_world) in
  exists s s',
    tr !! 2 = Some s /\ tr !! 3 = Some s'
    /\ step s = 2 /\ step s' = S (step s)
    /\ app_exit s' = true /\ tr !! 4 = None.
Proof.
  intros tr.
  pose proof (C9_step_index_advances_by_one_within_the_list
                clock_1s "u" scenario_ticks scenario_world)
    as (_ & _ & _ & _ & _ & Hdisc).
  destruct (tr !! 2) as [s |] eqn:H2; [| vm_compute in H2; discriminate H2].
  destruct (tr !! 3) as [s' |] eqn:H3; [| vm_compute in H3; discriminate H3].
  exists s, s'.
  assert (Hs : step s = 2) by (vm_compute in H2; injection H2 as <-; reflexivity).
  destruct (Hdisc 2 s s' quiet_tick {| cmd := "DISCONNECT"; args := [] |})
    as (Hstep & Hexit & Hlast);
    [exact H2 | exact H3 | reflexivity | reflexivity
    | rewrite Hs; reflexivity | reflexivity |].
  repeat split; assumption.
Defined.

(** The scenario of the specification: the script compiles to its
    three steps, and a run of these against a session that connects at
    once publishes, waits, disconnects and returns [RC.OK]. *)
Example scenario_compiles_and_runs :
  (exists w,
     cmdscript_parse scenario_script world0 = Ok w
     /\ invalid (config w) = false
     /\ steps_to_execute (config w) = scenario_steps
     /\ subscriptions (config w)
        = [ConfigSubscription.mk 0 (PStr "a/b") (PStr "log.txt")]
     /\ exists rt,
          cmdscript_interpreter clock_1s "u" scenario_ticks w
          = Ok (Some (RC.OK, rt))
          /\ calls rt = scenario_calls
          /\ step rt = 3).
Proof.
  eexists. split; [vm_compute; reflexivity |].
  split; [reflexivity |]. split; [reflexivity |]. split; [reflexivity |].
  eexists. split; [vm_compute; reflexivity |].
  split; reflexivity.
Qed.

(** ** The tokenizer *)

Lemma split_cons (sep : ascii) (s : string) :
  exists first rest, Py.split sep s = first :: rest.
Proof.
  induction s as [| c s (first & rest & IH)]; cbn.
  - eauto.
  - destruct (Ascii.eqb c sep); [eauto |]. rewrite IH. eauto.
Qed.

Lemma split_snoc (sep : ascii) (s : string) :
  exists front lastl, Py.split sep s = front ++ [lastl].
Proof.
  destruct (split_cons sep s) as (first & rest & H). rewrite H.
  destruct (exists_last (l := first :: rest)) as (front & lastl & E);
    [discriminate |].
  exists front, lastl. exact E.
Qed.

Lemma emit_all_emit (r : LogRecord) (rs : list LogRecord) (w : World) :
  emit_all rs (emit r w) = emit_all (r :: rs) w.
Proof.
  unfold emit_all, emit. cbn. rewrite <- app_assoc. reflexivity.
Qed.

Lemma emit_all_nil (w : World) : emit_all [] w = w.
Proof. destruct w. unfold emit_all. cbn. rewrite app_nil_r. reflexivity. Qed.

Lemma index_middle {A : Type} (l1 l2 : list A) (x : A) :
  index (l1 ++ x :: l2) (length l1) = Ok x.
Proof. unfold index. rewrite list_lookup_middle by reflexivity. reflexivity. Qed.

(** The first loop computes [examine]. *)
Lemma scan_lines_examine (mid : list string) :
  forall (pre post : list string) (acc : list nat) (w : World),
    scan_lines (pre ++ mid ++ post) (seq (length pre) (length mid)) acc w
    = '(idx, ks, ws) ← examine (length pre) mid;
      Ok (acc ++ idx, emit_all ws w).
Proof.
  induction mid as [| line mid IH]; intros pre post acc w.
  - cbn. rewrite app_nil_r, emit_all_nil. reflexivity.
  - cbn [length seq scan_lines examine].
    rewrite <- !app_comm_cons.
    rewrite index_middle.
    cbn [mbind result_bind].
    fold (blank_or_comment line).
    assert (Hnext : forall acc' w',
               scan_lines (pre ++ line :: mid ++ post)
                 (seq (S (length pre)) (length mid)) acc' w'
               = '(idx, ks, ws) ← examine (S (length pre)) mid;
                 Ok (acc' ++ idx, emit_all ws w')).
    { intros acc' w'. specialize (IH (pre ++ [line]) post acc' w').
      rewrite length_app in IH. cbn [length] in IH.
      rewrite Nat.add_1_r in IH. rewrite <- app_assoc in IH. exact IH. }
    destruct (blank_or_comment line).
    + rewrite Hnext.
      destruct (examine (S (length pre)) mid) as [[[idx ks] ws] | e];
        cbn [mbind result_bind]; [| reflexivity].
      rewrite <- app_assoc. reflexivity.
    + destruct (index (Py.split_ws line) 0) as [first | e];
        cbn [mbind result_bind]; [| reflexivity].
      destruct (negb (str_in first CONST.CMDSCRIPT_COMMANDS)); rewrite Hnext;
        (destruct (examine (S (length pre)) mid) as [[[idx ks] ws] | e];
         cbn [mbind result_bind]; [| reflexivity]).
      * rewrite <- app_assoc, emit_all_emit. reflexivity.
      * reflexivity.
Qed.

(** The second loop, on the indices of [examine], leaves the lines that
    stay. *)
Lemma remove_lines_examine (mid : list string) :
  forall (k removed : nat) (pre post : list string) (idx : list nat)
         (ks : list string) (ws : list LogRecord),
    examine k mid = Ok (idx, ks, ws) ->
    k = removed + length pre ->
    remove_lines idx removed (pre ++ mid ++ post) = pre ++ ks ++ post.
Proof.
  induction mid as [| line mid IH]; intros k removed pre post idx ks ws He Hk.
  - cbn in He. inversion He; subst. reflexivity.
  - cbn [examine] in He.
    destruct (blank_or_comment line).
    + destruct (examine (S k) mid) as [[[idx' ks'] ws'] | e] eqn:Hrest;
        cbn [mbind result_bind] in He; [| discriminate].
      inversion He; subst. cbn [remove_lines].
      replace (removed + length pre - removed) with (length pre) by lia.
      cbn [app]. rewrite delete_middle.
      apply (IH (S (removed + length pre)) (removed + 1) pre post idx' ks ws Hrest).
      lia.
    + destruct (index (Py.split_ws line) 0) as [first | e];
        cbn [mbind result_bind] in He; [| discriminate].
      destruct (examine (S k) mid) as [[[idx' ks'] ws'] | e] eqn:Hrest;
        cbn [mbind result_bind] in He; [| discriminate].
      destruct (negb (str_in first CONST.CMDSCRIPT_COMMANDS));
        inversion He; subst.
      * cbn [remove_lines].
        replace (removed + length pre - removed) with (length pre) by lia.
        cbn [app]. rewrite delete_middle.
        apply (IH (S (removed + length pre)) (removed + 1) pre post idx' ks ws'
                 Hrest).
        lia.
      * specialize (IH (S (removed + length pre)) removed (pre ++ [line]) post
                      idx ks' ws Hrest).
        rewrite <- !app_assoc in IH. cbn [app] in *. apply IH.
        rewrite length_app. cbn. lia.
Qed.

(** Lines 355-376: the last line of the text stays whatever it holds,
    the lines before it are examined. *)
Lemma retained_lines_examine (text : string) (w : World)
    (front : list string) (lastl : string) :
  Py.split Py.LF (Py.replace_crlf text) = front ++ [lastl] ->
  retained_lines text w
  = '(idx, ks, ws) ← examine 0 front; Ok (ks ++ [lastl], emit_all ws w).
Proof.
  intros Hsplit. unfold retained_lines. rewrite Hsplit.
  rewrite length_app. cbn [length]. rewrite Nat.add_sub.
  pose proof (scan_lines_examine front [] [lastl] [] w) as Hscan.
  cbn [length app] in Hscan. rewrite Hscan.
  destruct (examine 0 front) as [[[idx ks] ws] | e] eqn:He;
    cbn [mbind result_bind]; [| reflexivity].
  pose proof (remove_lines_examine front 0 0 [] [lastl] idx ks ws He eq_refl)
    as Hrm.
  cbn [app] in Hrm. rewrite Hrm. reflexivity.
Qed.

(** On the lines it examines the first loop does what is meant: blank
    lines, comments and unknown keywords go, the latter with one warning
    each, and the other lines stay in order. *)
Lemma examine_filters (lines : list string) :
  forall (k : nat) (idx : list nat) (ks : list string) (ws : list LogRecord),
    examine k lines = Ok (idx, ks, ws) ->
    ks = List.filter stays lines
    /\ ws = warn_unexpected <$> List.filter unknown_keyword lines.
Proof.
  induction lines as [| line lines IH]; intros k idx ks ws; cbn [examine].
  - intros H; inversion H; subst. split; reflexivity.
  - unfold stays, unknown_keyword. cbn [List.filter]. unfold index.
    destruct (blank_or_comment line); cbn [negb andb].
    + destruct (examine (S k) lines) as [[[idx' ks'] ws'] | e] eqn:Hrest;
        cbn [mbind result_bind]; [| intros; discriminate].
      intros H; inversion H; subst. apply (IH _ _ _ _ Hrest).
    + destruct (Py.split_ws line) as [| first rest]; cbn [lookup list_lookup];
        cbn [mbind result_bind]; [intros; discriminate |].
      destruct (examine (S k) lines) as [[[idx' ks'] ws'] | e] eqn:Hrest;
        cbn [mbind result_bind]; [| intros; discriminate].
      destruct (IH _ _ _ _ Hrest) as [Hks Hws].
      destruct (negb (str_in first CONST.CMDSCRIPT_COMMANDS));
        intros H; inversion H; subst; cbn [negb fmap list_fmap];
        split; reflexivity.
Qed.

(** The lines that become commands: those before the last that stay,
    and the last. *)
Lemma retained_lines_filter (text : string) (w w' : World)
    (front lines : list string) (lastl : string) :
  Py.split Py.LF (Py.replace_crlf text) = front ++ [lastl] ->
  retained_lines text w = Ok (lines, w') ->
  lines = List.filter stays front ++ [lastl]
  /\ records w'
     = records w ++ (warn_unexpected <$> List.filter unknown_keyword front).
Proof.
  intros Hs H. rewrite (retained_lines_examine text w front lastl Hs) in H.
  destruct (examine 0 front) as [[[idx ks] ws] | e] eqn:He;
    cbn [mbind result_bind] in H; [| discriminate].
  destruct (examine_filters _ _ _ _ _ He) as [-> ->].
  inversion H; subst. split; reflexivity.
Qed.

Lemma command_of_line_raw (line : string) :
  command_of_line line = Ok (as_command (raw_of_line line)).
Proof.
  unfold command_of_line, raw_of_line.
  destruct (split_cons Py.SP line) as (first & rest & ->). reflexivity.
Qed.

Lemma append_commands_nil (w : World) : append_commands [] w = w.
Proof.
  destruct w as [c recs]. destruct c.
  unfold append_commands, on_config, set_commands. cbn.
  rewrite app_nil_r. reflexivity.
Qed.

Lemma append_commands_app (l1 l2 : list Command) (w : World) :
  append_commands l2 (append_commands l1 w) = append_commands (l1 ++ l2) w.
Proof.
  unfold append_commands, on_config, set_commands. cbn.
  rewrite <- app_assoc. reflexivity.
Qed.

(** The third loop: one command per line, in order, behind those that
    are already there. *)
Lemma populate_raw (lines : list string) :
  forall w : World,
    populate lines w
    = Ok (append_commands (as_command <$> (raw_of_line <$> lines)) w).
Proof.
  induction lines as [| line lines IH]; intros w; cbn [populate fmap list_fmap].
  - rewrite append_commands_nil. reflexivity.
  - rewrite command_of_line_raw. cbn [mbind result_bind].
    fold (append_commands [as_command (raw_of_line line)] w).
    rewrite IH, append_commands_app. reflexivity.
Qed.

Lemma tokenize_raw (text : string) (w w0 : World) (lines : list string) :
  retained_lines text w = Ok (lines, w0) ->
  tokenize text w
  = Ok (append_commands (as_command <$> (raw_of_line <$> lines)) w0).
Proof.
  intros H. unfold tokenize. rewrite H. cbn [mbind result_bind].
  apply populate_raw.
Qed.

(** ** Cutting a line at single spaces (C8) *)

Lemma concat_cons2 (sep h t1 : string) (t : list string) :
  String.concat sep (h :: t1 :: t)
  = (h ++ sep ++ String.concat sep (t1 :: t))%string.
Proof. reflexivity. Qed.

(** Joining what [split] cut gives the text back. *)
Lemma join_split (sep : ascii) (s : string) :
  Py.join (String sep EmptyString) (Py.split sep s) = s.
Proof.
  unfold Py.join.
  induction s as [| c s IH]; [reflexivity |].
  cbn [Py.split].
  destruct (split_cons sep s) as (first & rest & E). rewrite E in *.
  destruct (Ascii.eqb_spec c sep) as [-> | NE].
  - rewrite concat_cons2, IH. reflexivity.
  - destruct rest as [| r rest].
    + cbn in IH. subst first. reflexivity.
    + rewrite concat_cons2 in *. cbn [String.append] in *. rewrite IH. reflexivity.
Qed.

Lemma split_no_sep (sep : ascii) (s : string) :
  Forall (fun tok => existsb (Ascii.eqb sep) (list_ascii_of_string tok) = false)
    (Py.split sep s).
Proof.
  induction s as [| c s IH]; cbn [Py.split].
  - repeat constructor.
  - destruct (Ascii.eqb_spec c sep) as [-> | NE].
    + constructor; [reflexivity | exact IH].
    + destruct (Py.split sep s) as [| first rest]; [repeat constructor |].
      * cbn. destruct (Ascii.eqb_spec sep c); [congruence | reflexivity].
      * inversion IH as [| ? ? Hf Hr]; subst. constructor; [| exact Hr].
        cbn. destruct (Ascii.eqb_spec sep c); [congruence | exact Hf].
Qed.

Lemma split_ws_nonempty (s : string) :
  Forall (fun tok => tok <> EmptyString) (Py.split_ws s).
Proof.
  induction s as [| c s IH]; cbn [Py.split_ws]; [constructor |].
  destruct (Py.isspace c); [exact IH |].
  destruct s as [| c2 s2]; [repeat constructor; discriminate |].
  destruct (Py.isspace c2); [constructor; [discriminate | exact IH] |].
  destruct (Py.split_ws (String c2 s2)) as [| first rest];
    [repeat constructor; discriminate |].
  inversion IH; subst. constructor; [discriminate | assumption].
Qed.

Lemma isspace_SP : Py.isspace Py.SP = true.
Proof. reflexivity. Qed.

(** On a line of tokens separated by single spaces the two ways of
    splitting agree. *)
Lemma split_spaced (s : string) :
  (spaced true s = true -> Py.split Py.SP s = Py.split_ws s)
  /\ (spaced false s = true ->
      forall c, Ascii.eqb c Py.SP = false -> Py.isspace c = false ->
        Py.split Py.SP (String c s) = Py.split_ws (String c s)).
Proof.
  induction s as [| c2 s2 [IHt IHf]].
  - split; [discriminate |]. intros _ c Hsp Hc.
    cbn. rewrite Hsp, Hc. reflexivity.
  - assert (Hfirst : spaced true (String c2 s2) = true ->
                     Py.split Py.SP (String c2 s2) = Py.split_ws (String c2 s2)).
    { cbn [spaced]. destruct (Ascii.eqb c2 Py.SP) eqn:E2; [discriminate |].
      intros H. apply andb_true_iff in H as [Hc2 Hrest].
      apply negb_true_iff in Hc2. apply (IHf Hrest c2 E2 Hc2). }
    split; [exact Hfirst |].
    intros H c Hsp Hc.
    cbn [spaced] in H.
    destruct (Ascii.eqb_spec c2 Py.SP) as [-> | NE].
    + cbn [negb andb] in H.
      change (Py.split Py.SP (String c (String Py.SP s2)))
        with (if Ascii.eqb c Py.SP then EmptyString :: Py.split Py.SP (String Py.SP s2)
              else match Py.split Py.SP (String Py.SP s2) with
                   | w :: ws => String c w :: ws
                   | [] => [String c EmptyString]
                   end).
      rewrite Hsp. cbn [Py.split]. cbn [Ascii.eqb Py.SP Bool.eqb].
      cbn [Py.split_ws]. rewrite Hc, isspace_SP. rewrite (IHt H). reflexivity.
    + apply andb_true_iff in H as [Hc2 Hrest].
      assert (Hst : spaced true (String c2 s2) = true).
      { cbn [spaced]. destruct (Ascii.eqb_spec c2 Py.SP); [contradiction |].
        rewrite Hc2, Hrest. reflexivity. }
      specialize (Hfirst Hst).
      change (Py.split Py.SP (String c (String c2 s2)))
        with (if Ascii.eqb c Py.SP then EmptyString :: Py.split Py.SP (String c2 s2)
              else match Py.split Py.SP (String c2 s2) with
                   | w :: ws => String c w :: ws
                   | [] => [String c EmptyString]
                   end).
      rewrite Hsp, Hfirst.
      apply negb_true_iff in Hc2.
      change (Py.split_ws (String c (String c2 s2)))
        with (if Py.isspace c then Py.split_ws (String c2 s2)
              else if Py.isspace c2
                   then String c EmptyString :: Py.split_ws (String c2 s2)
                   else match Py.split_ws (String c2 s2) with
                        | w :: ws => String c w :: ws
                        | [] => [String c EmptyString]
                        end).
      rewrite Hc, Hc2. reflexivity.
Qed.

(** C8 as stated fails on a line with two spaces after the keyword,
    whose first argument is the empty string where splitting at
    whitespace gives none, and on a line with a tab after the keyword,
    where the tab does not end the first token. *)
Lemma C8_two_spaces_give_an_empty_argument :
  (exists w,
     tokenize two_spaces_line world0 = Ok w
     /\ commands (config w)
        = [ {| cmd := "PUB";
               args := [PStr ""; PStr "0"; PStr "a/b"; PStr (quoted "x")] |} ])
  /\ Py.split_ws two_spaces_line = ["PUB"; "0"; "a/b"; quoted "x"]
  /\ (exists w,
        tokenize tab_line world0 = Ok w
        /\ commands (config w)
           = [ {| cmd := tab_keyword; args := [PStr "a/b"; PStr (quoted "x")] |} ])
  /\ Py.split_ws tab_line = ["PUB"; "0"; "a/b"; quoted "x"].
Proof.
  split; [| split; [| split]].
  - eexists. split; [vm_compute; reflexivity | reflexivity].
  - reflexivity.
  - eexists. split; [vm_compute; reflexivity | reflexivity].
  - reflexivity.
Qed.

(** C8, as the code has it.  Every retained line becomes the command
    [raw_of_line] of it.  Its arguments are the tokens after the first
    of the line cut at every single space: first token and arguments
    joined by single spaces are the line again, and no argument holds a
    space.  On a line of non-empty tokens separated by single spaces,
    with no other whitespace, the arguments are the whitespace-split
    tokens after the first, none of them empty. *)
Theorem C8_arguments_are_the_tokens_between_single_spaces :
  (forall (text : string) (w w0 : World) (lines : list string),
      retained_lines text w = Ok (lines, w0) ->
      tokenize text w
      = Ok (append_commands (as_command <$> (raw_of_line <$> lines)) w0))
  /\ (forall line : string,
         exists first,
           Py.split Py.SP line = first :: arguments (raw_of_line line)
           /\ keyword (raw_of_line line) = Py.upper first
           /\ Py.join " " (first :: arguments (raw_of_line line)) = line
           /\ Forall (fun a => has_space a = false) (arguments (raw_of_line line)))
  /\ (forall line : string,
         well_spaced line = true ->
         exists first,
           Py.split_ws line = first :: arguments (raw_of_line line)
           /\ Forall (fun a => a <> EmptyString) (arguments (raw_of_line line))).
Proof.
  split; [exact tokenize_raw | split].
  - intros line. unfold raw_of_line.
    pose proof (join_split Py.SP line) as Hjoin.
    pose proof (split_no_sep Py.SP line) as Hsp.
    destruct (split_cons Py.SP line) as (first & rest & E). rewrite E in *.
    exists first. cbn [arguments keyword].
    split; [reflexivity |]. split; [reflexivity |]. split; [exact Hjoin |].
    inversion Hsp; subst. assumption.
  - intros line Hw. unfold raw_of_line.
    pose proof (proj1 (split_spaced line) Hw) as Heq.
    pose proof (split_ws_nonempty line) as Hne.
    destruct (split_cons Py.SP line) as (first & rest & E). rewrite E in *.
    exists first. cbn [arguments]. rewrite <- Heq in *.
    split; [reflexivity |]. inversion Hne; subst. assumption.
Qed.

Lemma C8_arguments_are_the_tokens_between_single_spaces_witness :
  tokenize "PUB 0 a/b" world0
  = Ok (append_commands (as_command <$> (raw_of_line <$> ["PUB 0 a/b"])) world0)
  /\ (exists first,
         Py.split_ws "PUB 0 a/b" = first :: arguments (raw_of_line "PUB 0 a/b")
         /\ Forall (fun a => a <> EmptyString) (arguments (raw_of_line "PUB 0 a/b"))).
Proof.
  split.
  - apply (proj1 C8_arguments_are_the_tokens_between_single_spaces
             "PUB 0 a/b" world0 world0 ["PUB 0 a/b"]).
    vm_compute. reflexivity.
  - apply (proj2 (proj2 C8_arguments_are_the_tokens_between_single_spaces)
             "PUB 0 a/b").
    vm_compute. reflexivity.
Defined.

(** ** The passes on any command list *)

Lemma cfg_one_commands (c : Command) (w w' : World) :
  cfg_one c w = Ok w' ->
  commands (config w') = commands (config w)
  /\ steps_to_execute (config w') = steps_to_execute (config w).
Proof.
  unfold cfg_one, cfg_yes_no. branches; split; reflexivity.
Qed.

Lemma cfg_loop_commands (todo : list Command) :
  forall w w' : World,
    cfg_loop todo w = Ok w' ->
    commands (config w') = commands (config w)
    /\ steps_to_execute (config w') = steps_to_execute (config w).
Proof.
  induction todo as [| c todo IH]; intros w w'; cbn [cfg_loop].
  - intros H; inversion H; subst. split; reflexivity.
  - destruct (cfg_one c w) as [w1 | e] eqn:H1; cbn [mbind result_bind];
      [| intros; discriminate].
    intros H. destruct (IH _ _ H) as [-> ->]. apply (cfg_one_commands _ _ _ H1).
Qed.

Lemma step_one_length (i : nat) (c : Command) (w w' : World) (f : flow) :
  step_one i c w = Ok (f, w') ->
  length (commands (config w')) = length (commands (config w)).
Proof.
  unfold step_one. branches; cbn; rewrite ?length_insert; reflexivity.
Qed.

Lemma steps_loop_length (n : nat) :
  forall (i : nat) (w w' : World),
    steps_loop n i w = Ok w' ->
    length (commands (config w')) = length (commands (config w)).
Proof.
  induction n as [| n IH]; intros i w w'; cbn [steps_loop].
  - intros H; inversion H; subst. reflexivity.
  - destruct (commands (config w) !! i) as [c |];
      [| intros H; inversion H; subst; reflexivity].
    destruct (step_one i c w) as [[[|] w1] | e] eqn:H1; cbn [mbind result_bind];
      [| | intros; discriminate].
    + intros H. rewrite (IH _ _ _ H). apply (step_one_length _ _ _ _ _ H1).
    + intros H; inversion H; subst. apply (step_one_length _ _ _ _ _ H1).
Qed.

Lemma step_one_keeps (i : nat) (c : Command) (w w' : World) (f : flow) :
  step_one i c w = Ok (f, w') ->
  scalars (config w') = scalars (config w)
  /\ subscriptions (config w') = subscriptions (config w)
  /\ pub_each (config w') = pub_each (config w).
Proof.
  unfold step_one. branches; repeat split.
Qed.

Lemma steps_loop_keeps (n : nat) :
  forall (i : nat) (w w' : World),
    steps_loop n i w = Ok w' ->
    scalars (config w') = scalars (config w)
    /\ subscriptions (config w') = subscriptions (config w)
    /\ pub_each (config w') = pub_each (config w).
Proof.
  induction n as [| n IH]; intros i w w'; cbn [steps_loop].
  - intros H; inversion H; subst. repeat split.
  - destruct (commands (config w) !! i) as [c |];
      [| intros H; inversion H; subst; repeat split].
    destruct (step_one i c w) as [[[|] w1] | e] eqn:H1; cbn [mbind result_bind];
      [| | intros; discriminate].
    + intros H. destruct (IH _ _ _ H) as (-> & -> & ->).
      apply (step_one_keeps _ _ _ _ _ H1).
    + intros H; inversion H; subst. apply (step_one_keeps _ _ _ _ _ H1).
Qed.

Lemma step_one_extends (i : nat) (c : Command) (w w' : World) (f : flow) :
  step_one i c w = Ok (f, w') ->
  exists more,
    steps_to_execute (config w') = steps_to_execute (config w) ++ more.
Proof.
  unfold step_one. branches;
    first [ exists []; cbn; rewrite app_nil_r; reflexivity
          | eexists; cbn; reflexivity
          | eexists; cbn; rewrite <- app_assoc; reflexivity ].
Qed.

Lemma steps_loop_extends (n : nat) :
  forall (i : nat) (w w' : World),
    steps_loop n i w = Ok w' ->
    exists more,
      steps_to_execute (config w') = steps_to_execute (config w) ++ more.
Proof.
  induction n as [| n IH]; intros i w w'; cbn [steps_loop].
  - intros H; inversion H; subst. exists []. rewrite app_nil_r. reflexivity.
  - destruct (commands (config w) !! i) as [c |];
      [| intros H; inversion H; subst; exists []; rewrite app_nil_r; reflexivity].
    destruct (step_one i c w) as [[[|] w1] | e] eqn:H1; cbn [mbind result_bind];
      [| | intros; discriminate].
    + intros H. destruct (IH _ _ _ H) as [m2 ->].
      destruct (step_one_extends _ _ _ _ _ H1) as [m1 ->].
      exists (m1 ++ m2). rewrite app_assoc. reflexivity.
    + intros H; inversion H; subst. apply (step_one_extends _ _ _ _ _ H1).
Qed.

(** ** Last-wins assignments *)

Lemma override_merge (later earlier : Updates) (s : Scalars) :
  override later (override earlier s) = override (merge later earlier) s.
Proof.
  destruct later as [a1 a2 a3 a4 a5 a6 a7 a8 a9 a10]. unfold override, merge.
  cbn. f_equal;
    match goal with
    | |- context [or_else ?x _] => destruct x; reflexivity
    end.
Qed.

Lemma override_twice (u : Updates) (s : Scalars) :
  override u (override u s) = override u s.
Proof.
  destruct u as [a1 a2 a3 a4 a5 a6 a7 a8 a9 a10]. unfold override. cbn.
  f_equal;
    match goal with
    | |- default _ ?x = _ => destruct x; reflexivity
    end.
Qed.

Lemma settle_override (rs : list RawCommand) :
  forall (u : Updates) (s : Scalars),
    settle rs (override u s)
    = override (fold_left (fun u r => merge (updates r) u) rs u) s.
Proof.
  unfold settle.
  induction rs as [| r rs IH]; intros u s; cbn [fold_left]; [reflexivity |].
  rewrite override_merge. apply IH.
Qed.

(** Making the assignments of a command list a second time changes
    nothing. *)
Lemma settle_twice (rs : list RawCommand) (s : Scalars) :
  settle rs (settle rs s) = settle rs s.
Proof.
  assert (H : forall t, settle rs t
                        = override (fold_left (fun u r => merge (updates r) u)
                                      rs no_update) t).
  { intros t. rewrite <- (override_no_update t) at 1. apply settle_override. }
  rewrite !H. apply override_twice.
Qed.

Lemma settle_app (rs1 rs2 : list RawCommand) (s : Scalars) :
  settle (rs1 ++ rs2) s = settle rs2 (settle rs1 s).
Proof. unfold settle. apply fold_left_app. Qed.

(** ** A second parse (C2) *)

(** The configuration pass does not see what the step pass rewrote. *)
Lemma cfg_one_rewritten (r : RawCommand) (w : World) :
  cfg_one (rewritten r) w = cfg_one (as_command r) w.
Proof.
  unfold rewritten, compiled.
  destruct (step_grammar r); try reflexivity.
  destruct r as [kw ws]. cbn [keyword arguments].
  keyword_case kw "DISCONNECT"; [reflexivity |].
  keyword_case kw "PUB"; [destruct ws as [| a [| b ms]]; reflexivity |].
  destruct (is_delay kw) eqn:Hd; [| reflexivity].
  destruct ws as [| a ms]; [reflexivity |].
  destruct (is_delay_cases kw Hd) as [-> | [-> | ->]]; reflexivity.
Qed.

Lemma cfg_loop_rewritten (pre : list RawCommand) (rest : list Command) :
  forall w : World,
    cfg_loop ((rewritten <$> pre) ++ rest) w
    = cfg_loop ((as_command <$> pre) ++ rest) w.
Proof.
  induction pre as [| r pre IH]; intros w; [reflexivity |].
  cbn [fmap list_fmap app cfg_loop].
  change (PStr <$> arguments r) with (args (as_command r)).
  rewrite cfg_one_rewritten.
  destruct (cfg_one (as_command r) w) as [w1 | e]; cbn [mbind result_bind];
    [apply IH | reflexivity].
Qed.

Lemma sound_prefix_take_drop (g : RawCommand -> verdict) (rs : list RawCommand) :
  sound_prefix g rs ++ drop (length (sound_prefix g rs)) rs = rs.
Proof.
  induction rs as [| r rs IH]; cbn; [reflexivity |].
  destruct (violates g r); cbn; [reflexivity |]. rewrite IH. reflexivity.
Qed.

(** The tokenizer appends the commands of the text, at least one. *)
Lemma tokenize_script (text : string) (w w' : World) :
  tokenize text w = Ok w' ->
  exists (rs : list RawCommand) (ws : list LogRecord),
    script_commands text = Ok rs
    /\ 0 < length rs
    /\ w' = append_commands (as_command <$> rs) (emit_all ws w).
Proof.
  intros H.
  destruct (split_snoc Py.LF (Py.replace_crlf text)) as (front & lastl & Hs).
  unfold tokenize in H.
  rewrite (retained_lines_examine text w front lastl Hs) in H.
  unfold script_commands. rewrite Hs, removelast_last, last_last.
  destruct (examine 0 front) as [[[idx ks] ws] | e];
    cbn [mbind result_bind] in *; [| discriminate].
  rewrite populate_raw in H. inversion H; subst.
  exists (raw_of_line <$> ks ++ [lastl]), ws.
  split; [reflexivity |]. split; [| reflexivity].
  rewrite length_fmap, length_app. cbn. lia.
Qed.

Lemma parse_stages (text : string) (w w' : World) :
  cmdscript_parse text w = Ok w' ->
  exists wt wc,
    tokenize text w = Ok wt /\ build_config wt = Ok wc /\ compile_steps wc = Ok w'.
Proof.
  unfold cmdscript_parse.
  destruct (tokenize text w) as [wt | e] eqn:Ht; cbn [mbind result_bind];
    [| intros; discriminate].
  destruct (build_config wt) as [wc | e] eqn:Hb; cbn [mbind result_bind];
    [| intros; discriminate].
  intros H. exists wt, wc. split; [reflexivity |]. split; assumption.
Qed.

Lemma append_commands_fields (l : list Command) (rs : list LogRecord) (w : World) :
  commands (config (append_commands l (emit_all rs w))) = commands (config w) ++ l
  /\ scalars (config (append_commands l (emit_all rs w))) = scalars (config w)
  /\ subscriptions (config (append_commands l (emit_all rs w)))
     = subscriptions (config w)
  /\ pub_each (config (append_commands l (emit_all rs w))) = pub_each (config w).
Proof. repeat split. Qed.

(** One call of the parser on a configuration whose commands are raw up
    to what a step pass rewrote. *)
Lemma parse_on_rewritten (text : string) (w w' : World)
    (old : list RawCommand) (k : nat) :
  commands (config w) = (rewritten <$> take k old) ++ (as_command <$> drop k old) ->
  cmdscript_parse text w = Ok w' ->
  exists rs,
    script_commands text = Ok rs
    /\ 0 < length rs
    /\ length (commands (config w')) = length old + length rs
    /\ scalars (config w') = settle (old ++ rs) (scalars (config w))
    /\ subscriptions (config w')
       = subscriptions (config w) ++ omap subscription (old ++ rs)
    /\ pub_each (config w') = pub_each (config w) ++ omap periodic (old ++ rs).
Proof.
  intros Hold Hparse.
  destruct (parse_stages _ _ _ Hparse) as (wt & wc & Ht & Hb & Hc).
  destruct (tokenize_script _ _ _ Ht) as (rs & ws & Hrs & Hlen & ->).
  exists rs. split; [exact Hrs |]. split; [exact Hlen |].
  destruct (append_commands_fields (as_command <$> rs) ws w)
    as (Hcmd & Hsc & Hsub & Hpe).
  set (wt := append_commands (as_command <$> rs) (emit_all ws w)) in *.
  assert (Hraw : cfg_loop (as_command <$> (old ++ rs)) wt = Ok wc).
  { unfold build_config in Hb. rewrite Hcmd, Hold in Hb.
    rewrite <- app_assoc, cfg_loop_rewritten in Hb.
    rewrite app_assoc, <- fmap_app, take_drop, <- fmap_app in Hb. exact Hb. }
  destruct (cfg_loop_raw (old ++ rs) wt)
    as (wc' & Hrun & _ & _ & Hcmd' & _ & Hpe' & Hsub' & Hsc').
  assert (wc' = wc) as -> by congruence.
  unfold compile_steps in Hc.
  destruct (steps_loop_keeps _ _ _ _ Hc) as (Hsc2 & Hsub2 & Hpe2).
  pose proof (steps_loop_length _ _ _ _ Hc) as Hlen2.
  rewrite Hlen2, Hsc2, Hsub2, Hpe2, Hcmd', Hpe', Hsub', Hsc', Hcmd, Hsc, Hsub, Hpe.
  rewrite Hold, !length_app, !length_fmap, length_take, length_drop.
  repeat split. lia.
Qed.

Lemma parse_extends_steps (text : string) (w w' : World) :
  cmdscript_parse text w = Ok w' ->
  exists more,
    steps_to_execute (config w') = steps_to_execute (config w) ++ more.
Proof.
  intros Hparse.
  destruct (parse_stages _ _ _ Hparse) as (wt & wc & Ht & Hb & Hc).
  destruct (tokenize_script _ _ _ Ht) as (rs & ws & _ & _ & ->).
  destruct (cfg_loop_commands _ _ _ Hb) as [_ Hst].
  destruct (steps_loop_extends _ _ _ _ Hc) as [more Hmore].
  exists more. rewrite Hmore, Hst. reflexivity.
Qed.

Lemma sound_prefix_take (g : RawCommand -> verdict) (rs : list RawCommand) :
  take (length (sound_prefix g rs)) rs = sound_prefix g rs.
Proof.
  rewrite <- (sound_prefix_take_drop g rs) at 2.
  rewrite take_app_length. reflexivity.
Qed.

(** The command list after a parse that started from the initial
    configuration. *)
Lemma first_parse_commands (text : string) (w1 : World) :
  cmdscript_parse text world0 = Ok w1 ->
  exists (rs : list RawCommand) (k : nat),
    script_commands text = Ok rs
    /\ commands (config w1)
       = (rewritten <$> take k rs) ++ (as_command <$> drop k rs).
Proof.
  intros Hparse.
  destruct (parse_stages _ _ _ Hparse) as (wt & wc & Ht & Hb & Hc).
  destruct (tokenize_script _ _ _ Ht) as (rs & ws & Hrs & _ & ->).
  exists rs, (length (sound_prefix step_grammar rs)).
  split; [exact Hrs |].
  assert (Hcmd : commands (config wc) = as_command <$> rs).
  { destruct (cfg_loop_commands _ _ _ Hb) as [-> _]. reflexivity. }
  unfold compile_steps in Hc.
  rewrite (steps_loop_raw rs [] wc _ Hcmd) in Hc
    by (rewrite Hcmd, length_fmap; lia).
  inversion Hc; subst. rewrite sound_prefix_take.
  destruct (first_violation step_grammar rs); reflexivity.
Qed.

Lemma compiled_cmd (r : RawCommand) (c : Command) :
  compiled r = Some c -> cmd c = keyword r.
Proof.
  unfold compiled. destruct (step_grammar r); try discriminate.
  destruct (keyword r =? "DISCONNECT")%string;
    [intros H; inversion H; reflexivity |].
  destruct (keyword r =? "PUB")%string.
  - destruct (arguments r) as [| a [| b ms]]; try discriminate.
    intros H; inversion H; reflexivity.
  - destruct (is_delay (keyword r)); [| discriminate].
    destruct (arguments r) as [| a ms]; try discriminate.
    intros H; inversion H; reflexivity.
Qed.

(** Commands whose steps are all [DISCONNECT] steps were not rewritten. *)
Lemma rewritten_only_disconnect (rs : list RawCommand) :
  Forall (fun c => cmd c = "DISCONNECT") (omap compiled rs) ->
  rewritten <$> rs = as_command <$> rs.
Proof.
  induction rs as [| r rs IH]; intros H; [reflexivity |].
  cbn [fmap list_fmap omap list_omap] in *.
  change (PStr <$> arguments r) with (args (as_command r)).
  unfold rewritten at 1.
  destruct (compiled r) as [c |] eqn:Hc.
  - inversion H as [| ? ? Hd Hrest]; subst.
    rewrite (compiled_cmd r c Hc) in Hd.
    rewrite (rewritten_disconnect r Hd) in Hc. injection Hc as <-.
    f_equal. apply IH. exact Hrest.
  - f_equal. apply IH. exact H.
Qed.

(** The tokenizer does not look at the configuration. *)
Lemma tokenize_returns (text : string) (w w' v : World) :
  tokenize text w = Ok w' -> exists v', tokenize text v = Ok v'.
Proof.
  destruct (split_snoc Py.LF (Py.replace_crlf text)) as (front & lastl & Hs).
  unfold tokenize.
  rewrite !(retained_lines_examine text _ front lastl Hs).
  destruct (examine 0 front) as [[[idx ks] ws] | e];
    cbn [mbind result_bind]; [| intros; discriminate].
  intros _. rewrite populate_raw. eauto.
Qed.

(** A second parse returns when the first compiled no publish and no
    delay step. *)
Lemma second_parse_returns (text : string) (w1 : World) :
  cmdscript_parse text world0 = Ok w1 ->
  Forall (fun c => cmd c = "DISCONNECT") (steps_to_execute (config w1)) ->
  exists w2, cmdscript_parse text w1 = Ok w2.
Proof.
  intros H1 Hsteps.
  destruct (parse_stages _ _ _ H1) as (wt & wc & Ht & Hb & Hc).
  destruct (tokenize_script _ _ _ Ht) as (rs & ws & Hrs & _ & ->).
  assert (Hcmd : commands (config wc) = as_command <$> rs).
  { destruct (cfg_loop_commands _ _ _ Hb) as [-> _]. reflexivity. }
  assert (Hst : steps_to_execute (config wc) = []).
  { destruct (cfg_loop_commands _ _ _ Hb) as [_ ->]. reflexivity. }
  unfold compile_steps in Hc.
  rewrite (steps_loop_raw rs [] wc _ Hcmd) in Hc
    by (rewrite Hcmd, length_fmap; lia).
  assert (Hw1 : commands (config w1) = as_command <$> rs
                /\ steps_to_execute (config w1)
                   = omap compiled (sound_prefix step_grammar rs)).
  { inversion Hc; subst.
    assert (Hpre : Forall (fun c => cmd c = "DISCONNECT")
                     (omap compiled (sound_prefix step_grammar rs))).
    { destruct (first_violation step_grammar rs); cbn in Hsteps;
        rewrite Hst in Hsteps; exact Hsteps. }
    destruct (first_violation step_grammar rs); cbn; rewrite Hst; cbn;
      rewrite (rewritten_only_disconnect _ Hpre), <- fmap_app,
        sound_prefix_take_drop; split; reflexivity. }
  destruct Hw1 as [Hcmd1 _].
  destruct (tokenize_returns text _ _ w1 Ht) as [wt2 Ht2].
  destruct (tokenize_script _ _ _ Ht2) as (rs2 & ws2 & Hrs2 & _ & ->).
  assert (rs2 = rs) as -> by congruence.
  unfold cmdscript_parse. rewrite Ht2. cbn [mbind result_bind].
  set (wt2 := append_commands (as_command <$> rs) (emit_all ws2 w1)).
  assert (Hcmd2 : commands (config wt2) = as_command <$> (rs ++ rs)).
  { unfold wt2. cbn. rewrite Hcmd1, fmap_app. reflexivity. }
  destruct (build_config_raw _ wt2 Hcmd2) as (wc2 & Hb2 & _ & _ & Hc2 & _).
  rewrite Hb2. cbn [mbind result_bind].
  rewrite Hcmd2 in Hc2.
  destruct (compile_steps_raw _ wc2 Hc2) as (w2 & Hrun & _).
  exists w2. exact Hrun.
Qed.

(** C2 as stated fails: after a second parse of a one-line script the
    command list has four elements where it had two, and the
    subscription list three where it had one. *)
Lemma C2_second_parse_differs :
  exists w1 w2,
    cmdscript_parse sub_script world0 = Ok w1
    /\ cmdscript_parse sub_script w1 = Ok w2
    /\ length (commands (config w1)) = 2
    /\ length (commands (config w2)) = 4
    /\ length (subscriptions (config w1)) = 1
    /\ length (subscriptions (config w2)) = 3
    /\ commands (config w2) <> commands (config w1)
    /\ subscriptions (config w2) <> subscriptions (config w1).
Proof.
  eexists. eexists.
  split; [vm_compute; reflexivity |].
  split; [vm_compute; reflexivity |].
  repeat split; discriminate.
Qed.

(** C2, as the code has it.  The parser works on the one module-level
    configuration and never resets it.  When two successive calls on
    the same text both return, the scalar settings after the second are
    those after the first; the command list is twice as long, so never
    the same; the subscriptions and the periodic publishes are there
    three times, the second call making the entries of the old commands
    again and those of the new ones; and the step list is extended, not
    rebuilt. *)
Theorem C2_a_second_parse_extends_the_configuration :
  forall (text : string) (w1 w2 : World),
    cmdscript_parse text world0 = Ok w1 ->
    cmdscript_parse text w1 = Ok w2 ->
    scalars (config w2) = scalars (config w1)
    /\ 0 < length (commands (config w1))
    /\ length (commands (config w2)) = 2 * length (commands (config w1))
    /\ commands (config w2) <> commands (config w1)
    /\ subscriptions (config w2)
       = subscriptions (config w1) ++ subscriptions (config w1)
         ++ subscriptions (config w1)
    /\ pub_each (config w2)
       = pub_each (config w1) ++ pub_each (config w1) ++ pub_each (config w1)
    /\ (exists more,
           steps_to_execute (config w2) = steps_to_execute (config w1) ++ more).
Proof.
  intros text w1 w2 H1 H2.
  destruct (first_parse_commands text w1 H1) as (rs & k & Hrs & Hform).
  destruct (parse_on_rewritten text world0 w1 [] 0 eq_refl H1)
    as (rs1 & Hrs1 & Hpos & Hlen1 & Hsc1 & Hsub1 & Hpe1).
  assert (rs1 = rs) as -> by congruence.
  destruct (parse_on_rewritten text w1 w2 rs k Hform H2)
    as (rs2 & Hrs2 & _ & Hlen2 & Hsc2 & Hsub2 & Hpe2).
  assert (rs2 = rs) as -> by congruence.
  cbn [app length] in *.
  split.
  { rewrite Hsc2, Hsc1, settle_app, !settle_twice. reflexivity. }
  split; [lia |]. split; [lia |].
  split.
  { intros E. rewrite E in Hlen2. lia. }
  rewrite Hsub2, Hpe2, !omap_app, Hsub1, Hpe1. cbn [app].
  split; [reflexivity |]. split; [reflexivity |].
  apply (parse_extends_steps text w1 w2 H2).
Qed.

Lemma C2_a_second_parse_extends_the_configuration_witness :
  exists w1 w2,
    cmdscript_parse sub_script world0 = Ok w1
    /\ cmdscript_parse sub_script w1 = Ok w2
    /\ scalars (config w2) = scalars (config w1)
    /\ 0 < length (commands (config w1))
    /\ length (commands (config w2)) = 2 * length (commands (config w1)).
Proof.
  destruct (cmdscript_parse sub_script world0) as [w1 | e] eqn:H1;
    [| vm_compute in H1; discriminate H1].
  destruct (cmdscript_parse sub_script w1) as [w2 | e] eqn:H2;
    [| vm_compute in H1; injection H1 as <-; vm_compute in H2; discriminate H2].
  exists w1, w2.
  destruct (C2_a_second_parse_extends_the_configuration sub_script w1 w2 H1 H2)
    as (Hsc & Hpos & Hlen & _).
  repeat split; assumption.
Defined.

(** A second parse does not return when the first compiled a delay
    step: the rewritten argument is an integer, on which [is_int]
    raises. *)
Example second_parse_after_a_delay_raises :
  exists w1,
    cmdscript_parse delay_script world0 = Ok w1
    /\ cmdscript_parse delay_script w1 = Raise TypeError.
Proof.
  eexists. split; [vm_compute; reflexivity | vm_compute; reflexivity].
Qed.

(** ** Keyword case (C1) *)

(** C1.  The test of line 368 compares the first token as written with
    the upper-case keywords; only line 381 upper-cases it.  A lower-case
    [pub] line that is not the last line of the text is dropped with a
    warning and compiles to no step, while the same line with [PUB]
    compiles to a publish step.  The two lines have the same command,
    but only the second stays. *)
Theorem C1_lower_case_keyword_line_is_dropped :
  (exists w,
     cmdscript_parse pub_upper_script world0 = Ok w
     /\ steps_to_execute (config w) = [pub_step]
     /\ records w = [])
  /\ (exists w,
        cmdscript_parse pub_lower_script world0 = Ok w
        /\ commands (config w) = [ {| cmd := ""; args := [] |} ]
        /\ steps_to_execute (config w) = []
        /\ records w = [warn_unexpected pub_lower_line])
  /\ raw_of_line pub_lower_line = raw_of_line pub_upper_line
  /\ stays pub_upper_line = true
  /\ stays pub_lower_line = false.
Proof.
  split; [| split; [| split; [| split]]].
  - eexists. split; [vm_compute; reflexivity |]. split; reflexivity.
  - eexists. split; [vm_compute; reflexivity |].
    split; [reflexivity |]. split; reflexivity.
  - reflexivity.
  - reflexivity.
  - reflexivity.
Qed.

(** As the last line of a text, which the first loop does not see, the
    lower-case line compiles like the upper-case one. *)
Example lower_case_keyword_on_the_last_line :
  cmdscript_parse pub_lower_line world0 = cmdscript_parse pub_upper_line world0.
Proof. vm_compute. reflexivity. Qed.

(** ** The first periodic publish (C3) *)

(** Every entry the parser makes starts with the class attribute. *)
Lemma periodic_time_last_pub (r : RawCommand) (e : ConfigPublishEach.t) :
  periodic r = Some e -> ConfigPublishEach.time_last_pub e = Some 0%Q.
Proof.
  unfold periodic.
  destruct (keyword r =? "CFG_PUB_EACH")%string; [| discriminate].
  destruct (cfg_grammar r); try discriminate.
  destruct (arguments r) as [| a [| b [| c ms]]]; try discriminate.
  intros H; inversion H; subst. reflexivity.
Qed.

(** An entry that holds a time ignores the connection time. *)
Lemma publish_each_one_ignores_connection (clock : nat -> Q)
    (p : ConfigPublishEach.t) (rt : Runtime) (t0 : Q) (connected : option Q) :
  ConfigPublishEach.time_last_pub p = Some t0 ->
  publish_each_one clock p (set_connected connected rt)
  = '(p', rt') ← publish_each_one clock p rt;
    Ok (p', set_connected connected rt').
Proof.
  intros Hp. unfold publish_each_one. rewrite Hp. cbn [time].
  cbn [reads set_connected time_mqtt_connected]. rewrite Hp.
  cbn [time_sub mbind result_bind].
  destruct (float_ge _ _); reflexivity.
Qed.

(** C3.  [ConfigPublishEach.time_last_pub] is the class attribute [0],
    never [None], so the test [is None] of [manage_publish_each_time]
    never holds and the connection time is never taken.  With an
    interval of 10 seconds and a session established at 1700000000, the
    sweep made one second later already publishes, and the entry then
    holds the time of that publish. *)
Theorem C3_first_sweep_publishes_at_once :
  exists w,
    cmdscript_parse (pub_each_script "10") world0 = Ok w
    /\ pub_each (config w) = [pub_each_entry 10 (Some 0%Q)]
    /\ let rt := arrive clock_1s connect_tick (runtime0 w) in
       time_mqtt_connected rt = Some (inject_Z 1700000000)
       /\ exists rt',
            manage_publish_each_time clock_1s rt = Ok rt'
            /\ calls rt' = [Publish (PStr "a/b") (PStr "x") (PInt 0)]
            /\ pub_each (config (world rt'))
               = [pub_each_entry 10 (Some (inject_Z 1700000002))].
Proof.
  eexists. split; [vm_compute; reflexivity |].
  split; [reflexivity |].
  cbv zeta. split; [reflexivity |].
  eexists. split; [vm_compute; reflexivity |].
  split; reflexivity.
Qed.

(** ** The last line of the text (C5) *)

(** C5.  The first loop runs over [range(len(cmdscript)-1)] and never
    looks at the last element of the split text.  The empty string that
    follows a final newline, a comment on a last line without newline
    and an unknown keyword on such a line all become commands; the
    unknown keyword is kept without a warning. *)
Theorem C5_last_line_is_never_filtered :
  (exists w,
     cmdscript_parse connect_script world0 = Ok w
     /\ commands (config w)
        = [ {| cmd := "CONNECT"; args := [PStr "h"; PStr "1883"] |};
            {| cmd := ""; args := [] |} ])
  /\ (exists w,
        cmdscript_parse "# note" world0 = Ok w
        /\ commands (config w) = [ {| cmd := "#"; args := [PStr "note"] |} ])
  /\ (exists w,
        cmdscript_parse "FOO bar" world0 = Ok w
        /\ commands (config w) = [ {| cmd := "FOO"; args := [PStr "bar"] |} ]
        /\ records w = []).
Proof.
  split; [| split].
  - eexists. split; [vm_compute; reflexivity | reflexivity].
  - eexists. split; [vm_compute; reflexivity | reflexivity].
  - eexists. split; [vm_compute; reflexivity |]. split; reflexivity.
Qed.

(** ** An empty script file (C10) *)

(** C10.  When arguments are given and the script file reads back as the
    empty string, [main] returns [RC.FAIL], which is -1, without calling
    [cmdscript_parse] and with [config] as it was; a missing file and a
    file that cannot be read end in the same way.  (Only the log tells
    them apart: the two failures are logged, the empty file is not.) *)
Theorem C10_empty_script_is_runtime_failure :
  forall clock uuid ticks fs argc path w,
    argc <> 0 ->
    (fs path = Reads "" \/ fs path = NotFound
     \/ exists tb, fs path = CannotRead tb) ->
    exists w',
      main clock uuid ticks fs argc path w
      = Ok {| return_code := Some RC.FAIL; parsed := false; final := w' |}
      /\ RC.FAIL = (-1)%Z
      /\ config w' = config w
      /\ (fs path = Reads "" -> w' = w).
Proof.
  intros clock uuid ticks fs argc path w Hargc Hfile.
  unfold main, file_read_all_text.
  destruct (Nat.eqb_spec argc 0) as [E | _]; [contradiction |].
  destruct Hfile as [H | [H | [tb H]]]; rewrite H; cbn;
    eexists;
    (split; [reflexivity | split; [reflexivity | split; [reflexivity |]]]);
    intros; congruence.
Qed.

Lemma C10_empty_script_is_runtime_failure_witness :
  exists w',
    main clock_1s "id" [] (fun _ => Reads "") 1 "script.txt" world0
    = Ok {| return_code := Some RC.FAIL; parsed := false; final := w' |}
    /\ RC.FAIL = (-1)%Z
    /\ config w' = config world0
    /\ ((fun _ : string => Reads "") "script.txt" = Reads "" -> w' = world0).
Proof.
  apply (C10_empty_script_is_runtime_failure clock_1s "id" []
           (fun _ => Reads "") 1 "script.txt" world0).
  - lia.
  - left. reflexivity.
Defined.

(** * Further properties of the code *)

(** ** The parser from the initial configuration *)

(** The tokenizer in terms of what its first loop decides. *)
Lemma tokenize_examine (text : string) (w : World) :
  tokenize text w
  = '(idx, ks, ws) ←
      examine 0 (removelast (Py.split Py.LF (Py.replace_crlf text)));
    Ok (append_commands
          (as_command
             <$> (raw_of_line
                    <$> ks ++ [List.last (Py.split Py.LF (Py.replace_crlf text))
                                 EmptyString]))
          (emit_all ws w)).
Proof.
  destruct (split_snoc Py.LF (Py.replace_crlf text)) as (front & lastl & Hs).
  unfold tokenize.
  rewrite (retained_lines_examine text w front lastl Hs).
  rewrite Hs, removelast_last, last_last.
  destruct (examine 0 front) as [[[idx ks] ws] | e];
    cbn [mbind result_bind]; [| reflexivity].
  apply populate_raw.
Qed.

(** The first loop raises on a line of whitespace only, and on nothing
    else. *)
Lemma examine_whitespace_only (lines : list string) :
  forall k : nat,
    if existsb whitespace_only lines
    then examine k lines = Raise IndexError
    else exists idx ks ws, examine k lines = Ok (idx, ks, ws).
Proof.
  induction lines as [| line lines IH]; intros k; cbn [existsb examine].
  - eauto.
  - unfold whitespace_only at 1.
    destruct (blank_or_comment line); cbn [negb andb orb].
    + specialize (IH (S k)).
      destruct (existsb whitespace_only lines).
      * rewrite IH. reflexivity.
      * destruct IH as (idx & ks & ws & ->). cbn. eauto.
    + destruct (Py.split_ws line) as [| first toks]; cbn; [reflexivity |].
      specialize (IH (S k)).
      destruct (existsb whitespace_only lines).
      * rewrite IH. reflexivity.
      * destruct IH as (idx & ks & ws & ->). cbn.
        match goal with
        | |- context [if ?b then _ else _] => destruct b
        end; eauto.
Qed.

Lemma is_error_error_of (g : RawCommand -> verdict) (r : RawCommand) :
  is_error (error_of g r) = true.
Proof. unfold error_of. destruct (g r); reflexivity. Qed.

Lemma existsb_errors (g : RawCommand -> verdict) (p : RawCommand -> bool)
    (rs : list RawCommand) :
  existsb is_error (error_of g <$> List.filter p rs) = existsb p rs.
Proof.
  induction rs as [| r rs IH]; [reflexivity |].
  cbn [List.filter existsb]. destruct (p r); cbn [orb].
  - cbn. rewrite is_error_error_of. reflexivity.
  - exact IH.
Qed.

Lemma existsb_warnings (lines : list string) :
  existsb is_error (warn_unexpected <$> lines) = false.
Proof. induction lines as [| l lines IH]; [reflexivity | exact IH]. Qed.

(** What a first parse makes of the commands of a script. *)
Lemma first_parse_raw (text : string) (rs : list RawCommand) :
  script_commands text = Ok rs ->
  exists w,
    cmdscript_parse text world0 = Ok w
    /\ records w
       = (warn_unexpected
            <$> List.filter unknown_keyword
                  (removelast (Py.split Py.LF (Py.replace_crlf text))))
         ++ (error_of cfg_grammar <$> List.filter (violates cfg_grammar) rs)
         ++ match first_violation step_grammar rs with
            | Some v => [error_of step_grammar v]
            | None => []
            end
    /\ invalid (config w)
       = (existsb (violates cfg_grammar) rs
          || match first_violation step_grammar rs with
             | Some _ => true
             | None => false
             end)%bool
    /\ steps_to_execute (config w)
       = omap compiled (sound_prefix step_grammar rs)
    /\ subscriptions (config w) = omap subscription rs
    /\ pub_each (config w) = omap periodic rs
    /\ scalars (config w) = settle rs (scalars config0).
Proof.
  unfold script_commands, cmdscript_parse. intros Hrs.
  rewrite tokenize_examine.
  destruct (examine 0 _) as [[[idx ks] ws] | e] eqn:He;
    cbn [mbind result_bind] in *; [| discriminate].
  injection Hrs as Hrs. rewrite Hrs.
  destruct (examine_filters _ _ _ _ _ He) as [_ Hws].
  set (wt := append_commands (as_command <$> rs) (emit_all ws world0)).
  assert (Hcmd : commands (config wt) = as_command <$> rs) by reflexivity.
  destruct (build_config_raw rs wt Hcmd)
    as (wc & Hb & Hrec & Hinv & Hcmd' & Hst & Hpe & Hsub & Hsc).
  rewrite Hb. cbn [mbind result_bind].
  rewrite Hcmd in Hcmd'.
  destruct (compile_steps_raw rs wc Hcmd')
    as (w & Hc & Hst' & Hinv' & Hrec' & _).
  exists w. split; [exact Hc |].
  unfold compile_steps in Hc.
  destruct (steps_loop_keeps _ _ _ _ Hc) as (Hsc2 & Hsub2 & Hpe2).
  rewrite Hrec', Hrec, Hinv', Hinv, Hst', Hst, Hsub2, Hsub, Hpe2, Hpe, Hsc2, Hsc.
  subst ws. cbn. rewrite <- app_assoc. repeat split.
Qed.

(** A first parse returns exactly when the tokenizer does. *)
Lemma first_parse_returns (text : string) :
  (exists rs, script_commands text = Ok rs)
  \/ (script_commands text = Raise IndexError
      /\ cmdscript_parse text world0 = Raise IndexError).
Proof.
  unfold script_commands, cmdscript_parse.
  rewrite tokenize_examine.
  pose proof (examine_whitespace_only
                (removelast (Py.split Py.LF (Py.replace_crlf text))) 0) as H.
  destruct (existsb whitespace_only _).
  - right. rewrite H. split; reflexivity.
  - left. destruct H as (idx & ks & ws & ->). cbn. eauto.
Qed.

(** X1. [cmdscript_parse], called on the initial configuration, raises
    [IndexError] when one of the lines before the last consists of
    whitespace only (and is not empty); on every other text it
    returns. *)
Theorem parse_raises_exactly_on_a_whitespace_only_line (text : string) :
  if existsb whitespace_only
       (removelast (Py.split Py.LF (Py.replace_crlf text)))
  then cmdscript_parse text world0 = Raise IndexError
  else exists w, cmdscript_parse text world0 = Ok w.
Proof.
  pose proof (examine_whitespace_only
                (removelast (Py.split Py.LF (Py.replace_crlf text))) 0) as H.
  destruct (existsb whitespace_only _) eqn:Hws.
  - unfold cmdscript_parse. rewrite tokenize_examine, H. reflexivity.
  - destruct H as (idx & ks & ws & He).
    destruct (first_parse_raw text
                (raw_of_line
                   <$> ks ++ [List.last (Py.split Py.LF (Py.replace_crlf text))
                                EmptyString])) as (w & Hw & _).
    { unfold script_commands. rewrite He. reflexivity. }
    eauto.
Qed.

(** The error records among those of a first parse. *)
Lemma error_records (lines : list string) (rs : list RawCommand) :
  existsb is_error
    ((warn_unexpected <$> lines)
     ++ (error_of cfg_grammar <$> List.filter (violates cfg_grammar) rs)
     ++ match first_violation step_grammar rs with
        | Some v => [error_of step_grammar v]
        | None => []
        end)
  = (existsb (violates cfg_grammar) rs
     || match first_violation step_grammar rs with
        | Some _ => true
        | None => false
        end)%bool.
Proof.
  rewrite !existsb_app, existsb_warnings, existsb_errors.
  cbn [orb]. f_equal.
  destruct (first_violation step_grammar rs); [| reflexivity].
  cbn. rewrite is_error_error_of. reflexivity.
Qed.

(** A first parse that returns is the parse of the commands of the
    text. *)
Lemma first_parse_of (text : string) (w : World) :
  cmdscript_parse text world0 = Ok w ->
  exists rs,
    script_commands text = Ok rs
    /\ records w
       = (warn_unexpected
            <$> List.filter unknown_keyword
                  (removelast (Py.split Py.LF (Py.replace_crlf text))))
         ++ (error_of cfg_grammar <$> List.filter (violates cfg_grammar) rs)
         ++ match first_violation step_grammar rs with
            | Some v => [error_of step_grammar v]
            | None => []
            end
    /\ invalid (config w)
       = (existsb (violates cfg_grammar) rs
          || match first_violation step_grammar rs with
             | Some _ => true
             | None => false
             end)%bool
    /\ steps_to_execute (config w)
       = omap compiled (sound_prefix step_grammar rs)
    /\ pub_each (config w) = omap periodic rs.
Proof.
  intros Hparse.
  destruct (first_parse_returns text) as [[rs Hrs] | [_ Hraise]];
    [| congruence].
  destruct (first_parse_raw text rs Hrs)
    as (w' & Hw' & Hrec & Hinv & Hst & _ & Hpe & _).
  assert (w' = w) as -> by congruence.
  exists rs. auto.
Qed.

(** X2. After a parse of the initial configuration that returns,
    [config.invalid] is set exactly when the log holds an error record:
    the warnings for dropped lines do not set it, and every error exit
    of the two passes does. *)
Theorem invalid_exactly_when_an_error_is_logged (text : string) (w : World) :
  cmdscript_parse text world0 = Ok w ->
  invalid (config w) = existsb is_error (records w).
Proof.
  intros Hparse.
  destruct (first_parse_of text w Hparse) as (rs & _ & Hrec & Hinv & _).
  rewrite Hrec, Hinv. symmetry. apply error_records.
Qed.

Lemma invalid_exactly_when_an_error_is_logged_witness :
  exists w,
    cmdscript_parse "DELAY x" world0 = Ok w
    /\ invalid (config w) = true
    /\ invalid (config w) = existsb is_error (records w).
Proof.
  eexists. split; [vm_compute; reflexivity |]. split; [reflexivity |].
  apply (invalid_exactly_when_an_error_is_logged "DELAY x"). vm_compute.
  reflexivity.
Defined.

(** ** The tokenizer as a filter *)

(** X3. The tokenizer appends one command per line that it keeps, in
    the order of the text: of the lines before the last it keeps those
    that are not empty, no comment, and start with a supported keyword;
    the last line it keeps as it is.  It logs one warning for each line
    dropped for its keyword, in order, and nothing else. *)
Theorem the_tokenizer_keeps_the_known_lines_in_order
    (text : string) (w w' : World) :
  tokenize text w = Ok w' ->
  let lines := Py.split Py.LF (Py.replace_crlf text) in
  commands (config w')
  = commands (config w)
    ++ (as_command
          <$> (raw_of_line
                 <$> List.filter stays (removelast lines)
                     ++ [List.last lines EmptyString]))
  /\ records w'
     = records w
       ++ (warn_unexpected <$> List.filter unknown_keyword (removelast lines)).
Proof.
  cbv zeta. rewrite tokenize_examine.
  destruct (examine 0 _) as [[[idx ks] ws] | e] eqn:He;
    cbn [mbind result_bind]; [| discriminate].
  destruct (examine_filters _ _ _ _ _ He) as [-> ->].
  intros [= <-]. split; reflexivity.
Qed.

Lemma the_tokenizer_keeps_the_known_lines_in_order_witness :
  exists w',
    tokenize filter_script world0 = Ok w'
    /\ commands (config w')
       = [ {| cmd := "PUB"; args := [PStr "0"; PStr "a/b"; PStr (quoted "x")] |};
           {| cmd := "DELAY"; args := [PStr "1"] |} ]
    /\ records w' = [warn_unexpected "foo 1"].
Proof.
  assert (H : exists w', tokenize filter_script world0 = Ok w')
    by (eexists; vm_compute; reflexivity).
  destruct H as [w' Hw']. exists w'. split; [exact Hw' |].
  destruct (the_tokenizer_keeps_the_known_lines_in_order filter_script world0
              w' Hw') as [Hc Hr].
  rewrite Hc, Hr. split; reflexivity.
Defined.

(** ** Publish lines *)

Lemma split_app_sep (a b : string) :
  has_space a = false ->
  Py.split Py.SP (a ++ String Py.SP b) = a :: Py.split Py.SP b.
Proof.
  unfold has_space. induction a as [| c a IH]; [reflexivity |].
  intros H. cbn [list_ascii_of_string existsb] in H.
  apply orb_false_elim in H as [Hc Ha].
  cbn [String.append Py.split].
  rewrite (Ascii.eqb_sym c Py.SP), Hc, (IH Ha). reflexivity.
Qed.

Lemma string_length_app (a b : string) :
  String.length (a ++ b) = String.length a + String.length b.
Proof.
  induction a as [| c a IH]; cbn; [reflexivity | rewrite IH; reflexivity].
Qed.

Lemma substring_prefix (m rest : string) :
  substring 0 (String.length m) (m ++ rest) = m.
Proof.
  induction m as [| c m IH]; cbn; [destruct rest; reflexivity |].
  rewrite IH. reflexivity.
Qed.

Lemma strip_ends_quoted (m : string) : Py.strip_ends (quoted m) = m.
Proof.
  unfold Py.strip_ends, quoted. cbn [String.length].
  rewrite string_length_app. cbn [String.length substring].
  replace (S (String.length m + 1) - 2) with (String.length m) by lia.
  apply substring_prefix.
Qed.

Lemma last_char_snoc (m : string) (c : ascii) :
  Py.last_char (m ++ String c EmptyString) = Some c.
Proof.
  induction m as [| a m IH]; [reflexivity |].
  cbn [String.append Py.last_char]. rewrite IH.
  destruct m; reflexivity.
Qed.

Lemma is_quoted_quoted (m : string) :
  is_quoted (quoted m) = negb (m =? "")%string.
Proof.
  unfold is_quoted, quoted.
  change (String Py.QUOTE (m ++ String Py.QUOTE EmptyString))
    with (String Py.QUOTE m ++ String Py.QUOTE EmptyString)%string.
  rewrite last_char_snoc. cbn [String.append String.get String.length].
  rewrite Ascii.eqb_refl, string_length_app. cbn [String.length].
  destruct m as [| c m]; [reflexivity |].
  cbn. rewrite Nat.add_1_r. reflexivity.
Qed.

(** The command of a publish line. *)
Lemma raw_of_pub_line (q topic m : string) :
  has_space q = false ->
  has_space topic = false ->
  exists m0 ms,
    Py.split Py.SP (quoted m) = m0 :: ms
    /\ raw_of_line (pub_line q topic m) = mkRaw "PUB" (q :: topic :: m0 :: ms).
Proof.
  intros Hq Ht.
  destruct (split_cons Py.SP (quoted m)) as (m0 & ms & Hm).
  exists m0, ms. split; [exact Hm |].
  unfold raw_of_line, pub_line.
  change ("PUB " ++ q ++ " " ++ topic ++ " " ++ quoted m)%string
    with ("PUB"
          ++ String Py.SP
               (q ++ String Py.SP (topic ++ String Py.SP (quoted m))))%string.
  rewrite (split_app_sep "PUB") by reflexivity.
  rewrite (split_app_sep q) by exact Hq.
  rewrite (split_app_sep topic) by exact Ht.
  rewrite Hm. reflexivity.
Qed.

(** X4. A line [PUB qos topic "message"] becomes a publish step with
    the QoS as an integer, the topic, and the message exactly as written
    between the outer quotes, whatever spaces and quotes it contains;
    with nothing between the quotes the line is refused as an invalid
    argument. *)
Theorem a_publish_line_keeps_its_message
    (q topic m : string) (n : Z) (i : nat) (w : World) :
  Py.int_of_str q = Some n ->
  has_space q = false ->
  has_space topic = false ->
  exists c,
    command_of_line (pub_line q topic m) = Ok c
    /\ step_one i c w
       = if (m =? "")%string then Ok (Break, invalid_arg c w)
         else
           let s := {| cmd := "PUB"; args := [PInt n; PStr topic; PStr m] |} in
           Ok (Next, append_step s (store i s w)).
Proof.
  intros Hn Hq Ht.
  exists (as_command (raw_of_line (pub_line q topic m))).
  split; [apply command_of_line_raw |].
  destruct (raw_of_pub_line q topic m Hq Ht) as (m0 & ms & Hm & ->).
  rewrite step_one_raw.
  assert (Hj : Py.join " " (m0 :: ms) = quoted m).
  { rewrite <- Hm. apply (join_split Py.SP). }
  unfold step_grammar, step_effect, compiled, step_grammar, flagged, error_of,
    step_grammar, is_integer, int_or_zero.
  cbn [keyword arguments String.eqb Ascii.eqb Bool.eqb].
  rewrite Hn, Hj, is_quoted_quoted, strip_ends_quoted.
  cbn [andb].
  destruct (m =? "")%string; reflexivity.
Qed.

Lemma a_publish_line_keeps_its_message_witness :
  exists c,
    command_of_line (pub_line "1" "a/b" ("say " ++ quoted "hi" ++ "  twice"))
    = Ok c
    /\ step_one 0 c world0
       = Ok (Next,
             append_step
               {| cmd := "PUB";
                  args := [PInt 1; PStr "a/b";
                           PStr ("say " ++ quoted "hi" ++ "  twice")] |}
               (store 0
                  {| cmd := "PUB";
                     args := [PInt 1; PStr "a/b";
                              PStr ("say " ++ quoted "hi" ++ "  twice")] |}
                  world0)).
Proof.
  apply (a_publish_line_keeps_its_message "1" "a/b"
           ("say " ++ quoted "hi" ++ "  twice") 1 0 world0); reflexivity.
Defined.

(** ** Line endings *)

Lemma replace_crlf_to_dos (text : string) :
  Py.replace_crlf (to_dos text) = text.
Proof.
  induction text as [| c text IH]; [reflexivity |].
  assert (Hhead : forall c0 : ascii,
             Py.replace_crlf (String c0 (to_dos text))
             = String c0 (Py.replace_crlf (to_dos text))).
  { intros c0. destruct text as [| c2 text]; [reflexivity |].
    cbn [to_dos].
    destruct (Ascii.eqb_spec c2 Py.LF) as [-> | Hc2].
    - change (Py.replace_crlf (String c0 (String Py.CR ?s)))
        with (if (Ascii.eqb c0 Py.CR && Ascii.eqb Py.CR Py.LF)%bool
              then String Py.LF (Py.replace_crlf s)
              else String c0 (Py.replace_crlf (String Py.CR s))).
      change (Ascii.eqb Py.CR Py.LF) with false.
      rewrite andb_false_r. reflexivity.
    - change (Py.replace_crlf (String c0 (String c2 ?s)))
        with (if (Ascii.eqb c0 Py.CR && Ascii.eqb c2 Py.LF)%bool
              then String Py.LF (Py.replace_crlf s)
              else String c0 (Py.replace_crlf (String c2 s))).
      destruct (Ascii.eqb_spec c2 Py.LF); [contradiction |].
      rewrite andb_false_r. reflexivity. }
  cbn [to_dos].
  destruct (Ascii.eqb_spec c Py.LF) as [-> | Hc].
  - change (Py.replace_crlf (String Py.CR (String Py.LF ?s)))
      with (String Py.LF (Py.replace_crlf s)).
    rewrite IH. reflexivity.
  - rewrite Hhead, IH. reflexivity.
Qed.

(** X5. A script saved with DOS line endings is parsed like the same
    script with Unix line endings: replacing every line feed of a text
    by carriage return and line feed is undone by the parser's first
    step, so for a text without such a pair the two parses give the
    same result from any configuration. *)
Theorem dos_line_endings_parse_alike :
  (forall text : string, Py.replace_crlf (to_dos text) = text)
  /\ (forall (text : string) (w : World),
         Py.replace_crlf text = text ->
         cmdscript_parse (to_dos text) w = cmdscript_parse text w).
Proof.
  split; [exact replace_crlf_to_dos |].
  intros text w Hunix.
  unfold cmdscript_parse, tokenize, retained_lines.
  rewrite replace_crlf_to_dos, Hunix. reflexivity.
Qed.

Lemma dos_line_endings_parse_alike_witness :
  Py.replace_crlf scenario_script = scenario_script
  /\ cmdscript_parse (to_dos scenario_script) world0
     = cmdscript_parse scenario_script world0.
Proof.
  split; [reflexivity |].
  apply (proj2 dos_line_endings_parse_alike scenario_script world0).
  reflexivity.
Defined.

(** ** The configuration pass *)

(** X6. [CFG_CLEAN_SESSION] and [CFG_USE_TLS] take the argument [YES] or
    [NO] as written in upper case: any other first argument, [yes] and
    [no] among them, is refused as invalid and leaves the setting as it
    was. *)
Theorem yes_no_settings_take_only_upper_case
    (a : string) (rest : list pyval) (w : World) :
  cfg_one {| cmd := "CFG_CLEAN_SESSION"; args := PStr a :: rest |} w
  = Ok (if (a =? "YES")%string then on_config (set_clean_session true) w
        else if (a =? "NO")%string then on_config (set_clean_session false) w
        else invalid_arg {| cmd := "CFG_CLEAN_SESSION"; args := PStr a :: rest |} w)
  /\ cfg_one {| cmd := "CFG_USE_TLS"; args := PStr a :: rest |} w
     = Ok (if (a =? "YES")%string then on_config (set_use_tls true) w
           else if (a =? "NO")%string then on_config (set_use_tls false) w
           else invalid_arg {| cmd := "CFG_USE_TLS"; args := PStr a :: rest |} w).
Proof.
  split; unfold cfg_one; cbn [cmd String.eqb Ascii.eqb Bool.eqb];
    unfold cfg_yes_no; cbn [args length Nat.eqb index lookup list_lookup
                              mbind result_bind py_in str_in existsb
                              CONST.CMDSCRIPT_ARGS_YES_NO py_upper];
    destruct (String.eqb_spec a "YES") as [-> | _]; try reflexivity;
    destruct (String.eqb_spec a "NO") as [-> | _]; reflexivity.
Qed.

Lemma settle_keeps_the_broker (post : list RawCommand) :
  Forall (fun r => keyword r <> "CONNECT" \/ violates cfg_grammar r = true) post ->
  forall s : Scalars,
    the_host (settle post s) = the_host s /\ the_port (settle post s) = the_port s.
Proof.
  induction 1 as [| r post Hr _ IH]; intros s; [split; reflexivity |].
  change (settle (r :: post) s) with (settle post (override (updates r) s)).
  destruct (IH (override (updates r) s)) as [-> ->].
  assert (Hu : new_host (updates r) = None /\ new_port (updates r) = None).
  { unfold updates. unfold violates in Hr.
    destruct (cfg_grammar r);
      [| split; reflexivity | split; reflexivity].
    destruct Hr as [Hk | Hv]; [| discriminate].
    destruct (arguments r) as [| a [| b rest]];
      repeat match goal with
             | |- context [if (?x =? ?y)%string then _ else _] =>
                 destruct (String.eqb_spec x y)
             end;
      try (split; reflexivity); contradiction. }
  destruct Hu as [Hh Hp]. cbn. rewrite Hh, Hp. split; reflexivity.
Qed.

(** X7. When a script holds several [CONNECT] commands, the broker
    address of the configuration is that of the last well-formed one:
    a later [CONNECT] with a missing or invalid argument does not
    change it. *)
Theorem the_last_well_formed_connect_sets_the_broker
    (pre post : list RawCommand) (h p : string) (more : list string) (n : Z)
    (w : World) :
  Py.int_of_str p = Some n ->
  Forall (fun r => keyword r <> "CONNECT" \/ violates cfg_grammar r = true) post ->
  commands (config w)
  = as_command <$> (pre ++ mkRaw "CONNECT" (h :: p :: more) :: post) ->
  exists w',
    build_config w = Ok w'
    /\ mqtt_host (config w') = PStr h
    /\ mqtt_port (config w') = n.
Proof.
  intros Hp Hpost Hcmd.
  destruct (build_config_raw _ w Hcmd)
    as (w' & Hb & _ & _ & _ & _ & _ & _ & Hsc).
  exists w'. split; [exact Hb |].
  change (mqtt_host (config w')) with (the_host (scalars (config w'))).
  change (mqtt_port (config w')) with (the_port (scalars (config w'))).
  rewrite Hsc, settle_app.
  change (settle (mkRaw "CONNECT" (h :: p :: more) :: post) ?s)
    with (settle post (override (updates (mkRaw "CONNECT" (h :: p :: more))) s)).
  destruct (settle_keeps_the_broker post Hpost
              (override (updates (mkRaw "CONNECT" (h :: p :: more)))
                 (settle pre (scalars (config w))))) as [-> ->].
  unfold updates, cfg_grammar, is_integer, int_or_zero.
  cbn [keyword arguments String.eqb Ascii.eqb Bool.eqb orb].
  rewrite Hp. split; reflexivity.
Qed.

Lemma the_last_well_formed_connect_sets_the_broker_witness :
  exists w',
    build_config
      (world_of [mkRaw "CONNECT" ["a"; "1"]; mkRaw "CONNECT" ["b"; "2"];
                 mkRaw "CONNECT" ["c"; "x"]])
    = Ok w'
    /\ mqtt_host (config w') = PStr "b"
    /\ mqtt_port (config w') = 2%Z.
Proof.
  apply (the_last_well_formed_connect_sets_the_broker
           [mkRaw "CONNECT" ["a"; "1"]] [mkRaw "CONNECT" ["c"; "x"]]
           "b" "2" [] 2).
  - reflexivity.
  - constructor; [right; reflexivity | constructor].
  - reflexivity.
Defined.

(** X8. The configuration pass appends one subscription per well-formed
    [SUB] command, in the order of the script, with the QoS the integer
    written (of any value), the topic and the log file; arguments after
    the third are ignored, and any other command appends none. *)
Theorem subscriptions_are_collected_in_script_order :
  (forall (rs : list RawCommand) (w : World),
      commands (config w) = as_command <$> rs ->
      exists w',
        build_config w = Ok w'
        /\ subscriptions (config w')
           = subscriptions (config w) ++ omap subscription rs)
  /\ (forall (kw : string) (ws : list string),
         subscription (mkRaw kw ws)
         = if (kw =? "SUB")%string then
             match ws with
             | q :: t :: f :: _ =>
                 match Py.int_of_str q with
                 | Some n => Some (ConfigSubscription.mk n (PStr t) (PStr f))
                 | None => None
                 end
             | _ => None
             end
           else None).
Proof.
  split.
  - intros rs w Hcmd.
    destruct (build_config_raw rs w Hcmd)
      as (w' & Hb & _ & _ & _ & _ & _ & Hsub & _).
    exists w'. split; assumption.
  - intros kw ws. unfold subscription, cfg_grammar, is_integer, int_or_zero.
    cbn [keyword arguments].
    keyword_case kw "SUB"; [| reflexivity].
    cbn [String.eqb Ascii.eqb Bool.eqb orb].
    destruct ws as [| q [| t [| f more]]]; try reflexivity.
    destruct (Py.int_of_str q); reflexivity.
Qed.

Lemma subscriptions_are_collected_in_script_order_witness :
  exists w',
    build_config
      (world_of
         [mkRaw "SUB" ["7"; "a/#"; "a.log"; "more"];
          mkRaw "SUB" ["x"; "b"; "c"]; mkRaw "SUB" ["-1"; "b"; "b.log"]])
    = Ok w'
    /\ subscriptions (config w')
       = [ConfigSubscription.mk 7 (PStr "a/#") (PStr "a.log");
          ConfigSubscription.mk (-1) (PStr "b") (PStr "b.log")].
Proof.
  apply (proj1 subscriptions_are_collected_in_script_order
           [mkRaw "SUB" ["7"; "a/#"; "a.log"; "more"];
            mkRaw "SUB" ["x"; "b"; "c"]; mkRaw "SUB" ["-1"; "b"; "b.log"]]).
  reflexivity.
Defined.

(** ** The interpreter on what the parser produces *)

Section InterpreterRuns.

Variable clock : nat -> Q.

(** What one entry of the sweep does to the state. *)
Lemma publish_each_one_effect (p p' : ConfigPublishEach.t) (rt rt' : Runtime) :
  publish_each_one clock p rt = Ok (p', rt') ->
  what_to_publish p' = what_to_publish p
  /\ t_wait_start rt' = t_wait_start rt
  /\ reads rt <= reads rt'
  /\ ((calls rt' = calls rt
       /\ ConfigPublishEach.time_last_pub p' <> None)
      \/ (calls rt' = calls rt ++ [publish_of p]
          /\ ConfigPublishEach.time_last_pub p'
             = Some (clock (S (reads rt))))).
Proof.
  unfold publish_each_one. cbn [time].
  destruct (ConfigPublishEach.time_last_pub p) as [last |] eqn:Hlast.
  - rewrite Hlast. cbn [time_sub mbind result_bind].
    destruct (float_ge _ _); intros H; inversion H; subst; cbn.
    + repeat split; [lia |]. right. split; reflexivity.
    + repeat split; [lia |]. left. split; [reflexivity | congruence].
  - cbn [set_time_last_pub ConfigPublishEach.time_last_pub
           ConfigPublishEach.each ConfigPublishEach.topic
           ConfigPublishEach.msg ConfigPublishEach.qos time_mqtt_connected].
    destruct (time_mqtt_connected rt) as [tc |];
      cbn [time_sub mbind result_bind]; [| intros; discriminate].
    destruct (float_ge _ _); intros H; inversion H; subst; cbn.
    + repeat split; [lia |]. right. split; reflexivity.
    + repeat split; [lia |]. left. split; [reflexivity | discriminate].
Qed.

(** An entry that holds a time is handled without an exception. *)
Lemma publish_each_one_returns (p : ConfigPublishEach.t) (rt : Runtime) :
  ConfigPublishEach.time_last_pub p <> None ->
  exists p' rt', publish_each_one clock p rt = Ok (p', rt').
Proof.
  intros Hp. unfold publish_each_one. cbn [time].
  destruct (ConfigPublishEach.time_last_pub p) as [last |] eqn:Hlast;
    [| contradiction].
  rewrite Hlast. cbn [time_sub mbind result_bind].
  destruct (float_ge _ _); eauto.
Qed.

Lemma publish_each_loop_effect (todo : list ConfigPublishEach.t) :
  forall (l : list ConfigPublishEach.t) (rt rt' : Runtime),
    publish_each_loop clock todo rt = Ok (l, rt') ->
    what_to_publish <$> l = what_to_publish <$> todo
    /\ t_wait_start rt' = t_wait_start rt
    /\ reads rt <= reads rt'
    /\ (exists due,
           sublist due todo /\ calls rt' = calls rt ++ (publish_of <$> due))
    /\ (Forall (fun p => ConfigPublishEach.time_last_pub p <> None) todo ->
        Forall (fun p => ConfigPublishEach.time_last_pub p <> None) l).
Proof.
  induction todo as [| p todo IH]; intros l rt rt'; cbn [publish_each_loop].
  - intros H; inversion H; subst.
    repeat split; [lia | | auto].
    exists []. split; [constructor | cbn; rewrite app_nil_r; reflexivity].
  - destruct (publish_each_one clock p rt) as [[p1 rt1] | e] eqn:H1;
      cbn [mbind result_bind]; [| intros; discriminate].
    destruct (publish_each_loop clock todo rt1) as [[l2 rt2] | e] eqn:H2;
      cbn [mbind result_bind]; [| intros; discriminate].
    intros H; inversion H; subst.
    destruct (publish_each_one_effect _ _ _ _ H1) as (Hw & Ht & Hr & Hc).
    destruct (IH _ _ _ H2) as (Hw' & Ht' & Hr' & (due & Hsub & Hc') & Hall).
    cbn [fmap list_fmap]. rewrite Hw. split; [f_equal; exact Hw' |].
    split; [congruence |]. split; [lia |]. split.
    + destruct Hc as [[Hc _] | [Hc _]]; rewrite Hc', Hc.
      * exists due. split; [apply sublist_cons; exact Hsub | reflexivity].
      * exists (p :: due). split; [apply sublist_skip; exact Hsub |].
        cbn [fmap list_fmap]. rewrite <- app_assoc. reflexivity.
    + intros Hf. inversion Hf as [| ? ? Hp Hrest]; subst.
      constructor; [| apply Hall; exact Hrest].
      destruct Hc as [[_ Hc] | [_ Hc]]; [exact Hc | rewrite Hc; discriminate].
Qed.

Lemma publish_each_loop_returns (todo : list ConfigPublishEach.t) :
  Forall (fun p => ConfigPublishEach.time_last_pub p <> None) todo ->
  forall rt : Runtime,
  exists l rt', publish_each_loop clock todo rt = Ok (l, rt').
Proof.
  induction 1 as [| p todo Hp _ IH]; intros rt; cbn [publish_each_loop].
  - eauto.
  - destruct (publish_each_one_returns p rt Hp) as (p1 & rt1 & ->).
    cbn [mbind result_bind].
    destruct (IH rt1) as (l & rt2 & ->). cbn [mbind result_bind]. eauto.
Qed.

(** What a sweep does to the state. *)
Lemma manage_publish_each_time_effect (rt rt' : Runtime) :
  manage_publish_each_time clock rt = Ok rt' ->
  what_to_publish <$> pub_each (config (world rt'))
  = what_to_publish <$> pub_each (config (world rt))
  /\ t_wait_start rt' = t_wait_start rt
  /\ reads rt <= reads rt'
  /\ (exists due,
         sublist due (pub_each (config (world rt)))
         /\ calls rt' = calls rt ++ (publish_of <$> due))
  /\ (Forall (fun p => ConfigPublishEach.time_last_pub p <> None)
        (pub_each (config (world rt))) ->
      Forall (fun p => ConfigPublishEach.time_last_pub p <> None)
        (pub_each (config (world rt')))).
Proof.
  unfold manage_publish_each_time.
  destruct (publish_each_loop clock _ rt) as [[l rt1] | e] eqn:H;
    cbn [mbind result_bind]; [| intros; discriminate].
  intros [= <-].
  destruct (publish_each_loop_effect _ _ _ _ H) as (Hw & Ht & Hr & Hc & Hall).
  cbn. auto.
Qed.

(** A step of the shape the step pass produces is run without an
    exception, unless it is a [DELAY_MS] whose quotient is beyond the
    floats. *)
Lemma run_step_cmd_returns (c : Command) (rt : Runtime) :
  runnable c = true ->
  (exists b rt', run_step_cmd clock c rt = Ok (b, rt'))
  \/ (run_step_cmd clock c rt = Raise OverflowError
      /\ beyond_float_range c = true).
Proof.
  unfold runnable, run_step_cmd, wait_t, beyond_float_range.
  destruct (cmd c =? "DISCONNECT")%string; [left; eauto |].
  destruct (cmd c =? "PUB")%string.
  - intros Hlen. apply Nat.leb_le in Hlen.
    destruct (args c) as [| a0 [| a1 [| a2 more]]]; cbn in Hlen; try lia.
    cbn. left. eauto.
  - destruct (is_delay (cmd c)); [| left; eauto].
    destruct (args c) as [| [s | n] more]; try discriminate. intros _.
    cbn [index lookup list_lookup mbind result_bind].
    assert (Hend : forall d : Q,
               exists b rt',
                 (let rt0 :=
                    match t_wait_start rt with
                    | Some _ => rt
                    | None =>
                        let '(now, rt1) := time clock rt in
                        set_t_wait_start (Some now) rt1
                    end in
                  let '(now, rt1) := time clock rt0 in
                  elapsed ← time_sub now (t_wait_start rt1);
                  if float_ge elapsed d
                  then Ok (true, set_t_wait_start None rt1)
                  else Ok (false, rt1)) = Ok (b, rt')).
    { intros d. destruct (t_wait_start rt) as [t0 |] eqn:Ht;
        cbn -[float_ge Py.float_sub]; rewrite ?Ht;
        cbn -[float_ge Py.float_sub];
        match goal with
        | |- context [float_ge ?x ?y] => destruct (float_ge x y)
        end; eauto. }
    destruct (cmd c =? "DELAY_MS")%string.
    + destruct (Py.true_divide n 1000) as [d |];
        [left; exact (Hend d) | right; split; reflexivity].
    + left. destruct (cmd c =? "DELAY_H")%string; apply Hend.
Qed.

(** The state in which every step can be run and every periodic entry
    holds a time is kept by an iteration, which then returns unless
    its step is a delay beyond the floats. *)
Lemma loop_body_returns (t : Tick) (rt : Runtime) :
  Forall (fun c => runnable c = true) (steps_of rt) ->
  Forall (fun p => ConfigPublishEach.time_last_pub p <> None)
    (pub_each (config (world rt))) ->
  (exists rt',
      loop_body clock t rt = Ok rt'
      /\ steps_of rt' = steps_of rt
      /\ Forall (fun p => ConfigPublishEach.time_last_pub p <> None)
           (pub_each (config (world rt'))))
  \/ (loop_body clock t rt = Raise OverflowError
      /\ Exists (fun c => beyond_float_range c = true) (steps_of rt)).
Proof.
  intros Hsteps Hpe. unfold loop_body.
  destruct (is_connected t); [| left; eauto].
  destruct (publish_each_loop_returns _ Hpe rt) as (l & rt0 & Hl).
  assert (Hm : exists rt1, manage_publish_each_time clock rt = Ok rt1).
  { unfold manage_publish_each_time. rewrite Hl. cbn. eauto. }
  destruct Hm as [rt1 Hm]. rewrite Hm. cbn [mbind result_bind].
  destruct (manage_publish_each_time_keeps clock _ _ Hm) as (Hst & Hs & Ha).
  destruct (manage_publish_each_time_effect _ _ Hm) as (_ & _ & _ & _ & Hall).
  specialize (Hall Hpe).
  fold (steps_of rt1).
  destruct (Nat.ltb_spec (step rt1) (length (steps_of rt1))) as [Hlt | Hge];
    [| left; eauto].
  unfold index.
  destruct (steps_of rt1 !! step rt1) as [c |] eqn:Hc.
  2: { apply lookup_ge_None in Hc. lia. }
  cbn [mbind result_bind].
  rewrite Hst in Hc.
  assert (Hrun : runnable c = true)
    by exact (Forall_lookup_1 _ _ _ _ Hsteps Hc).
  destruct (run_step_cmd_returns c rt1 Hrun) as [(b & rt2 & Hr) | [Hr Hbig]];
    rewrite Hr; cbn [mbind result_bind].
  - left. destruct (run_step_cmd_keeps clock _ _ _ _ Hr) as (Hw2 & _ & _).
    destruct b; eexists; (split; [reflexivity |]); unfold steps_of in *; cbn;
      rewrite Hw2; split; assumption.
  - right. split; [reflexivity |].
    apply Exists_exists. exists c. split; [| exact Hbig].
    exact (list_elem_of_lookup_2 _ _ _ Hc).
Qed.

Lemma interpreter_loop_returns (ticks : list Tick) :
  forall rt : Runtime,
    Forall (fun c => runnable c = true) (steps_of rt) ->
    Forall (fun p => ConfigPublishEach.time_last_pub p <> None)
      (pub_each (config (world rt))) ->
    (exists r, interpreter_loop clock ticks rt = Ok r)
    \/ (interpreter_loop clock ticks rt = Raise OverflowError
        /\ Exists (fun c => beyond_float_range c = true) (steps_of rt)).
Proof.
  induction ticks as [| t ticks IH]; intros rt Hsteps Hpe;
    cbn [interpreter_loop]; [left; eauto |].
  destruct (arrive_keeps clock t rt) as (Hw & _ & _).
  assert (Hsame : steps_of (arrive clock t rt) = steps_of rt)
    by (unfold steps_of; rewrite Hw; reflexivity).
  destruct (app_exit (arrive clock t rt)); [left; eauto |].
  destruct (loop_body_returns t (arrive clock t rt))
    as [(rt' & Hb & Hst & Hall) | [Hb Hbig]].
  - rewrite Hsame. exact Hsteps.
  - rewrite Hw. exact Hpe.
  - rewrite Hb. cbn [mbind result_bind].
    destruct (IH rt') as [Hok | [Hraise Hbig]].
    + rewrite Hst, Hsame. exact Hsteps.
    + exact Hall.
    + left. exact Hok.
    + right. split; [exact Hraise |]. rewrite <- Hsame, <- Hst. exact Hbig.
  - rewrite Hb. cbn [mbind result_bind]. right.
    split; [reflexivity |]. rewrite <- Hsame. exact Hbig.
Qed.

End InterpreterRuns.

Lemma compiled_runnable (r : RawCommand) (c : Command) :
  compiled r = Some c -> runnable c = true.
Proof.
  unfold compiled, runnable. destruct (step_grammar r); try discriminate.
  destruct (String.eqb_spec (keyword r) "DISCONNECT") as [E | NE].
  { intros H; inversion H; subst. cbn [cmd as_command]. rewrite E. reflexivity. }
  destruct (String.eqb_spec (keyword r) "PUB") as [E' | NE'].
  { destruct (arguments r) as [| a [| b ms]]; try discriminate.
    intros H; inversion H; subst. rewrite E'. reflexivity. }
  destruct (is_delay (keyword r)) eqn:Hd; [| discriminate].
  destruct (arguments r) as [| a ms]; try discriminate.
  intros H; inversion H; subst. cbn [cmd args].
  destruct (String.eqb_spec (keyword r) "DISCONNECT"); [contradiction |].
  destruct (String.eqb_spec (keyword r) "PUB"); [contradiction |].
  rewrite Hd. reflexivity.
Qed.

Lemma omap_Forall {A B : Type} (f : A -> option B) (P : B -> Prop)
    (l : list A) :
  (forall a b, f a = Some b -> P b) -> Forall P (omap f l).
Proof.
  intros H. induction l as [| a l IH]; cbn; [constructor |].
  destruct (f a) as [b |] eqn:Hf; [| exact IH].
  constructor; [eapply H; exact Hf | exact IH].
Qed.

Lemma interpreter_entry_fields (uuid : string) (w : World) :
  steps_of (interpreter_entry uuid w) = steps_to_execute (config w)
  /\ pub_each (config (world (interpreter_entry uuid w))) = pub_each (config w)
  /\ subscriptions (config (world (interpreter_entry uuid w)))
     = subscriptions (config w)
  /\ app_exit (interpreter_entry uuid w) = false
  /\ t_wait_start (interpreter_entry uuid w) = None
  /\ step (interpreter_entry uuid w) = 0.
Proof.
  unfold interpreter_entry, steps_of.
  destruct (client_id (config w)) as [[| c s] | z]; repeat split.
Qed.

(** A step beyond the floats is a [DELAY_MS] of at least
    [1000 * 2 ^ 1023] milliseconds in absolute value. *)
Lemma beyond_float_range_step (c : Command) :
  beyond_float_range c = true ->
  exists n rest,
    c = {| cmd := "DELAY_MS"; args := PInt n :: rest |}
    /\ (1000 * 2 ^ 1023 <= Z.abs n)%Z.
Proof.
  destruct c as [k a]. unfold beyond_float_range. cbn [cmd args].
  intros H. apply andb_prop in H. destruct H as [Hk Ha].
  apply String.eqb_eq in Hk. subst k.
  destruct a as [| [s | n] rest]; try discriminate.
  exists n, rest. split; [reflexivity |].
  destruct (true_divide_milli n) as (_ & _ & Hlow & _).
  destruct (Z.lt_ge_cases (Z.abs n) (1000 * 2 ^ 1023)) as [Hlt | Hge];
    [| exact Hge].
  destruct (Hlow Hlt) as [d Hd]. rewrite Hd in Ha. discriminate.
Qed.

(** X9. Whatever script [cmdscript_parse] has accepted or flagged from
    the initial configuration, the interpreter, for every clock and
    every course of connection events, either runs on its result
    without an exception or raises [OverflowError], and this only when
    the steps hold a [DELAY_MS] of at least [1000 * 2 ^ 1023]
    milliseconds in absolute value, whose quotient by 1000 is beyond
    the floats.  Otherwise each compiled step has the arguments
    [run_step_cmd] reads and each periodic entry holds a time.  The
    calls on the broker client are recorded and taken to return. *)
Theorem the_interpreter_raises_only_on_a_delay_beyond_the_floats
    (clock : nat -> Q) (uuid : string) (ticks : list Tick) (text : string)
    (w : World) :
  cmdscript_parse text world0 = Ok w ->
  (exists r, cmdscript_interpreter clock uuid ticks w = Ok r)
  \/ (cmdscript_interpreter clock uuid ticks w = Raise OverflowError
      /\ exists n rest,
           In {| cmd := "DELAY_MS"; args := PInt n :: rest |}
             (steps_to_execute (config w))
           /\ (1000 * 2 ^ 1023 <= Z.abs n)%Z).
Proof.
  intros Hparse.
  destruct (first_parse_of text w Hparse) as (rs & _ & _ & _ & Hst & Hpe).
  destruct (interpreter_entry_fields uuid w) as (Hes & Hep & _).
  destruct (interpreter_loop_returns clock ticks (interpreter_entry uuid w))
    as [[r Hr] | [Hr Hbig]].
  - rewrite Hes, Hst. apply omap_Forall. exact compiled_runnable.
  - rewrite Hep, Hpe. apply omap_Forall. intros r e He.
    rewrite (periodic_time_last_pub r e He). discriminate.
  - left. unfold cmdscript_interpreter. rewrite Hr. cbn [mbind result_bind].
    destruct r; eauto.
  - right. unfold cmdscript_interpreter. rewrite Hr. cbn [mbind result_bind].
    split; [reflexivity |].
    rewrite Hes in Hbig. apply Exists_exists in Hbig.
    destruct Hbig as (c & Hin & Hc).
    destruct (beyond_float_range_step c Hc) as (n & rest & -> & Hn).
    exists n, rest. split; [apply list_elem_of_In; exact Hin | exact Hn].
Qed.

Lemma the_interpreter_raises_only_on_a_delay_beyond_the_floats_witness :
  exists w,
    cmdscript_parse scenario_script world0 = Ok w
    /\ ((exists r, cmdscript_interpreter clock_1s "id" scenario_ticks w = Ok r)
        \/ (cmdscript_interpreter clock_1s "id" scenario_ticks w
            = Raise OverflowError
            /\ exists n rest,
                 In {| cmd := "DELAY_MS"; args := PInt n :: rest |}
                   (steps_to_execute (config w))
                 /\ (1000 * 2 ^ 1023 <= Z.abs n)%Z)).
Proof.
  assert (H : exists w, cmdscript_parse scenario_script world0 = Ok w)
    by (eexists; vm_compute; reflexivity).
  destruct H as [w Hw]. exists w. split; [exact Hw |].
  exact (the_interpreter_raises_only_on_a_delay_beyond_the_floats clock_1s
           "id" scenario_ticks scenario_script w Hw).
Defined.

(** The exception is met: a script of the one line [DELAY_MS] with
    [10 ^ 312] milliseconds is accepted, and the first iteration that
    finds the client connected raises. *)
Example a_delay_beyond_the_floats_raises :
  exists w,
    cmdscript_parse huge_delay_script world0 = Ok w
    /\ invalid (config w) = false
    /\ cmdscript_interpreter clock_1s "id"
         [ {| events := [OnConnect]; is_connected := true |} ] w
       = Raise OverflowError.
Proof.
  eexists. split; [vm_compute; reflexivity |].
  split; vm_compute; reflexivity.
Qed.

(** ** The steps handed to the interpreter *)

Lemma forallb_is_str (ws : list string) : forallb is_str (PStr <$> ws) = true.
Proof. induction ws as [| s ws IH]; [reflexivity | exact IH]. Qed.

Lemma compiled_shape (r : RawCommand) (c : Command) :
  compiled r = Some c -> step_shape c = true.
Proof.
  unfold compiled, step_shape. destruct (step_grammar r); try discriminate.
  destruct (String.eqb_spec (keyword r) "DISCONNECT") as [E | NE].
  { intros H; inversion H; subst. cbn [cmd args as_command]. rewrite E.
    apply forallb_is_str. }
  destruct (String.eqb_spec (keyword r) "PUB") as [E' | NE'].
  { destruct (arguments r) as [| a [| b ms]]; try discriminate.
    intros H; inversion H; subst. rewrite E'. reflexivity. }
  destruct (is_delay (keyword r)) eqn:Hd; [| discriminate].
  destruct (arguments r) as [| a ms]; try discriminate.
  intros H; inversion H; subst. cbn [cmd args].
  destruct (String.eqb_spec (keyword r) "DISCONNECT"); [contradiction |].
  destruct (String.eqb_spec (keyword r) "PUB"); [contradiction |].
  rewrite Hd. apply forallb_is_str.
Qed.

(** X10. After a parse of the initial configuration, every element of
    [config.steps_to_execute] is a [DISCONNECT], a [PUB] whose arguments
    are an integer, a topic and a message, or a delay whose first
    argument is an integer; no configuration command is among the
    steps. *)
Theorem the_steps_have_the_arguments_the_interpreter_reads
    (text : string) (w : World) :
  cmdscript_parse text world0 = Ok w ->
  Forall (fun c => step_shape c = true) (steps_to_execute (config w)).
Proof.
  intros Hparse.
  destruct (first_parse_of text w Hparse) as (rs & _ & _ & _ & Hst & _).
  rewrite Hst. apply omap_Forall. exact compiled_shape.
Qed.

Lemma the_steps_have_the_arguments_the_interpreter_reads_witness :
  exists w,
    cmdscript_parse scenario_script world0 = Ok w
    /\ steps_to_execute (config w) = scenario_steps
    /\ Forall (fun c => step_shape c = true) (steps_to_execute (config w)).
Proof.
  eexists. split; [vm_compute; reflexivity |]. split; [reflexivity |].
  apply (the_steps_have_the_arguments_the_interpreter_reads scenario_script).
  vm_compute. reflexivity.
Defined.

(** ** The end of the loop *)

Section InterpreterEnds.

Variable clock : nat -> Q.

Lemma handle_effect (e : Async) (rt : Runtime) :
  t_wait_start (handle clock e rt) = t_wait_start rt
  /\ app_exit (handle clock e rt)
     = (app_exit rt || match e with Signal => true | _ => false end)%bool.
Proof.
  destruct e; cbn.
  - set (subs := subscriptions _). clearbody subs.
    set (rt0 := set_connected _ _).
    assert (H : t_wait_start rt0 = t_wait_start rt /\ app_exit rt0 = app_exit rt)
      by (split; reflexivity).
    clearbody rt0. revert rt0 H.
    induction subs as [| sub subs IH]; intros rt0 (Ht & Ha); cbn.
    + rewrite Ht, Ha, orb_false_r. auto.
    + apply IH. split; assumption.
  - destruct (mqtt_connection_lost rt); rewrite orb_false_r; auto.
  - rewrite orb_true_r. auto.
Qed.

Lemma arrive_effect (t : Tick) (rt : Runtime) :
  t_wait_start (arrive clock t rt) = t_wait_start rt
  /\ app_exit (arrive clock t rt) = (app_exit rt || has_signal t)%bool.
Proof.
  unfold arrive, has_signal. generalize (events t) as es. intros es. revert rt.
  induction es as [| e es IH]; intros rt; cbn [fold_left existsb].
  - rewrite orb_false_r. auto.
  - destruct (IH (handle clock e rt)) as (Ht & Ha).
    destruct (handle_effect e rt) as (Ht' & Ha').
    rewrite Ht, Ha, Ht', Ha', orb_assoc. auto.
Qed.

Lemma is_delay_keyword (kw : string) :
  is_delay kw = true ->
  (kw =? "DISCONNECT")%string = false /\ (kw =? "PUB")%string = false.
Proof.
  intros H. destruct (is_delay_cases kw H) as [-> | [-> | ->]];
    split; reflexivity.
Qed.

(** What a step other than a delay does to the start of a wait and to
    the exit flag. *)
Lemma run_step_cmd_other (c : Command) (rt rt' : Runtime) (b : bool) :
  run_step_cmd clock c rt = Ok (b, rt') ->
  is_delay (cmd c) = false ->
  t_wait_start rt' = t_wait_start rt
  /\ (cmd c <> "DISCONNECT" -> app_exit rt' = app_exit rt).
Proof.
  unfold run_step_cmd. intros H Hd. rewrite Hd in H.
  destruct (String.eqb_spec (cmd c) "DISCONNECT") as [E | NE].
  - inversion H; subst. split; [reflexivity | contradiction].
  - destruct (cmd c =? "PUB")%string.
    + destruct (index (args c) 0) as [? | ?]; cbn in H; [| discriminate].
      destruct (index (args c) 1) as [? | ?]; cbn in H; [| discriminate].
      destruct (index (args c) 2) as [? | ?]; cbn in H; [| discriminate].
      inversion H; subst. split; reflexivity.
    + inversion H; subst. split; reflexivity.
Qed.

(** What a delay step does: the wait is measured from the time held in
    [t_wait_start], which is the first reading of the clock when none
    is held; the step is completed when a later reading shows that the
    waiting time has passed, and then no time is held any more. *)
Lemma run_step_cmd_delay (c : Command) (rt rt' : Runtime) (b : bool) :
  run_step_cmd clock c rt = Ok (b, rt') ->
  is_delay (cmd c) = true ->
  exists (d start : Q) (n : nat),
    wait_t c = Ok d
    /\ start = default (clock (reads rt)) (t_wait_start rt)
    /\ reads rt <= n
    /\ reads rt' = S n
    /\ b = float_ge (Py.float_sub (clock n) start) d
    /\ t_wait_start rt' = (if b then None else Some start)
    /\ app_exit rt' = app_exit rt
    /\ calls rt' = calls rt.
Proof.
  unfold run_step_cmd. intros H Hd.
  destruct (is_delay_keyword _ Hd) as [E1 E2]. rewrite E1, E2, Hd in H.
  destruct (wait_t c) as [d | e]; cbn [mbind result_bind] in H;
    [| discriminate].
  exists d.
  destruct (t_wait_start rt) as [t0 |] eqn:Ht;
    cbn -[float_ge Py.float_sub] in H; rewrite ?Ht in H;
    cbn -[float_ge Py.float_sub] in H.
  - exists t0, (reads rt).
    destruct (float_ge (Py.float_sub (clock (reads rt)) t0) d) eqn:Hq;
      inversion H; subst; cbn -[float_ge Py.float_sub]; rewrite ?Ht;
      repeat split; auto.
  - exists (clock (reads rt)), (S (reads rt)).
    destruct (float_ge (Py.float_sub (clock (S (reads rt))) (clock (reads rt))) d)
      eqn:Hq;
      inversion H; subst; cbn -[float_ge Py.float_sub]; repeat split; auto.
Qed.

(** One iteration keeps the exit flag when no step is a [DISCONNECT]. *)
Lemma loop_body_exit (t : Tick) (rt rt' : Runtime) :
  Forall (fun c => cmd c <> "DISCONNECT") (steps_of rt) ->
  loop_body clock t rt = Ok rt' ->
  steps_of rt' = steps_of rt /\ app_exit rt' = app_exit rt.
Proof.
  intros Hsteps. unfold loop_body.
  destruct (is_connected t); [| intros [= <-]; auto].
  destruct (manage_publish_each_time clock rt) as [rt1 | e] eqn:Hm;
    cbn [mbind result_bind]; [| intros; discriminate].
  destruct (manage_publish_each_time_keeps clock _ _ Hm) as (Hst & Hs & Ha).
  fold (steps_of rt1).
  destruct (step rt1 <? length (steps_of rt1)); [| intros [= <-]; auto].
  unfold index.
  destruct (steps_of rt1 !! step rt1) as [c |] eqn:Hc;
    cbn [mbind result_bind]; [| intros; discriminate].
  destruct (run_step_cmd clock c rt1) as [[b rt2] | e] eqn:Hr;
    cbn [mbind result_bind]; [| intros; discriminate].
  destruct (run_step_cmd_keeps clock _ _ _ _ Hr) as (Hw2 & _ & _).
  assert (Hnd : cmd c <> "DISCONNECT").
  { rewrite Hst in Hc. exact (Forall_lookup_1 _ _ _ _ Hsteps Hc). }
  assert (Ha2 : app_exit rt2 = app_exit rt1).
  { destruct (is_delay (cmd c)) eqn:Hd.
    - destruct (run_step_cmd_delay _ _ _ _ Hr Hd)
        as (d & start & n & _ & _ & _ & _ & _ & _ & Hx & _). exact Hx.
    - destruct (run_step_cmd_other _ _ _ _ Hr Hd) as [_ Hx]. auto. }
  assert (Hst2 : steps_of rt2 = steps_of rt)
    by (unfold steps_of in *; rewrite Hw2; exact Hst).
  destruct b; intros [= <-];
    (split; [exact Hst2 | transitivity (app_exit rt1); [exact Ha2 | exact Ha]]).
Qed.

(** X11. A script without a [DISCONNECT] step does not end by itself:
    when the loop is left, a termination signal has arrived. *)
Theorem without_disconnect_only_a_signal_ends_the_loop
    (ticks : list Tick) (rt rt' : Runtime) :
  Forall (fun c => cmd c <> "DISCONNECT") (steps_of rt) ->
  app_exit rt = false ->
  interpreter_loop clock ticks rt = Ok (Some rt') ->
  existsb has_signal ticks = true.
Proof.
  revert rt. induction ticks as [| t ticks IH]; intros rt Hsteps Hrun;
    cbn [interpreter_loop existsb]; [discriminate |].
  destruct (arrive_effect t rt) as [_ Ha].
  destruct (arrive_keeps clock t rt) as (Hw & _ & _).
  rewrite Ha, Hrun. cbn [orb].
  destruct (has_signal t) eqn:Hsig; [reflexivity |].
  destruct (loop_body clock t (arrive clock t rt)) as [rt1 | e] eqn:Hb;
    cbn [mbind result_bind]; [| discriminate].
  assert (Hsteps' : Forall (fun c => cmd c <> "DISCONNECT")
                      (steps_of (arrive clock t rt)))
    by (unfold steps_of; rewrite Hw; exact Hsteps).
  destruct (loop_body_exit _ _ _ Hsteps' Hb) as [Hst1 Ha1].
  intros Hloop. cbn [orb]. apply (IH rt1); [| | exact Hloop].
  - rewrite Hst1. exact Hsteps'.
  - rewrite Ha1, Ha, Hrun. reflexivity.
Qed.

(** X12. Once a termination signal has arrived the loop runs no further
    iteration: what the environment does afterwards has no effect on
    how the loop is left. *)
Theorem after_a_signal_no_iteration_is_run
    (pre post : list Tick) (t : Tick) (rt : Runtime) :
  has_signal t = true ->
  interpreter_loop clock (pre ++ t :: post) rt
  = interpreter_loop clock (pre ++ [t]) rt
  /\ interpreter_loop clock (pre ++ [t]) rt <> Ok None.
Proof.
  intros Hsig. revert rt.
  induction pre as [| t0 pre IH]; intros rt; cbn [app interpreter_loop].
  - destruct (arrive_effect t rt) as [_ Ha].
    rewrite Ha, Hsig, orb_true_r. split; [reflexivity | discriminate].
  - destruct (app_exit (arrive clock t0 rt));
      [split; [reflexivity | discriminate] |].
    destruct (loop_body clock t0 (arrive clock t0 rt)) as [rt1 | e];
      cbn [mbind result_bind]; [apply IH | split; [reflexivity | discriminate]].
Qed.

End InterpreterEnds.

Lemma without_disconnect_only_a_signal_ends_the_loop_witness :
  existsb has_signal [quiet_tick; mkTick [Signal] true] = true.
Proof.
  apply (without_disconnect_only_a_signal_ends_the_loop clock_1s
           [quiet_tick; mkTick [Signal] true]
           (runtime0 (on_config (set_steps_to_execute [pub_step]) world0))
           (set_app_exit true
              (set_step 1
                 (call (Publish (PStr "a/b") (PStr "x") (PInt 0))
                    (runtime0
                       (on_config (set_steps_to_execute [pub_step]) world0)))))).
  - repeat constructor; discriminate.
  - reflexivity.
  - vm_compute. reflexivity.
Defined.

Lemma after_a_signal_no_iteration_is_run_witness :
  interpreter_loop clock_1s
    ([connect_tick] ++ mkTick [Signal] true :: [quiet_tick])
    (runtime0 scenario_world)
  = interpreter_loop clock_1s ([connect_tick] ++ [mkTick [Signal] true])
      (runtime0 scenario_world)
  /\ interpreter_loop clock_1s ([connect_tick] ++ [mkTick [Signal] true])
       (runtime0 scenario_world) <> Ok None.
Proof.
  apply (after_a_signal_no_iteration_is_run clock_1s [connect_tick] [quiet_tick]
           (mkTick [Signal] true) (runtime0 scenario_world)).
  reflexivity.
Defined.

(** ** Delay steps in the loop *)

Section InterpreterWaits.

Variable clock : nat -> Q.

(** A property of the states that the events and the iterations keep
    holds in every state of the trace. *)
Lemma trace_invariant (P : Runtime -> Prop) :
  (forall t rt, P rt -> P (arrive clock t rt)) ->
  (forall t rt rt', P rt -> loop_body clock t rt = Ok rt' -> P rt') ->
  forall (ticks : list Tick) (rt : Runtime) (k : nat) (s : Runtime),
    P rt -> interpreter_trace clock ticks rt !! k = Some s -> P s.
Proof.
  intros Harr Hbody.
  induction ticks as [| t ticks IH]; intros rt k s HP;
    cbn [interpreter_trace]; [intros H; destruct k; discriminate H |].
  destruct k as [| k]; cbn [lookup list_lookup].
  - intros [= <-]. apply Harr. exact HP.
  - destruct (app_exit (arrive clock t rt));
      [intros H; destruct k; discriminate H |].
    destruct (loop_body clock t (arrive clock t rt)) as [rt1 | e] eqn:Hb;
      [| intros H; destruct k; discriminate H].
    apply IH. eapply Hbody; [apply Harr; exact HP | exact Hb].
Qed.

(** The events only add readings of the clock. *)
Lemma handle_reads (e : Async) (rt : Runtime) :
  reads rt <= reads (handle clock e rt).
Proof.
  destruct e; cbn.
  - set (subs := subscriptions _). clearbody subs.
    set (rt0 := set_connected _ _).
    assert (H : reads rt <= reads rt0) by (cbn; lia).
    clearbody rt0. revert rt0 H.
    induction subs as [| sub subs IH]; intros rt0 H; cbn; [exact H |].
    apply IH. exact H.
  - destruct (mqtt_connection_lost rt); cbn; lia.
  - lia.
Qed.

Lemma arrive_reads (t : Tick) (rt : Runtime) :
  reads rt <= reads (arrive clock t rt).
Proof.
  unfold arrive. generalize (events t) as es. intros es. revert rt.
  induction es as [| e es IH]; intros rt; cbn [fold_left]; [lia |].
  pose proof (handle_reads e rt). pose proof (IH (handle clock e rt)). lia.
Qed.

(** The float difference of a reading and an earlier or equal one is
    at least every number that is not positive. *)
Lemma float_sub_ge_nonpositive (a b y : Q) :
  (b <= a)%Q -> (y <= 0)%Q -> float_ge (Py.float_sub a b) y = true.
Proof.
  intros Hab Hy. unfold float_ge, Py.float_sub.
  assert (Hx : (0 <= a - b)%Q) by lra.
  destruct (Py.round_double (a - b)) as [q |] eqn:Hr.
  - unfold Qge_bool. apply Qle_bool_iff.
    pose proof (round_double_nonneg _ _ Hx Hr). lra.
  - destruct (Qle_bool (a - b) 0) eqn:E; [exfalso | reflexivity].
    apply Qle_bool_iff in E.
    destruct (round_double_returns (a - b)) as [q Hq]; [| congruence].
    apply Qle_lt_trans with (y := 0%Q); [| apply pow2_pos].
    apply Qabs_Qle_condition. split; lra.
Qed.

Lemma arrive_waits (t : Tick) (rt : Runtime) :
  waits_on_a_delay rt -> waits_on_a_delay (arrive clock t rt).
Proof.
  unfold waits_on_a_delay, steps_of.
  destruct (arrive_keeps clock t rt) as (Hw & Hs & _).
  destruct (arrive_effect clock t rt) as [Ht _].
  rewrite Hw, Hs, Ht. auto.
Qed.

(** One iteration and a wait. *)
Lemma loop_body_wait (t : Tick) (rt rt' : Runtime) :
  waits_on_a_delay rt ->
  loop_body clock t rt = Ok rt' ->
  waits_on_a_delay rt'
  /\ forall a : Q,
       t_wait_start rt = Some a ->
       (t_wait_start rt' = Some a /\ step rt' = step rt)
       \/ (t_wait_start rt' = None
           /\ step rt' = S (step rt)
           /\ exists (c : Command) (d : Q) (n : nat),
                steps_of rt !! step rt = Some c
                /\ is_delay (cmd c) = true
                /\ wait_t c = Ok d
                /\ reads rt <= n < reads rt'
                /\ float_ge (Py.float_sub (clock n) a) d = true).
Proof.
  intros HP. unfold loop_body.
  destruct (is_connected t).
  2: { intros [= <-]. split; [exact HP | auto]. }
  destruct (manage_publish_each_time clock rt) as [rt1 | e] eqn:Hm;
    cbn [mbind result_bind]; [| intros; discriminate].
  destruct (manage_publish_each_time_keeps clock _ _ Hm) as (Hst & Hs & _).
  destruct (manage_publish_each_time_effect clock _ _ Hm)
    as (_ & Ht & Hr & _).
  assert (HP1 : waits_on_a_delay rt1).
  { unfold waits_on_a_delay. rewrite Ht, Hst, Hs. exact HP. }
  fold (steps_of rt1).
  destruct (step rt1 <? length (steps_of rt1)).
  2: { intros [= <-]. split; [exact HP1 |].
       intros a Ha. left. split; congruence. }
  unfold index.
  destruct (steps_of rt1 !! step rt1) as [c |] eqn:Hc;
    cbn [mbind result_bind]; [| intros; discriminate].
  destruct (run_step_cmd clock c rt1) as [[b rt2] | e] eqn:Hrun;
    cbn [mbind result_bind]; [| intros; discriminate].
  destruct (run_step_cmd_keeps clock _ _ _ _ Hrun) as (Hw2 & Hs2 & _).
  assert (Hst2 : steps_of rt2 = steps_of rt1)
    by (unfold steps_of; rewrite Hw2; reflexivity).
  destruct (is_delay (cmd c)) eqn:Hd.
  - destruct (run_step_cmd_delay clock _ _ _ _ Hrun Hd)
      as (d & start & n & Hwait & Hstart & Hn & Hn' & Hb & Ht2 & _).
    destruct b; intros [= <-].
    + split; [left; exact Ht2 |].
      intros a Ha. right. split; [exact Ht2 |].
      split; [cbn; lia |].
      exists c, d, n. rewrite <- Hst, <- Hs.
      split; [exact Hc |]. split; [exact Hd |]. split; [exact Hwait |].
      split; [cbn [reads set_step]; lia |].
      rewrite Ht, Ha in Hstart. cbn in Hstart. subst start.
      symmetry. exact Hb.
    + split.
      * right. exists c. rewrite Hst2, Hs2. split; [exact Hc | exact Hd].
      * intros a Ha. left. rewrite Ht, Ha in Hstart. cbn in Hstart.
        subst start. split; [exact Ht2 | lia].
  - destruct (run_step_cmd_other clock _ _ _ _ Hrun Hd) as [Ht2 _].
    assert (Hnone : t_wait_start rt1 = None).
    { destruct HP1 as [Hn | (c' & Hc' & Hd')]; [exact Hn |].
      rewrite Hc in Hc'. injection Hc' as <-. congruence. }
    assert (Hnone' : t_wait_start rt' = None -> waits_on_a_delay rt')
      by (intros Hx; left; exact Hx).
    destruct b; intros [= <-];
      (split; [left; cbn; congruence | intros a Ha; congruence]).
Qed.

Lemma trace_waits (uuid : string) (w : World) (ticks : list Tick) (k : nat)
    (s : Runtime) :
  interpreter_trace clock ticks (interpreter_entry uuid w) !! k = Some s ->
  waits_on_a_delay s.
Proof.
  apply (trace_invariant waits_on_a_delay).
  - exact arrive_waits.
  - intros t rt rt' HP Hb. exact (proj1 (loop_body_wait t rt rt' HP Hb)).
  - left. apply interpreter_entry_fields.
Qed.

(** X13. In every state in which the loop tests its condition, a start
    of wait is held only when the current step is a delay step: the
    time is cleared when the delay completes, before the index moves
    on. *)
Theorem a_wait_is_held_only_on_a_delay_step
    (uuid : string) (w : World) (ticks : list Tick) (k : nat) (s : Runtime) :
  interpreter_trace clock ticks (interpreter_entry uuid w) !! k = Some s ->
  t_wait_start s = None
  \/ exists c, steps_of s !! step s = Some c /\ is_delay (cmd c) = true.
Proof.
  apply (trace_invariant waits_on_a_delay).
  - exact arrive_waits.
  - intros t rt rt' HP Hb. exact (proj1 (loop_body_wait t rt rt' HP Hb)).
  - left. apply interpreter_entry_fields.
Qed.

(** X14. A delay that is waited for stays the current step, with the
    same start time, from one test of the loop condition to the next,
    until it completes; it completes only when the float difference
    between a reading of the clock made since the first of the two
    tests and that start is at least the waiting time, and the index
    then moves to the next step. *)
Theorem a_pending_delay_ends_only_when_its_time_has_passed
    (uuid : string) (w : World) (ticks : list Tick) (k : nat)
    (s s' : Runtime) (a : Q) :
  interpreter_trace clock ticks (interpreter_entry uuid w) !! k = Some s ->
  interpreter_trace clock ticks (interpreter_entry uuid w) !! S k = Some s' ->
  t_wait_start s = Some a ->
  (t_wait_start s' = Some a /\ step s' = step s)
  \/ (t_wait_start s' = None
      /\ step s' = S (step s)
      /\ exists (c : Command) (d : Q) (n : nat),
           steps_of s !! step s = Some c
           /\ is_delay (cmd c) = true
           /\ wait_t c = Ok d
           /\ reads s <= n < reads s'
           /\ float_ge (Py.float_sub (clock n) a) d = true).
Proof.
  intros Hs Hs' Ha.
  pose proof (trace_waits _ _ _ _ _ Hs) as HP.
  destruct (trace_neighbours clock _ _ _ _ _ Hs Hs')
    as (t & t' & rt' & _ & _ & _ & Hb & ->).
  destruct (loop_body_wait t s rt' HP Hb) as [_ Hnext].
  destruct (arrive_keeps clock t' rt') as (_ & Hstep & _).
  destruct (arrive_effect clock t' rt') as [Ht _].
  pose proof (arrive_reads t' rt') as Hreads.
  rewrite Ht, Hstep.
  destruct (Hnext a Ha) as [Hsame | (Hnone & Hidx & c & d & n & H)];
    [left; exact Hsame | right].
  split; [exact Hnone |]. split; [exact Hidx |].
  exists c, d, n.
  destruct H as (Hc & Hd & Hw & Hn & Hdue).
  repeat split; try assumption; lia.
Qed.

(** X15. A sweep over the periodic entries publishes a sublist of them,
    each at most once and in the order of the list, and changes nothing
    of an entry but its time of last publish; the step list, the step
    index and the exit flag are left alone. *)
Theorem a_sweep_publishes_due_entries_in_order (rt rt' : Runtime) :
  manage_publish_each_time clock rt = Ok rt' ->
  what_to_publish <$> pub_each (config (world rt'))
  = what_to_publish <$> pub_each (config (world rt))
  /\ (exists due,
         sublist due (pub_each (config (world rt)))
         /\ calls rt' = calls rt ++ (publish_of <$> due))
  /\ steps_of rt' = steps_of rt
  /\ step rt' = step rt
  /\ app_exit rt' = app_exit rt.
Proof.
  intros Hm.
  destruct (manage_publish_each_time_keeps clock _ _ Hm) as (Hst & Hs & Ha).
  destruct (manage_publish_each_time_effect clock _ _ Hm)
    as (Hw & _ & _ & Hdue & _).
  auto.
Qed.

(** X16. A periodic entry whose interval is zero or negative is due at
    every sweep once its time of last publish is not in the future: it
    is published and takes the reading of the clock made after the
    publish. *)
Theorem a_nonpositive_interval_is_due_at_every_sweep
    (p : ConfigPublishEach.t) (rt : Runtime) (last : Q) :
  ConfigPublishEach.time_last_pub p = Some last ->
  (last <= clock (reads rt))%Q ->
  (ConfigPublishEach.each p <= 0)%Z ->
  exists rt',
    publish_each_one clock p rt
    = Ok (set_time_last_pub (Some (clock (S (reads rt)))) p, rt')
    /\ calls rt' = calls rt ++ [publish_of p].
Proof.
  intros Hlast Hpast Heach. unfold publish_each_one. cbn [time].
  rewrite Hlast. cbn [reads]. rewrite Hlast. cbn [time_sub mbind result_bind].
  assert (Hdue : float_ge (Py.float_sub (clock (reads rt)) last)
                   (inject_Z (ConfigPublishEach.each p)) = true).
  { apply float_sub_ge_nonpositive; [exact Hpast |].
    change 0%Q with (inject_Z 0). rewrite <- Zle_Qle. exact Heach. }
  rewrite Hdue. eexists. split; reflexivity.
Qed.

End InterpreterWaits.

Lemma a_wait_is_held_only_on_a_delay_step_witness :
  exists s,
    interpreter_trace clock_1s [quiet_tick; quiet_tick; quiet_tick]
      (interpreter_entry "id" delay_world) !! 2 = Some s
    /\ t_wait_start s = Some (clock_1s 0)
    /\ (t_wait_start s = None
        \/ exists c, steps_of s !! step s = Some c /\ is_delay (cmd c) = true).
Proof.
  eexists. split; [vm_compute; reflexivity |]. split; [reflexivity |].
  apply (a_wait_is_held_only_on_a_delay_step clock_1s "id" delay_world
           [quiet_tick; quiet_tick; quiet_tick] 2).
  vm_compute. reflexivity.
Defined.

Lemma a_pending_delay_ends_only_when_its_time_has_passed_witness :
  exists s s',
    interpreter_trace clock_1s
      [quiet_tick; quiet_tick; quiet_tick; quiet_tick; quiet_tick]
      (interpreter_entry "id" delay_world) !! 3 = Some s
    /\ interpreter_trace clock_1s
         [quiet_tick; quiet_tick; quiet_tick; quiet_tick; quiet_tick]
         (interpreter_entry "id" delay_world) !! 4 = Some s'
    /\ step s' = 2
    /\ ((t_wait_start s' = Some (clock_1s 0) /\ step s' = step s)
        \/ (t_wait_start s' = None
            /\ step s' = S (step s)
            /\ exists (c : Command) (d : Q) (n : nat),
                 steps_of s !! step s = Some c
                 /\ is_delay (cmd c) = true
                 /\ wait_t c = Ok d
                 /\ reads s <= n < reads s'
                 /\ float_ge (Py.float_sub (clock_1s n) (clock_1s 0)) d
                    = true)).
Proof.
  eexists. eexists. split; [vm_compute; reflexivity |].
  split; [vm_compute; reflexivity |]. split; [reflexivity |].
  apply (a_pending_delay_ends_only_when_its_time_has_passed clock_1s "id"
           delay_world
           [quiet_tick; quiet_tick; quiet_tick; quiet_tick; quiet_tick] 3);
    vm_compute; reflexivity.
Defined.

Lemma a_sweep_publishes_due_entries_in_order_witness :
  exists rt',
    manage_publish_each_time clock_1s (runtime0 sweep_world) = Ok rt'
    /\ calls rt' = [publish_of (pub_each_entry 10 (Some 0%Q))]
    /\ what_to_publish <$> pub_each (config (world rt'))
       = what_to_publish <$> pub_each (config (world (runtime0 sweep_world))).
Proof.
  eexists. split; [vm_compute; reflexivity |]. split; [reflexivity |].
  apply (a_sweep_publishes_due_entries_in_order clock_1s (runtime0 sweep_world)).
  vm_compute. reflexivity.
Defined.

Lemma a_nonpositive_interval_is_due_at_every_sweep_witness :
  exists rt',
    publish_each_one clock_1s (pub_each_entry 0 (Some (clock_1s 0)))
      (runtime0 world0)
    = Ok (set_time_last_pub (Some (clock_1s 1))
            (pub_each_entry 0 (Some (clock_1s 0))), rt')
    /\ calls rt' = [publish_of (pub_each_entry 0 (Some (clock_1s 0)))].
Proof.
  apply (a_nonpositive_interval_is_due_at_every_sweep clock_1s
           (pub_each_entry 0 (Some (clock_1s 0))) (runtime0 world0) (clock_1s 0)).
  - reflexivity.
  - unfold Qle. cbn. lia.
  - cbn. lia.
Defined.

(** The test is made on floats: a delay of 300 milliseconds that
    started at the reading [0.0] completes at the reading [0.3], the
    float that [300 / 1000] is, although that float is below [3/10]. *)
Example a_delay_of_300_ms_ends_at_the_reading_0_3 :
  exists rt',
    run_step_cmd clock_0_3 {| cmd := "DELAY_MS"; args := [PInt 300] |}
      (runtime0 world0)
    = Ok (true, rt')
    /\ (clock_0_3 1 - clock_0_3 0 < 3 # 10)%Q.
Proof.
  eexists. split; vm_compute; reflexivity.
Qed.

(** ** Publish steps in the loop *)

Section InterpreterPublishes.

Variable clock : nat -> Q.

(** An iteration with the broker connected and no periodic entry runs
    the current step. *)
Lemma loop_body_on_step (c : Command) (rt : Runtime) :
  pub_each (config (world rt)) = [] ->
  steps_of rt !! step rt = Some c ->
  loop_body clock quiet_tick rt
  = '(completed, rt2) ←
      run_step_cmd clock c
        (set_world (on_config (set_pub_each []) (world rt)) rt);
    if (completed : bool) then Ok (set_step (step rt2 + 1) rt2) else Ok rt2.
Proof.
  intros Hpe Hc. unfold loop_body, manage_publish_each_time.
  cbn [is_connected quiet_tick]. rewrite Hpe.
  cbn [publish_each_loop mbind result_bind].
  change (steps_to_execute
            (config
               (world (set_world (on_config (set_pub_each []) (world rt)) rt))))
    with (steps_of rt).
  cbn [step set_world].
  pose proof (lookup_lt_Some _ _ _ Hc) as Hlt.
  apply Nat.ltb_lt in Hlt. rewrite Hlt.
  unfold index. rewrite Hc. reflexivity.
Qed.

Lemma publish_steps_from (pubs : list (pyval * pyval * pyval)) :
  forall (done rest : list Command) (d : Command) (more : list Tick)
         (rt : Runtime),
    cmd d = "DISCONNECT" ->
    steps_of rt = done ++ (publish_step <$> pubs) ++ d :: rest ->
    step rt = length done ->
    app_exit rt = false ->
    pub_each (config (world rt)) = [] ->
    exists rt',
      interpreter_loop clock (replicate (length pubs + 2) quiet_tick ++ more) rt
      = Ok (Some rt')
      /\ calls rt' = calls rt ++ (published <$> pubs) ++ [Disconnect]
      /\ step rt' = length done + length pubs + 1.
Proof.
  induction pubs as [| p pubs IH]; intros done rest d more rt Hd Hsteps Hstep
    Hrun Hpe.
  - cbn [length Nat.add replicate app interpreter_loop arrive events quiet_tick
           fold_left].
    rewrite Hrun.
    assert (Hc : steps_of rt !! step rt = Some d).
    { rewrite Hsteps, Hstep. cbn [fmap list_fmap app].
      apply list_lookup_middle. reflexivity. }
    rewrite (loop_body_on_step d rt Hpe Hc).
    unfold run_step_cmd. rewrite Hd.
    cbn [String.eqb Ascii.eqb Bool.eqb mbind result_bind app_exit set_step
           set_app_exit].
    eexists. split; [reflexivity |].
    cbn [calls step set_step set_app_exit call set_world fmap list_fmap app].
    split; [reflexivity | lia].
  - destruct p as [[qos topic] msg].
    cbn [length Nat.add replicate app interpreter_loop arrive events quiet_tick
           fold_left].
    rewrite Hrun.
    assert (Hc : steps_of rt !! step rt = Some (publish_step (qos, topic, msg))).
    { rewrite Hsteps, Hstep. cbn [fmap list_fmap app].
      apply list_lookup_middle. reflexivity. }
    rewrite (loop_body_on_step _ rt Hpe Hc).
    cbn [run_step_cmd publish_step cmd args String.eqb Ascii.eqb Bool.eqb index
           lookup list_lookup mbind result_bind].
    set (rt1 := set_step _ _).
    destruct (IH (done ++ [publish_step (qos, topic, msg)]) rest d more rt1 Hd)
      as (rt' & Hloop & Hcalls & Hidx).
    + unfold rt1, steps_of in *. cbn. rewrite Hsteps.
      cbn [fmap list_fmap app]. rewrite <- app_assoc. reflexivity.
    + unfold rt1. cbn. rewrite Hstep, length_app. cbn. reflexivity.
    + unfold rt1. cbn. exact Hrun.
    + reflexivity.
    + exists rt'. split; [exact Hloop |].
      rewrite Hcalls, Hidx, length_app. unfold rt1.
      cbn [calls set_step call set_world fmap list_fmap published length].
      rewrite <- app_assoc. split; [reflexivity | lia].
Qed.

(** X17. With the broker connected, no periodic entry and no event, a
    step list of publish steps followed by a [DISCONNECT] is run one
    step per iteration: the messages are published in the order of the
    list, then the client is disconnected, and the loop is left at the
    next test of its condition; steps written after the [DISCONNECT]
    are never run. *)
Theorem publish_steps_run_one_per_iteration
    (pubs : list (pyval * pyval * pyval)) (rest : list Command) (d : Command)
    (more : list Tick) (rt : Runtime) :
  cmd d = "DISCONNECT" ->
  steps_of rt = (publish_step <$> pubs) ++ d :: rest ->
  step rt = 0 ->
  app_exit rt = false ->
  pub_each (config (world rt)) = [] ->
  exists rt',
    interpreter_loop clock (replicate (length pubs + 2) quiet_tick ++ more) rt
    = Ok (Some rt')
    /\ calls rt' = calls rt ++ (published <$> pubs) ++ [Disconnect]
    /\ step rt' = length pubs + 1.
Proof.
  intros Hd Hsteps Hstep Hrun Hpe.
  destruct (publish_steps_from pubs [] rest d more rt Hd Hsteps Hstep Hrun Hpe)
    as (rt' & Hloop & Hcalls & Hidx).
  exists rt'. split; [exact Hloop |]. split; [exact Hcalls |].
  rewrite Hidx. reflexivity.
Qed.

(** X18. A delay step that yields a waiting time of zero or of a
    negative number of seconds completes at its first evaluation,
    provided the clock does not run backwards between the two readings
    made there; no start of wait is left behind. *)
Theorem a_nonpositive_delay_completes_at_once
    (c : Command) (rt : Runtime) (d : Q) :
  is_delay (cmd c) = true ->
  wait_t c = Ok d ->
  (d <= 0)%Q ->
  t_wait_start rt = None ->
  (clock (reads rt) <= clock (S (reads rt)))%Q ->
  exists rt',
    run_step_cmd clock c rt = Ok (true, rt')
    /\ t_wait_start rt' = None
    /\ calls rt' = calls rt.
Proof.
  intros Hd Hwait Hneg Hnone Hclock.
  unfold run_step_cmd.
  destruct (is_delay_keyword _ Hd) as [-> ->]. rewrite Hd, Hwait.
  cbn [mbind result_bind]. rewrite Hnone.
  cbn -[float_ge Py.float_sub].
  assert (Hdue : float_ge
                   (Py.float_sub (clock (S (reads rt))) (clock (reads rt))) d
                 = true)
    by (apply float_sub_ge_nonpositive; assumption).
  rewrite Hdue. eexists. repeat split.
Qed.

End InterpreterPublishes.

Lemma publish_steps_run_one_per_iteration_witness :
  exists rt',
    interpreter_loop clock_1s
      (replicate (length [(PInt 0, PStr "a/b", PStr "x")] + 2) quiet_tick ++ [])
      (runtime0
         (on_config
            (set_steps_to_execute
               [pub_step; {| cmd := "DISCONNECT"; args := [] |}; pub_step])
            world0))
    = Ok (Some rt')
    /\ calls rt'
       = [] ++ (published <$> [(PInt 0, PStr "a/b", PStr "x")]) ++ [Disconnect]
    /\ step rt' = length [(PInt 0, PStr "a/b", PStr "x")] + 1.
Proof.
  apply (publish_steps_run_one_per_iteration clock_1s
           [(PInt 0, PStr "a/b", PStr "x")] [pub_step]
           {| cmd := "DISCONNECT"; args := [] |} []
           (runtime0
              (on_config
                 (set_steps_to_execute
                    [pub_step; {| cmd := "DISCONNECT"; args := [] |}; pub_step])
                 world0))); reflexivity.
Defined.

Lemma a_nonpositive_delay_completes_at_once_witness :
  exists rt',
    run_step_cmd clock_1s {| cmd := "DELAY"; args := [PInt (-5)] |}
      (runtime0 world0)
    = Ok (true, rt')
    /\ t_wait_start rt' = None
    /\ calls rt' = calls (runtime0 world0).
Proof.
  apply (a_nonpositive_delay_completes_at_once clock_1s
           {| cmd := "DELAY"; args := [PInt (-5)] |} (runtime0 world0)
           (inject_Z (-5))).
  - reflexivity.
  - reflexivity.
  - unfold Qle. cbn. lia.
  - reflexivity.
  - unfold Qle. cbn. lia.
Defined.

(** A negative delay without a waiting time: the quotient of
    [- 10 ^ 312] milliseconds is beyond the floats, and the step
    raises instead of completing. *)
Example a_delay_below_the_floats_raises :
  wait_t {| cmd := "DELAY_MS"; args := [PInt (- 10 ^ 312)] |}
  = Raise OverflowError
  /\ run_step_cmd clock_1s {| cmd := "DELAY_MS"; args := [PInt (- 10 ^ 312)] |}
       (runtime0 world0)
     = Raise OverflowError.
Proof. split; vm_compute; reflexivity. Qed.

(** ** Timestamps *)

Lemma string_app_assoc (a b c : string) :
  ((a ++ b) ++ c = a ++ (b ++ c))%string.
Proof.
  induction a as [| x a IH]; cbn; [reflexivity | rewrite IH; reflexivity].
Qed.

Lemma zero_padded_length (width : nat) :
  forall n : nat, String.length (zero_padded width n) = width.
Proof.
  induction width as [| width IH]; intros n; cbn [zero_padded];
    [reflexivity |].
  rewrite string_length_app, IH. cbn. lia.
Qed.

Lemma digit_char_inj (n m : nat) :
  digit_char n = digit_char m -> n mod 10 = m mod 10.
Proof.
  unfold digit_char. intros H. apply (f_equal nat_of_ascii) in H.
  pose proof (Nat.mod_upper_bound n 10).
  pose proof (Nat.mod_upper_bound m 10).
  rewrite !nat_ascii_embedding in H by lia. lia.
Qed.

Lemma append_snoc_inj (a b : string) (c d : ascii) :
  (a ++ String c EmptyString = b ++ String d EmptyString)%string ->
  a = b /\ c = d.
Proof.
  revert b. induction a as [| x a IH]; intros [| y b]; cbn; intros H;
    inversion H; subst.
  - auto.
  - destruct b; discriminate.
  - destruct a; discriminate.
  - destruct (IH b) as [-> ->]; auto.
Qed.

Lemma append_inj_length (a a' b b' : string) :
  String.length a = String.length a' ->
  (a ++ b = a' ++ b')%string ->
  a = a' /\ b = b'.
Proof.
  revert a'. induction a as [| x a IH]; intros [| y a']; cbn;
    try discriminate; intros Hl H.
  - auto.
  - inversion H; subst. destruct (IH a') as [-> ->]; [lia | assumption | auto].
Qed.

(** Numbers of at most [width] digits are told apart by their digits. *)
Lemma zero_padded_inj (width : nat) :
  forall n m : nat,
    n < 10 ^ width -> m < 10 ^ width ->
    zero_padded width n = zero_padded width m -> n = m.
Proof.
  induction width as [| width IH]; intros n m Hn Hm H.
  - cbn in Hn, Hm. lia.
  - cbn [zero_padded] in H. apply append_snoc_inj in H as [H1 H2].
    apply digit_char_inj in H2.
    rewrite Nat.pow_succ_r' in Hn, Hm.
    apply IH in H1; try (apply Nat.Div0.div_lt_upper_bound; assumption).
    rewrite (Nat.div_mod_eq n 10), (Nat.div_mod_eq m 10). congruence.
Qed.

(** The first three of the six digits of the microseconds are the
    milliseconds. *)
Lemma milliseconds_of_f (us : nat) :
  substring 0 3 (zero_padded 6 us) = zero_padded 3 (us / 1000).
Proof.
  change (zero_padded 6 us)
    with (((zero_padded 3 (us / 10 / 10 / 10)
            ++ String (digit_char (us / 10 / 10)) EmptyString)
           ++ String (digit_char (us / 10)) EmptyString)
          ++ String (digit_char us) EmptyString)%string.
  rewrite !string_app_assoc, !Nat.Div0.div_div.
  change (10 * 10 * 10) with 1000.
  rewrite <- (zero_padded_length 3 (us / 1000)) at 1.
  apply substring_prefix.
Qed.

(** The text of a timestamp. *)
Lemma get_timestamp_text (d : Datetime.t) :
  get_timestamp d
  = ("[[" ++ zero_padded 4 (Datetime.year d)
     ++ "-" ++ zero_padded 2 (Datetime.month d)
     ++ "-" ++ zero_padded 2 (Datetime.day d)
     ++ "_" ++ zero_padded 2 (Datetime.hour d)
     ++ ":" ++ zero_padded 2 (Datetime.minute d)
     ++ ":" ++ zero_padded 2 (Datetime.second d)
     ++ "." ++ zero_padded 3 (Datetime.microsecond d / 1000) ++ "]")%string.
Proof.
  unfold get_timestamp, strftime_to_seconds, strftime_f.
  rewrite milliseconds_of_f.
  cbn [String.append]. rewrite !string_app_assoc. cbn [String.append].
  reflexivity.
Qed.

Lemma below_pow4 (y : nat) : y / 100 < 100 -> y < 10 ^ 4.
Proof.
  intros H. replace (10 ^ 4) with (100 * 100) by reflexivity.
  pose proof (Nat.div_mod_eq y 100). pose proof (Nat.mod_upper_bound y 100).
  lia.
Qed.

(** X19. A timestamp opens with two brackets and closes with one:
    [[[YYYY-MM-DD_HH:MM:SS.mmm]], 26 characters, the milliseconds cut
    from the microseconds without rounding.  Two times of the clock
    have the same timestamp exactly when they agree up to the
    millisecond. *)
Theorem a_timestamp_names_its_millisecond (a b : Datetime.t) :
  Datetime.valid a = true ->
  Datetime.valid b = true ->
  get_timestamp a
  = ("[[" ++ zero_padded 4 (Datetime.year a)
     ++ "-" ++ zero_padded 2 (Datetime.month a)
     ++ "-" ++ zero_padded 2 (Datetime.day a)
     ++ "_" ++ zero_padded 2 (Datetime.hour a)
     ++ ":" ++ zero_padded 2 (Datetime.minute a)
     ++ ":" ++ zero_padded 2 (Datetime.second a)
     ++ "." ++ zero_padded 3 (Datetime.microsecond a / 1000) ++ "]")%string
  /\ String.length (get_timestamp a) = 26
  /\ (get_timestamp a = get_timestamp b
      <-> Datetime.to_millisecond a = Datetime.to_millisecond b).
Proof.
  intros Ha Hb.
  split; [apply get_timestamp_text |].
  split.
  { rewrite get_timestamp_text. cbn [String.append String.length].
    repeat (rewrite string_length_app, zero_padded_length;
            cbn [String.append String.length]).
    reflexivity. }
  unfold Datetime.valid in Ha, Hb.
  repeat (apply andb_prop in Ha as [Ha ?]).
  repeat (apply andb_prop in Hb as [Hb ?]).
  repeat match goal with
         | H : (_ <=? _) = true |- _ => apply Nat.leb_le in H
         | H : (_ <? _) = true |- _ => apply Nat.ltb_lt in H
         end.
  unfold Datetime.to_millisecond. rewrite !get_timestamp_text.
  split.
  - intros Heq.
    repeat match type of Heq with
           | (_ ++ _ = _ ++ _)%string =>
               let E := fresh "E" in
               apply append_inj_length in Heq as [E Heq];
               [| rewrite ?zero_padded_length; reflexivity]
           end.
    repeat match goal with
           | E : zero_padded _ _ = zero_padded _ _ |- _ =>
               apply zero_padded_inj in E;
               [| first [apply below_pow4; assumption | cbn [Nat.pow]; lia] ..]
           end.
    repeat match goal with
           | |- _ :: _ = _ :: _ => apply (f_equal2 (@cons nat)); [assumption |]
           end.
    reflexivity.
  - intros Heq. injection Heq as -> -> -> -> -> -> E.
    change (Datetime.microsecond a / 1000 = Datetime.microsecond b / 1000) in E.
    rewrite E. reflexivity.
Qed.

Lemma a_timestamp_names_its_millisecond_witness :
  get_timestamp (utc_example 7) = "[[2024-02-18_09:05:07.001]"
  /\ String.length (get_timestamp (utc_example 7)) = 26
  /\ (get_timestamp (utc_example 7)
      = get_timestamp (Datetime.mk 2024 2 18 9 5 7 1000)
      <-> Datetime.to_millisecond (utc_example 7)
          = Datetime.to_millisecond (Datetime.mk 2024 2 18 9 5 7 1000)).
Proof.
  apply (a_timestamp_names_its_millisecond (utc_example 7)
           (Datetime.mk 2024 2 18 9 5 7 1000)); reflexivity.
Defined.

(** ** The broker callbacks *)

Section CallbackFacts.

Variable clock : nat -> Q.
Variable utcnow : nat -> Datetime.t.

Lemma write_lines_effect (to_write : string) (subs : list ConfigSubscription.t) :
  forall s : Session,
    fold_left
      (fun s sub =>
         file_write_text_line (ConfigSubscription.logfile sub) to_write s)
      subs s
    = mkSession (runtime s)
        (line_writes s
         ++ in_each_logfile subs (to_write ++ String Py.LF EmptyString))
        (stamps s).
Proof.
  induction subs as [| sub subs IH]; intros s; cbn [fold_left].
  - unfold in_each_logfile. cbn. rewrite app_nil_r. destruct s; reflexivity.
  - rewrite IH. unfold file_write_text_line, in_each_logfile.
    cbn [runtime line_writes stamps fmap list_fmap].
    rewrite <- app_assoc. reflexivity.
Qed.

Lemma write_to_logfiles_effect (to_write : string) (s : Session) :
  write_to_logfiles to_write s
  = mkSession (runtime s)
      (line_writes s
       ++ in_each_logfile (subscriptions (config (world (runtime s))))
            (to_write ++ String Py.LF EmptyString))
      (stamps s).
Proof. apply write_lines_effect. Qed.

Lemma subscribe_all (subs : list ConfigSubscription.t) :
  forall rt : Runtime,
    fold_left
      (fun rt sub =>
         call (Subscribe (ConfigSubscription.topic sub)
                 (ConfigSubscription.qos sub)) rt)
      subs rt
    = mkRuntime (world rt) (app_exit rt) (mqtt_connection_lost rt)
        (time_mqtt_connected rt) (t_wait_start rt) (step rt)
        (calls rt ++ (subscribe_of <$> subs)) (reads rt).
Proof.
  induction subs as [| sub subs IH]; intros rt; cbn [fold_left].
  - cbn. rewrite app_nil_r. destruct rt; reflexivity.
  - rewrite IH. unfold call. cbn [world app_exit mqtt_connection_lost
      time_mqtt_connected t_wait_start step calls reads fmap list_fmap].
    rewrite <- app_assoc. reflexivity.
Qed.

(** The callbacks act on the module globals as [handle] says. *)
Lemma callbacks_handle (reason_code : Z) (s : Session) :
  runtime (cb_mqtt_on_connect clock utcnow s)
  = handle clock OnConnect (runtime s)
  /\ runtime (cb_mqtt_on_disconnect utcnow reason_code s)
     = handle clock OnDisconnect (runtime s).
Proof.
  split.
  - unfold cb_mqtt_on_connect, timestamp_now.
    rewrite write_to_logfiles_effect. reflexivity.
  - unfold cb_mqtt_on_disconnect, timestamp_now. cbn [handle].
    destruct (mqtt_connection_lost (runtime s)); cbn [negb]; [reflexivity |].
    destruct (negb (reason_code =? 0)%Z); [| reflexivity].
    rewrite write_to_logfiles_effect. reflexivity.
Qed.

(** X20. Each connection, the first and every later one, subscribes
    again to all configured topics in the order of the script, takes the
    time of the connection and writes one line to the log file of each
    subscription; the line says that communication is restored exactly
    when a disconnect was seen before. *)
Theorem every_connect_subscribes_and_reports (s : Session) :
  let subs := subscriptions (config (world (runtime s))) in
  let s' := cb_mqtt_on_connect clock utcnow s in
  calls (runtime s') = calls (runtime s) ++ (subscribe_of <$> subs)
  /\ mqtt_connection_lost (runtime s') = false
  /\ time_mqtt_connected (runtime s') = Some (clock (reads (runtime s)))
  /\ line_writes s'
     = line_writes s
       ++ in_each_logfile subs
            (status_line (utcnow (stamps s))
               (if mqtt_connection_lost (runtime s)
                then " -- MQTT Connected (Communication Restored) --"
                else " -- MQTT Connected --")).
Proof.
  cbv zeta. unfold cb_mqtt_on_connect, timestamp_now, status_line.
  cbn [runtime line_writes stamps].
  rewrite write_to_logfiles_effect. cbn [runtime line_writes stamps time].
  rewrite subscribe_all.
  cbn [calls mqtt_connection_lost time_mqtt_connected world set_connected
         reads runtime line_writes].
  repeat split.
  destruct (mqtt_connection_lost (runtime s)); reflexivity.
Qed.

(** X21. A loss of the connection is logged once: the first disconnect
    with a reason code other than zero writes one line to the log file
    of each subscription, a disconnect with reason code zero writes
    none, and a further disconnect before the next connect does nothing
    at all. *)
Theorem a_lost_connection_is_logged_once (reason_code again : Z) (s : Session) :
  let subs := subscriptions (config (world (runtime s))) in
  let s' := cb_mqtt_on_disconnect utcnow reason_code s in
  cb_mqtt_on_disconnect utcnow again s' = s'
  /\ mqtt_connection_lost (runtime s') = true
  /\ line_writes s'
     = line_writes s
       ++ (if (negb (mqtt_connection_lost (runtime s))
               && negb (reason_code =? 0)%Z)%bool
           then in_each_logfile subs
                  (status_line (utcnow (stamps s))
                     " -- MQTT Communication Lost --")
           else []).
Proof.
  cbv zeta.
  assert (Hlost : mqtt_connection_lost
                    (runtime (cb_mqtt_on_disconnect utcnow reason_code s))
                  = true).
  { rewrite (proj2 (callbacks_handle reason_code s)). cbn [handle].
    destruct (mqtt_connection_lost (runtime s)) eqn:E; [exact E | reflexivity]. }
  split.
  - unfold cb_mqtt_on_disconnect at 1. rewrite Hlost. reflexivity.
  - split; [exact Hlost |].
    unfold cb_mqtt_on_disconnect, timestamp_now, status_line.
    destruct (mqtt_connection_lost (runtime s)); cbn [negb andb].
    + rewrite app_nil_r. reflexivity.
    + destruct (negb (reason_code =? 0)%Z).
      * rewrite write_to_logfiles_effect. reflexivity.
      * cbn. rewrite app_nil_r. reflexivity.
Qed.

Lemma log_message_effect (topic payload_str : string)
    (subs : list ConfigSubscription.t) :
  forall s : Session,
    fold_left
      (fun s sub =>
         if py_eq_str (ConfigSubscription.topic sub) topic then
           let '(timestamp, s) := timestamp_now utcnow s in
           let to_write :=
             (timestamp ++ " [" ++ topic ++ "] " ++ payload_str)%string in
           file_write_text_line (ConfigSubscription.logfile sub) to_write s
         else s)
      subs s
    = mkSession (runtime s)
        (line_writes s
         ++ imap
              (fun k sub =>
                 mkWrite (ConfigSubscription.logfile sub)
                   (message_line (utcnow (stamps s + k)) topic payload_str))
              (logged_for topic subs))
        (stamps s + length (logged_for topic subs)).
Proof.
  induction subs as [| sub subs IH]; intros s;
    cbn [fold_left logged_for List.filter].
  - cbn. rewrite app_nil_r, Nat.add_0_r. destruct s; reflexivity.
  - fold (logged_for topic subs).
    destruct (py_eq_str (ConfigSubscription.topic sub) topic).
    + rewrite IH. unfold timestamp_now, file_write_text_line.
      cbn [runtime line_writes stamps length imap].
      f_equal; [| lia].
      rewrite <- app_assoc. f_equal. cbn [app]. f_equal.
      * rewrite Nat.add_0_r. reflexivity.
      * apply imap_ext. intros k sub' _. unfold compose.
        replace (stamps s + S k) with (S (stamps s) + k) by lia. reflexivity.
    + apply IH.
Qed.

(** X22. A received message is written to the log file of each
    subscription whose topic is the topic of the message character for
    character, once per such subscription and in their order, each line
    with a timestamp of its own; a subscription with any other topic, a
    wildcard filter that covers the message included, gets no line.
    The interpreter state is not touched, and a payload that is no
    UTF-8 text raises. *)
Theorem a_message_is_logged_under_its_exact_topic (msg : Message) (s : Session) :
  cb_mqtt_on_msg_rx utcnow msg s
  = match payload msg with
    | None => Raise ValueError
    | Some payload_str =>
        let hits :=
          logged_for (msg_topic msg)
            (subscriptions (config (world (runtime s)))) in
        Ok (mkSession (runtime s)
              (line_writes s
               ++ imap
                    (fun k sub =>
                       mkWrite (ConfigSubscription.logfile sub)
                         (message_line (utcnow (stamps s + k)) (msg_topic msg)
                            payload_str))
                    hits)
              (stamps s + length hits))
    end.
Proof.
  unfold cb_mqtt_on_msg_rx. destruct (payload msg) as [payload_str |];
    [| reflexivity].
  cbv zeta. f_equal. apply log_message_effect.
Qed.

End CallbackFacts.

(** A message under [a/b] reaches the log of the subscription to [a/b]
    and not that of the subscription to [a/#]. *)
Example a_wildcard_subscription_logs_nothing :
  cb_mqtt_on_msg_rx utc_example (mkMessage "a/b" (Some "on")) session0
  = Ok (mkSession (runtime session0)
          [mkWrite (PStr "b.log")
             ("[[2024-02-18_09:05:00.001] [a/b] on" ++ nl)] 1).
Proof. reflexivity. Qed.

(** ** The calls on the broker client and the return of [main] *)

Section InterpreterCalls.

Variable clock : nat -> Q.

Lemma handle_calls (e : Async) (rt : Runtime) :
  exists more, calls (handle clock e rt) = calls rt ++ more.
Proof.
  destruct e; cbn [handle].
  - cbn [time]. rewrite subscribe_all. cbn. eauto.
  - exists []. rewrite app_nil_r.
    destruct (mqtt_connection_lost rt); reflexivity.
  - exists []. rewrite app_nil_r. reflexivity.
Qed.

Lemma arrive_calls (t : Tick) (rt : Runtime) :
  exists more, calls (arrive clock t rt) = calls rt ++ more.
Proof.
  unfold arrive. generalize (events t) as es. intros es. revert rt.
  induction es as [| e es IH]; intros rt; cbn [fold_left].
  - exists []. rewrite app_nil_r. reflexivity.
  - destruct (IH (handle clock e rt)) as [m2 ->].
    destruct (handle_calls e rt) as [m1 ->].
    exists (m1 ++ m2). rewrite app_assoc. reflexivity.
Qed.

Lemma run_step_cmd_calls (c : Command) (rt rt' : Runtime) (b : bool) :
  run_step_cmd clock c rt = Ok (b, rt') ->
  exists more, calls rt' = calls rt ++ more.
Proof.
  intros Hrun. destruct (is_delay (cmd c)) eqn:Hd.
  - destruct (run_step_cmd_delay clock _ _ _ _ Hrun Hd)
      as (d & start & n & _ & _ & _ & _ & _ & _ & _ & Hc).
    exists []. rewrite app_nil_r. exact Hc.
  - revert Hrun. unfold run_step_cmd. rewrite Hd.
    destruct (cmd c =? "DISCONNECT")%string.
    { intros [= <- <-]. cbn. eauto. }
    destruct (cmd c =? "PUB")%string.
    + destruct (index (args c) 0) as [? | ?]; cbn; [| intros; discriminate].
      destruct (index (args c) 1) as [? | ?]; cbn; [| intros; discriminate].
      destruct (index (args c) 2) as [? | ?]; cbn; [| intros; discriminate].
      intros [= <- <-]. cbn. eauto.
    + intros [= <- <-]. exists []. rewrite app_nil_r. reflexivity.
Qed.

(** One iteration adds calls. *)
Lemma loop_body_calls (t : Tick) (rt rt' : Runtime) :
  loop_body clock t rt = Ok rt' ->
  exists more, calls rt' = calls rt ++ more.
Proof.
  unfold loop_body.
  destruct (is_connected t).
  2: { intros [= <-]. exists []. rewrite app_nil_r. reflexivity. }
  destruct (manage_publish_each_time clock rt) as [rt1 | e] eqn:Hm;
    cbn [mbind result_bind]; [| intros; discriminate].
  destruct (manage_publish_each_time_effect clock _ _ Hm)
    as (_ & _ & _ & (due & _ & Hc1) & _).
  destruct (step rt1 <? length (steps_to_execute (config (world rt1)))).
  2: { intros [= <-]. eauto. }
  destruct (index _ _) as [c | e]; cbn [mbind result_bind];
    [| intros; discriminate].
  destruct (run_step_cmd clock c rt1) as [[b rt2] | e] eqn:Hrun;
    cbn [mbind result_bind]; [| intros; discriminate].
  destruct (run_step_cmd_calls _ _ _ _ Hrun) as [m2 Hc2].
  assert (Hcalls : calls rt2 = calls rt ++ (publish_of <$> due) ++ m2)
    by (rewrite Hc2, Hc1, app_assoc; reflexivity).
  destruct b; intros [= <-]; cbn [set_step calls]; eauto.
Qed.

Lemma interpreter_loop_calls (ticks : list Tick) :
  forall rt rt' : Runtime,
    interpreter_loop clock ticks rt = Ok (Some rt') ->
    exists more, calls rt' = calls rt ++ more.
Proof.
  induction ticks as [| t ticks IH]; intros rt rt'; cbn [interpreter_loop];
    [discriminate |].
  destruct (arrive_calls t rt) as [m1 Hc1].
  destruct (app_exit (arrive clock t rt)).
  - intros [= <-]. eauto.
  - destruct (loop_body clock t (arrive clock t rt)) as [rt1 | e] eqn:Hb;
      cbn [mbind result_bind]; [| discriminate].
    destruct (loop_body_calls _ _ _ Hb) as [m2 Hc2].
    intros Hloop. destruct (IH _ _ Hloop) as [m3 Hc3].
    exists (m1 ++ m2 ++ m3). rewrite Hc3, Hc2, Hc1, <- !app_assoc. reflexivity.
Qed.

(** What [cmdscript_interpreter] has done when it returns. *)
Lemma cmdscript_interpreter_calls (uuid : string) (ticks : list Tick)
    (w : World) (rc : Z) (rt : Runtime) :
  cmdscript_interpreter clock uuid ticks w = Ok (Some (rc, rt)) ->
  rc = RC.OK
  /\ exists mid,
       calls rt
       = Connect (mqtt_host (config w)) (mqtt_port (config w))
           (keepalive_s (config w))
         :: LoopForever :: mid ++ [Disconnect; LoopStop].
Proof.
  unfold cmdscript_interpreter.
  destruct (interpreter_loop clock ticks (interpreter_entry uuid w))
    as [[rt1 |] | e] eqn:Hloop; cbn [mbind result_bind]; try discriminate.
  intros [= <- <-]. split; [reflexivity |].
  destruct (interpreter_loop_calls _ _ _ Hloop) as [mid Hc].
  cbn [call calls]. rewrite Hc.
  assert (He : calls (interpreter_entry uuid w)
               = [Connect (mqtt_host (config w)) (mqtt_port (config w))
                    (keepalive_s (config w)); LoopForever]).
  { unfold interpreter_entry.
    destruct (client_id (config w)) as [[| c s] | z]; reflexivity. }
  rewrite He.
  exists mid. cbn [app]. rewrite <- !app_assoc. reflexivity.
Qed.

(** X23. When [cmdscript_interpreter] returns, it returns [RC.OK], and
    the calls it has made on the broker client start with the
    connection to the configured broker and the start of the network
    loop and end with a disconnect and the stop of the loop, whether
    the loop was left by a [DISCONNECT] step or by a signal. *)
Theorem the_client_is_connected_first_and_closed_last
    (uuid : string) (ticks : list Tick) (w : World) (rc : Z) (rt : Runtime) :
  cmdscript_interpreter clock uuid ticks w = Ok (Some (rc, rt)) ->
  rc = RC.OK
  /\ exists mid,
       calls rt
       = Connect (mqtt_host (config w)) (mqtt_port (config w))
           (keepalive_s (config w))
         :: LoopForever :: mid ++ [Disconnect; LoopStop].
Proof.
  intros H.
  destruct (cmdscript_interpreter_calls _ _ _ _ _ H) as (Hrc & Hc).
  split; assumption.
Qed.

(** X24. [main] returns [RC.OK] only when the script file was read and
    was not empty, the parser accepted its text without flagging it,
    having logged no error record, and the interpreter, started on the
    parser's result, has returned [RC.OK]. *)
Theorem main_succeeds_only_on_a_script_without_error
    (uuid : string) (ticks : list Tick) (fs : string -> File) (argc : nat)
    (options_file : string) (r : MainResult) :
  main clock uuid ticks fs argc options_file world0 = Ok r ->
  return_code r = Some RC.OK ->
  exists (text : string) (w : World) (rt : Runtime),
    fs options_file = Reads text
    /\ text <> EmptyString
    /\ cmdscript_parse text world0 = Ok w
    /\ invalid (config w) = false
    /\ existsb is_error (records w) = false
    /\ cmdscript_interpreter clock uuid ticks w = Ok (Some (RC.OK, rt)).
Proof.
  unfold main.
  destruct (argc =? 0); [intros [= <-]; discriminate |].
  unfold file_read_all_text.
  destruct (fs options_file) as [| tb | text] eqn:Hfs;
    cbn [String.eqb]; try (intros [= <-]; discriminate).
  destruct (String.eqb_spec text "") as [-> | Hne];
    [intros [= <-]; discriminate |].
  destruct (cmdscript_parse text world0) as [w | e] eqn:Hparse;
    cbn [mbind result_bind]; [| discriminate].
  destruct (invalid (config w)) eqn:Hinv; [intros [= <-]; discriminate |].
  destruct (cmdscript_interpreter clock uuid ticks w) as [[[rc rt] |] | e]
    eqn:Hrun; cbn [mbind result_bind]; try discriminate;
    [| intros [= <-]; discriminate].
  intros [= <-] _.
  destruct (cmdscript_interpreter_calls _ _ _ _ _ Hrun) as [-> _].
  exists text, w, rt.
  repeat split; try assumption.
  destruct (first_parse_of text w Hparse) as (rs & _ & Hrec & Hflag & _).
  rewrite Hrec, error_records, <- Hflag. exact Hinv.
Qed.

End InterpreterCalls.

Lemma the_client_is_connected_first_and_closed_last_witness :
  exists rt mid,
    cmdscript_interpreter clock_1s "id" scenario_ticks scenario_world
    = Ok (Some (RC.OK, rt))
    /\ calls rt
       = Connect (PStr "") 1883 60
         :: LoopForever :: mid ++ [Disconnect; LoopStop].
Proof.
  assert (H : exists rt,
             cmdscript_interpreter clock_1s "id" scenario_ticks scenario_world
             = Ok (Some (RC.OK, rt)))
    by (eexists; vm_compute; reflexivity).
  destruct H as [rt Hrt]. exists rt.
  destruct (the_client_is_connected_first_and_closed_last clock_1s "id"
              scenario_ticks scenario_world RC.OK rt Hrt) as [_ [mid Hmid]].
  exists mid. split; assumption.
Defined.

Lemma main_succeeds_only_on_a_script_without_error_witness :
  exists (r : MainResult) (text : string) (w : World) (rt : Runtime),
    main clock_1s "id" scenario_ticks (fun _ => Reads scenario_script) 1
      "script.txt" world0 = Ok r
    /\ return_code r = Some RC.OK
    /\ (fun _ : string => Reads scenario_script) "script.txt" = Reads text
    /\ text <> EmptyString
    /\ cmdscript_parse text world0 = Ok w
    /\ invalid (config w) = false
    /\ existsb is_error (records w) = false
    /\ cmdscript_interpreter clock_1s "id" scenario_ticks w
       = Ok (Some (RC.OK, rt)).
Proof.
  assert (H : exists r,
             main clock_1s "id" scenario_ticks (fun _ => Reads scenario_script)
               1 "script.txt" world0 = Ok r
             /\ return_code r = Some RC.OK)
    by (eexists; split; vm_compute; reflexivity).
  destruct H as (r & Hr & Hrc). exists r.
  destruct (main_succeeds_only_on_a_script_without_error clock_1s "id"
              scenario_ticks (fun _ => Reads scenario_script) 1 "script.txt"
              r Hr Hrc) as (text & w & rt & H).
  exists text, w, rt. split; [exact Hr |]. split; [exact Hrc | exact H].
Defined.
